(** * Meme Factory D2: the composition state of [src/components/Main.jsx]

    A shallow embedding of the React component [App] and of the hook
    [useScriptLoader].  JavaScript objects are finite maps from property
    names to values, React state cells are record fields, event handlers
    are functions from the state of the render they close over to the next
    state, the field elements of the document are the list that React
    reconciles by key at every commit, and whatever the browser decides
    (the clock, the outcome of a script load, whether GSAP is defined, the
    result of a file read, the offsets of a drag, the canvas capture) is a
    parameter of the step that consumes it. *)

From Stdlib Require Import ZArith Ascii String List Lia.
From stdpp Require Import base option list gmap strings pretty.

Open Scope Z_scope.
Open Scope string_scope.
Open Scope list_scope.
Open Scope stdpp_scope.

(** ** JavaScript values and objects *)

Module JS.

(** The values that flow through the component: [undefined], [null],
    numbers and strings.  The component stores, compares and prints
    numbers and never computes with them, so a number is given by what
    these operations see of it: an integer ([VNum]: literals,
    [Date.now()], [parseInt] of a range input, whole pixel offsets) by the
    integer, and a finite number that is not an integer ([VFrac]: the
    offsets [this.x] and [this.y] of a Draggable released between pixels)
    by the decimal string JavaScript prints for it, which is one string
    per number ([VFrac "10.5"] is 10.5).  [NaN] and the infinities are
    outside this model. *)
Inductive value : Type :=
  | VUndef
  | VNull
  | VNum (n : Z)
  | VFrac (repr : string)
  | VStr (s : string).

#[global] Instance value_eq_dec : EqDecision value.
Proof. solve_decision. Defined.

(** [a === b] on these values. *)
Definition strict_eq (a b : value) : bool := bool_decide (a = b).

(** [a !== b]. *)
Definition strict_ne (a b : value) : bool := negb (strict_eq a b).

(** An object literal is a finite map of its own properties. *)
Abbreviation obj := (gmap string value).

(** [o.k]: a missing property reads as [undefined]. *)
Definition get (o : obj) (k : string) : value := default VUndef (o !! k).

(** [{ ...o, [k]: v }]. *)
Definition spread_set (o : obj) (k : string) (v : value) : obj := <[k := v]> o.

(** [`${n}`] for an integer. *)
Definition num_to_string (n : Z) : string := pretty n.

End JS.

Import JS.

(** ** The field store and the background: React state of [App] *)

Module App.

Definition INITIAL_IMAGE_URL : string := "https://i.imgflip.com/1bij.jpg".

(** A text field object [{ id, text, font, color, size, x, y }]. *)
Definition mkField (id : value) (text font color : string) (size x y : Z) : obj :=
  {[ "id" := id; "text" := VStr text; "font" := VStr font;
     "color" := VStr color; "size" := VNum size;
     "x" := VNum x; "y" := VNum y ]}.

(** The attributes a field is created with, besides its [id]. *)
Definition known_attributes : list string :=
  ["text"; "font"; "color"; "size"; "x"; "y"].

(** The [useState] cells of [App] that the handlers read and write. *)
Record State : Type := mkState {
  allMemes : list obj;
  meme : obj;
  fields : list obj;
  activeFieldId : value;
}.

Definition set_meme (m : obj) (s : State) : State :=
  mkState (allMemes s) m (fields s) (activeFieldId s).
Definition set_fields (fs : list obj) (s : State) : State :=
  mkState (allMemes s) (meme s) fs (activeFieldId s).
Definition set_activeFieldId (a : value) (s : State) : State :=
  mkState (allMemes s) (meme s) (fields s) a.
Definition set_allMemes (ms : list obj) (s : State) : State :=
  mkState ms (meme s) (fields s) (activeFieldId s).

(** [meme.imageUrl], the background image source. *)
Definition imageUrl (s : State) : value := get (meme s) "imageUrl".

(** The arguments of the [useState] calls. *)
Definition initial : State :=
  mkState []
    {[ "imageUrl" := VStr INITIAL_IMAGE_URL ]}
    [ mkField (VNum 1) "One does not simply" "Anton" "#ffffff" 40 100 50;
      mkField (VNum 2) "Fix a bug on Friday" "Anton" "#ffffff" 40 100 300 ]
    VNull.

(** The ids of the fields, in store order. *)
Definition ids (fs : list obj) : list value := map (λ f, get f "id") fs.

(** *** Event handlers *)

(** [handleSelectMeme(url)]. *)
Definition handleSelectMeme (url : value) (s : State) : State :=
  set_activeFieldId VNull (set_meme {[ "imageUrl" := url ]} s).

(** [handleRandomMeme()].  [idx] is the value of
    [Math.floor(Math.random() * allMemes.length)]; reading [.url] of an
    element past the end throws, which is [None]. *)
Definition handleRandomMeme (idx : nat) (s : State) : option State :=
  if bool_decide (length (allMemes s) = 0%nat) then Some s
  else
    m ← allMemes s !! idx;
    Some (handleSelectMeme (get m "url") s).

(** [handleAddField()], with [now] the value of [Date.now()]. *)
Definition handleAddField (now : Z) (s : State) : State :=
  let newField := mkField (VNum now) "New Text" "Anton" "#ffffff" 40 150 150 in
  set_activeFieldId (get newField "id") (set_fields (fields s ++ [newField]) s).

(** [handleFieldChange(id, key, value)]. *)
Definition handleFieldChange (id : value) (key : string) (v : value)
    (s : State) : State :=
  set_fields
    (map (λ field, if strict_eq (get field "id") id
                   then spread_set field key v else field) (fields s)) s.

(** [handleDeleteField(id)]. *)
Definition handleDeleteField (id : value) (s : State) : State :=
  let s' := set_fields
              (List.filter (λ field, strict_ne (get field "id") id) (fields s)) s in
  if strict_eq (activeFieldId s) id then set_activeFieldId VNull s' else s'.

(** The body of the [setFields] updater inside [onDragEnd]: [captured] is
    the field object the closure was created over, [x] and [y] are
    [this.x] and [this.y] of the Draggable. *)
Definition onDragEnd_update (captured : obj) (x y : value)
    (currentFields : list obj) : list obj :=
  map (λ item, if strict_eq (get item "id") (get captured "id")
               then spread_set (spread_set item "x" x) "y" y else item)
      currentFields.

End App.

Import App.

(** ** The component in its browser: the document, effects, refs and
       pending callbacks *)

Module World.

(** *** The field elements and React's list of children *)

(** The class tokens of the element rendered for the field at [index]
    (the [className] of the outer [div] in [fields.map]). *)
Definition field_classes (index : nat) : list string :=
  ["draggable-text"; "draggable-" +:+ num_to_string (Z.of_nat index);
   "absolute"; "cursor-move"].

(** The outer [div] of a field in the document: the DOM node, by the number
    it was created under, and the index in its [className]. *)
Record Element : Type := mkElement {
  node : nat;
  index_class : nat;
}.

(** The child that React keeps for a rendered field: its key and its DOM
    node ([fiber.key], [fiber.stateNode]); [fiber.index] is the position in
    the list of children. *)
Record Fiber : Type := mkFiber {
  fkey : option string;
  fnode : nat;
}.

(** [key={field.id}]: React makes a string of a key (['' + key]); an
    [undefined] id is no key. *)
Definition react_key (id : value) : option string :=
  match id with
  | VUndef => None
  | VNull => Some "null"
  | VNum n => Some (num_to_string n)
  | VFrac repr => Some repr
  | VStr s => Some s
  end.

(** The key under which [existingChildren] holds an old child: its key, or
    its index when it has none. *)
Inductive slot : Type :=
  | ByKey (k : string)
  | ByIndex (i : nat).

#[global] Instance slot_eq_dec : EqDecision slot.
Proof. solve_decision. Defined.

Definition slot_of (k : option string) (i : nat) : slot :=
  match k with Some s => ByKey s | None => ByIndex i end.

(** A child of the new list: its fiber, whether it continues an old fiber
    ([fiber.alternate !== null]), and its [Placement] flag. *)
Record Child : Type := mkChild {
  fiber : Fiber;
  alternate : bool;
  placement : bool;
}.

(** [existingChildren.set(k, v)], with [v] an old child and its index: a
    later child with the same key takes the place of the earlier one. *)
Fixpoint map_set (k : slot) (v : nat * Fiber) (m : list (slot * (nat * Fiber)))
    : list (slot * (nat * Fiber)) :=
  match m with
  | [] => [(k, v)]
  | e :: m' => if bool_decide (e.1 = k) then (k, v) :: m' else e :: map_set k v m'
  end.

(** [existingChildren.get(k)]. *)
Definition map_get (k : slot) (m : list (slot * (nat * Fiber)))
    : option (nat * Fiber) :=
  snd <$> List.find (λ e, bool_decide (e.1 = k)) m.

(** [existingChildren.delete(k)]. *)
Fixpoint map_delete (k : slot) (m : list (slot * (nat * Fiber)))
    : list (slot * (nat * Fiber)) :=
  match m with
  | [] => []
  | e :: m' => if bool_decide (e.1 = k) then m' else e :: map_delete k m'
  end.

(** [mapRemainingChildren]: the old children from index [i] on, by key. *)
Fixpoint mapRemainingChildren (i : nat) (old : list Fiber)
    (m : list (slot * (nat * Fiber))) : list (slot * (nat * Fiber)) :=
  match old with
  | [] => m
  | f :: old' => mapRemainingChildren (S i) old' (map_set (slot_of (fkey f) i) (i, f) m)
  end.

(** The first loop of [reconcileChildrenArray]: old and new children are
    walked together for as long as the keys agree ([updateSlot]); the old
    fiber is kept where it is.  The result is these children, the old
    children left and the new keys left. *)
Fixpoint update_slots (old : list Fiber) (keys : list (option string))
    : list Child * list Fiber * list (option string) :=
  match old, keys with
  | f :: old', k :: keys' =>
      if bool_decide (fkey f = k) then
        let '(cs, o, ks) := update_slots old' keys' in
        (mkChild f true false :: cs, o, ks)
      else ([], old, keys)
  | _, _ => ([], old, keys)
  end.

(** The last loop of [reconcileChildrenArray], from the new index [j] on:
    [updateFromMap] continues the old child found under the key and takes
    it out of the map, or creates a child with a new DOM node;
    [placeChild] flags a new child, and an old one that has to move
    ([oldIndex < lastPlacedIndex]).  The result is the children, what is
    left in the map and the next unused node number. *)
Fixpoint update_from_map (j : nat) (keys : list (option string))
    (m : list (slot * (nat * Fiber))) (lastPlacedIndex : nat) (next : nat)
    : list Child * list (slot * (nat * Fiber)) * nat :=
  match keys with
  | [] => ([], m, next)
  | k :: keys' =>
      match map_get (slot_of k j) m with
      | Some (oldIndex, f) =>
          let move := (oldIndex <? lastPlacedIndex)%nat in
          let '(cs, m', next') :=
            update_from_map (S j) keys' (map_delete (slot_of k j) m)
                            (if move then lastPlacedIndex else oldIndex) next in
          (mkChild f true move :: cs, m', next')
      | None =>
          let '(cs, m', next') :=
            update_from_map (S j) keys' m lastPlacedIndex (S next) in
          (mkChild (mkFiber k next) false true :: cs, m', next')
      end
  end.

(** [reconcileChildrenArray(returnFiber, currentFirstChild, newChildren)]
    for the children [fields.map(...)] of the composition: the new
    children, the DOM nodes of the old children to delete, and the next
    unused node number.  When the new children end in the first loop every
    old child left is deleted; otherwise the old children left go into the
    map, and only those still in the map after the last loop are deleted. *)
Definition reconcileChildrenArray (old : list Fiber) (keys : list (option string))
    (next : nat) : list Child * list nat * nat :=
  let '(pre, old', keys') := update_slots old keys in
  match keys' with
  | [] => (pre, fnode <$> old', next)
  | _ =>
      let '(cs, m, next') :=
        update_from_map (length pre) keys' (mapRemainingChildren (length pre) old' [])
                        (pred (length pre)) next in
      (pre ++ cs, (λ e : slot * (nat * Fiber), fnode e.2.2) <$> m, next')
  end.

(** [parent.removeChild(x)]; also the first half of moving a node. *)
Definition dom_remove (x : nat) (doc : list Element) : list Element :=
  List.filter (λ el, negb (bool_decide (node el = x))) doc.

(** [parent.insertBefore(el, ref)]. *)
Fixpoint insert_before (ref : nat) (el : Element) (doc : list Element)
    : list Element :=
  match doc with
  | [] => [el]
  | x :: doc' =>
      if bool_decide (node x = ref) then el :: x :: doc'
      else x :: insert_before ref el doc'
  end.

(** [getHostSibling]: the DOM node of the first later child that is not
    itself waiting to be placed. *)
Definition getHostSibling (later : list Child) : option nat :=
  (λ c, fnode (fiber c)) <$> List.find (λ c, negb (placement c)) later.

(** [commitPlacement]: before the host sibling, or at the end of the
    composition when there is none. *)
Definition commitPlacement (before : option nat) (el : Element)
    (doc : list Element) : list Element :=
  match before with
  | Some ref => insert_before ref el (dom_remove (node el) doc)
  | None => dom_remove (node el) doc ++ [el]
  end.

(** [commitUpdate] of the [className]: the node of [el] gets its class. *)
Definition commitUpdate (el : Element) (doc : list Element) : list Element :=
  (λ x, if bool_decide (node x = node el) then el else x) <$> doc.

(** The mutation of the document for the new children, in their order,
    from index [j] on: a child flagged [Placement] is inserted or moved,
    and every child's node carries the class of its index. *)
Fixpoint commit_children (j : nat) (cs : list Child) (doc : list Element)
    : list Element :=
  match cs with
  | [] => doc
  | c :: later =>
      let el := mkElement (fnode (fiber c)) j in
      commit_children (S j) later
        (if placement c then commitPlacement (getHostSibling later) el doc
         else commitUpdate el doc)
  end.

(** What React holds for the composition: the children of
    [fields.map(...)], the field elements of the document in document
    order (those of the children and any that a reconciliation has left
    behind), and the next unused node number. *)
Record Tree : Type := mkTree {
  children : list Fiber;
  document : list Element;
  next_node : nat;
}.

(** The commit of [fields.map((field, index) => <div key={field.id}
    className={`... draggable-${index} ...`}>)] over the previous
    children: deletions first, then the children in order. *)
Definition render_fields (fs : list obj) (t : Tree) : Tree :=
  let '(cs, deletions, next) :=
    reconcileChildrenArray (children t) (react_key <$> ids fs) (next_node t) in
  mkTree (fiber <$> cs)
         (commit_children 0 cs
            (List.filter (λ el, bool_decide (node el ∉ deletions)) (document t)))
         next.

(** *** GSAP Draggable instances *)

(** An instance made by [Draggable.create]: the DOM node it is bound to,
    the [field] its [onClick] and [onDragEnd] closures were created over,
    and whether [kill()] has been called on it. *)
Record Draggable : Type := mkDraggable {
  target : nat;
  captured : obj;
  alive : bool;
}.

(** The nodes that the class selector [.cls] selects, in document order. *)
Definition query_class (cls : string) (doc : list Element) : list nat :=
  node <$> List.filter (λ el, bool_decide (cls ∈ field_classes (index_class el))) doc.

(** [Draggable.create(`.${cls}`, vars)]: one new live instance per selected
    element; the result is the array of their addresses in [heap]. *)
Definition Draggable_create (cls : string) (field : obj)
    (doc : list Element) (heap : list Draggable)
    : list nat * list Draggable :=
  let targets := query_class cls doc in
  (seq (length heap) (length targets),
   heap ++ map (λ t, mkDraggable t field true) targets).

(** What [kill()] makes of an instance. *)
Definition killed (i : Draggable) : Draggable :=
  mkDraggable (target i) (captured i) false.

(** [d.kill()]. *)
Definition kill (d : nat) (heap : list Draggable) : list Draggable :=
  alter killed d heap.

(** [ref.forEach(d => d.kill())]; an [undefined] entry ([None]) makes
    [d.kill] throw a TypeError, which is the result [None]. *)
Fixpoint kill_all (ds : list (option nat)) (heap : list Draggable)
    : option (list Draggable) :=
  match ds with
  | [] => Some heap
  | Some d :: ds' => kill_all ds' (kill d heap)
  | None :: _ => None
  end.

(** The loop [fields.forEach((field, index) => ...)] of the effect, from
    position [index] on: create, then push [newDraggable[0]]. *)
Fixpoint attach_from (index : nat) (fs : list obj) (doc : list Element)
    (ref : list (option nat)) (heap : list Draggable)
    : list (option nat) * list Draggable :=
  match fs with
  | [] => (ref, heap)
  | field :: fs' =>
      let '(newDraggable, heap') :=
        Draggable_create ("draggable-" +:+ num_to_string (Z.of_nat index))
                         field doc heap in
      attach_from (S index) fs' doc (ref ++ [head newDraggable]) heap'
  end.

(** The dependency array [[fields.length, meme.imageUrl, librariesLoaded]]. *)
Record Deps : Type := mkDeps {
  dep_length : nat;
  dep_imageUrl : value;
  dep_loaded : bool;
}.

#[global] Instance Deps_eq_dec : EqDecision Deps.
Proof. solve_decision. Defined.

(** What the component has done outside its own state: a console message, a
    call of [html2canvas] with its options, a download started by a click
    on a link. *)
Inductive Output : Type :=
  | ConsoleError (msg : string) (detail : option string)
  | Html2canvasCall (useCORS : bool) (backgroundColor : value) (logging : bool)
  | DownloadFile (download : string) (href : string).

(** The component instance and what the browser holds for it. *)
Record World : Type := mkWorld {
  st : State;
  (** the flag returned by [useScriptLoader] *)
  librariesLoaded : bool;
  (** whether [window.gsap] and [window.Draggable] are defined *)
  gsap : bool;
  (** the field elements of the composition *)
  tree : Tree;
  (** [draggableInstancesRef.current] *)
  draggableInstancesRef : list (option nat);
  (** every Draggable ever created, by address *)
  heap : list Draggable;
  (** the dependencies of the last run of the Draggable effect *)
  lastDeps : option Deps;
  (** whether that run returned its cleanup function *)
  hasCleanup : bool;
  (** FileReaders whose [loadend] has not fired yet *)
  readers : nat;
  (** delays of the [setTimeout] callbacks not yet run, oldest first *)
  timers : list Z;
  (** [html2canvas] promises not yet settled *)
  captures : nat;
  (** console messages, capture calls and downloads so far, oldest first *)
  out : list Output;
}.

Definition set_st (s : State) (w : World) : World :=
  mkWorld s (librariesLoaded w) (gsap w) (tree w) (draggableInstancesRef w) (heap w)
          (lastDeps w) (hasCleanup w) (readers w) (timers w) (captures w) (out w).
Definition set_librariesLoaded (b g : bool) (w : World) : World :=
  mkWorld (st w) b g (tree w) (draggableInstancesRef w) (heap w)
          (lastDeps w) (hasCleanup w) (readers w) (timers w) (captures w) (out w).
Definition set_tree (t : Tree) (w : World) : World :=
  mkWorld (st w) (librariesLoaded w) (gsap w) t (draggableInstancesRef w) (heap w)
          (lastDeps w) (hasCleanup w) (readers w) (timers w) (captures w) (out w).
Definition set_drag (ref : list (option nat)) (h : list Draggable)
    (w : World) : World :=
  mkWorld (st w) (librariesLoaded w) (gsap w) (tree w) ref h
          (lastDeps w) (hasCleanup w) (readers w) (timers w) (captures w) (out w).
Definition set_effect (d : option Deps) (c : bool) (w : World) : World :=
  mkWorld (st w) (librariesLoaded w) (gsap w) (tree w) (draggableInstancesRef w) (heap w)
          d c (readers w) (timers w) (captures w) (out w).
Definition set_readers (n : nat) (w : World) : World :=
  mkWorld (st w) (librariesLoaded w) (gsap w) (tree w) (draggableInstancesRef w) (heap w)
          (lastDeps w) (hasCleanup w) n (timers w) (captures w) (out w).
Definition set_timers (ts : list Z) (w : World) : World :=
  mkWorld (st w) (librariesLoaded w) (gsap w) (tree w) (draggableInstancesRef w) (heap w)
          (lastDeps w) (hasCleanup w) (readers w) ts (captures w) (out w).
Definition set_captures (n : nat) (w : World) : World :=
  mkWorld (st w) (librariesLoaded w) (gsap w) (tree w) (draggableInstancesRef w) (heap w)
          (lastDeps w) (hasCleanup w) (readers w) (timers w) n (out w).
Definition log (o : Output) (w : World) : World :=
  mkWorld (st w) (librariesLoaded w) (gsap w) (tree w) (draggableInstancesRef w) (heap w)
          (lastDeps w) (hasCleanup w) (readers w) (timers w) (captures w)
          (out w ++ [o]).

(** *** The render and the Draggable effect *)

(** The commit of a render to the document: the loading screen has no
    field element; the editor has the composition with its fields. *)
Definition render (w : World) : World :=
  set_tree (if librariesLoaded w then render_fields (fields (st w)) (tree w)
            else mkTree [] [] (next_node (tree w))) w.

(** The cleanup function returned by the effect. *)
Definition draggable_cleanup (w : World) : option World :=
  h ← kill_all (draggableInstancesRef w) (heap w);
  Some (set_drag (draggableInstancesRef w) h w).

(** The body of the effect; the second component tells whether it returned
    the cleanup function (it returns nothing before the flag is set).
    With the flag set, [window.gsap.registerPlugin(window.Draggable)]
    throws a TypeError, the result [None], when GSAP is not there. *)
Definition draggable_effect (w : World) : option (World * bool) :=
  if negb (librariesLoaded w) then Some (w, false)
  else if negb (gsap w) then None
  else
    h ← kill_all (draggableInstancesRef w) (heap w);
    let '(ref, h') :=
      attach_from 0 (fields (st w)) (document (tree w)) [] h in
    Some (set_drag ref h' w, true).

Definition deps_of (w : World) : Deps :=
  mkDeps (length (fields (st w))) (imageUrl (st w)) (librariesLoaded w).

(** [useEffect(..., [fields.length, meme.imageUrl, librariesLoaded])]:
    React runs the effect after the first render and after every render in
    which a dependency differs from the previous run's, calling the
    previous run's cleanup first. *)
Definition run_effect (w : World) : option World :=
  if bool_decide (lastDeps w = Some (deps_of w)) then Some w
  else
    w1 ← (if hasCleanup w then draggable_cleanup w else Some w);
    '(w2, c) ← draggable_effect w1;
    Some (set_effect (Some (deps_of w)) c w2).

(** Commit of a render: React brings the document up to date, then runs
    the effects. *)
Definition commit (w : World) : option World := run_effect (render w).

(** [memeRef.current]: the composition [div] is part of the render exactly
    when the loading screen is not shown. *)
Definition memeRef_current (w : World) : bool := librariesLoaded w.

(** *** Handlers that reach outside the React state *)

(** [handleImageUpload(e)], with [files] the value of [e.target.files]
    ([None] for a nullish one); the names stand for the File objects. *)
Definition handleImageUpload (files : option (list string)) (w : World) : World :=
  match files ≫= head with
  | None => w
  | Some file =>
      set_st (set_activeFieldId VNull (st w)) (set_readers (S (readers w)) w)
  end.

(** [reader.onloadend], with [result] the value of [reader.result]: a data
    URI, or [null] when the read failed. *)
Definition reader_onloadend (result : value) (w : World) : World :=
  set_st (set_meme {[ "imageUrl" := result ]} (st w))
         (set_readers (pred (readers w)) w).

(** The settle delay of the export, in milliseconds. *)
Definition SETTLE_DELAY : Z := 150.

(** [handleDownloadMeme()], with [html2canvas] telling whether
    [window.html2canvas] is defined. *)
Definition handleDownloadMeme (html2canvas : bool) (w : World) : World :=
  if negb html2canvas then log (ConsoleError "html2canvas not loaded" None) w
  else
    set_timers (timers w ++ [SETTLE_DELAY])
               (set_st (set_activeFieldId VNull (st w)) w).

(** The callback given to [setTimeout]. *)
Definition export_timeout (w : World) : World :=
  let w := set_timers (tail (timers w)) w in
  if negb (memeRef_current w) then w
  else set_captures (S (captures w)) (log (Html2canvasCall true VNull false) w).

(** The [then] callback of the capture, with [dataUrl] the value of
    [canvas.toDataURL("image/png")] and [now] that of [Date.now()]. *)
Definition capture_then (dataUrl : string) (now : Z) (w : World) : World :=
  log (DownloadFile ("meme-" +:+ num_to_string now +:+ ".png") dataUrl)
      (set_captures (pred (captures w)) w).

(** The [catch] callback of the capture. *)
Definition capture_catch (err : string) (w : World) : World :=
  log (ConsoleError "Canvas capture error:" (Some err))
      (set_captures (pred (captures w)) w).

(** [handleCanvasClick(e)]; [onBackground] tells whether [e.target] is the
    image or the composition [div]. *)
Definition handleCanvasClick (onBackground : bool) (w : World) : World :=
  if onBackground then set_st (set_activeFieldId VNull (st w)) w else w.

(** *** Events *)

(** What the browser delivers to the component.  [ScriptsLoaded] is the
    readiness flag of [useScriptLoader] turning true, with whether GSAP is
    defined at that moment; [DragEnd] carries [this.x] and [this.y] of the
    Draggable, whole or not. *)
Inductive event : Type :=
  | MemesFetched (memes : list obj)
  | ScriptsLoaded (gsap : bool)
  | SelectMeme (url : value)
  | RandomMeme (idx : nat)
  | AddField (now : Z)
  | FieldChange (id : value) (key : string) (v : value)
  | DeleteField (id : value)
  | ImageUpload (files : option (list string))
  | ReaderLoadEnd (result : value)
  | FieldClick (d : nat)
  | DragEnd (d : nat) (x y : value)
  | CanvasClick (onBackground : bool)
  | DownloadClick (html2canvas : bool)
  | TimeoutFire
  | CaptureResolved (dataUrl : string) (now : Z)
  | CaptureRejected (err : string).

(** A Draggable fires its callbacks only while it has not been killed. *)
Definition live (w : World) (d : nat) : bool :=
  match heap w !! d with Some i => alive i | None => false end.

(** When the browser can deliver an event: the panels, the toolbar and the
    composition exist once the loading screen is gone, a callback needs its
    pending source. *)
Definition enabled (e : event) (w : World) : bool :=
  match e with
  | MemesFetched _ => true
  | ScriptsLoaded _ => negb (librariesLoaded w)
  | RandomMeme idx =>
      librariesLoaded w &&
      bool_decide (length (allMemes (st w)) = 0 ∨ idx < length (allMemes (st w)))%nat
  | SelectMeme _ | AddField _ | FieldChange _ _ _ | DeleteField _
  | ImageUpload _ | CanvasClick _ | DownloadClick _ => librariesLoaded w
  | ReaderLoadEnd _ => bool_decide (0 < readers w)%nat
  | FieldClick d | DragEnd d _ _ => live w d
  | TimeoutFire => bool_decide (timers w ≠ [])
  | CaptureResolved _ _ | CaptureRejected _ => bool_decide (0 < captures w)%nat
  end.

(** The callback the event runs; [None] is an uncaught exception. *)
Definition handle (e : event) (w : World) : option World :=
  match e with
  | MemesFetched memes => Some (set_st (set_allMemes memes (st w)) w)
  | ScriptsLoaded g => Some (set_librariesLoaded true g w)
  | SelectMeme url => Some (set_st (handleSelectMeme url (st w)) w)
  | RandomMeme idx => s ← handleRandomMeme idx (st w); Some (set_st s w)
  | AddField now => Some (set_st (handleAddField now (st w)) w)
  | FieldChange id key v => Some (set_st (handleFieldChange id key v (st w)) w)
  | DeleteField id => Some (set_st (handleDeleteField id (st w)) w)
  | ImageUpload files => Some (handleImageUpload files w)
  | ReaderLoadEnd result => Some (reader_onloadend result w)
  | FieldClick d =>
      i ← heap w !! d;
      Some (set_st (set_activeFieldId (get (captured i) "id") (st w)) w)
  | DragEnd d x y =>
      i ← heap w !! d;
      Some (set_st (set_fields
                      (onDragEnd_update (captured i) x y (fields (st w)))
                      (st w)) w)
  | CanvasClick onBackground => Some (handleCanvasClick onBackground w)
  | DownloadClick html2canvas => Some (handleDownloadMeme html2canvas w)
  | TimeoutFire => Some (export_timeout w)
  | CaptureResolved dataUrl now => Some (capture_then dataUrl now w)
  | CaptureRejected err => Some (capture_catch err w)
  end.

(** One turn of the event loop: the callback, then the commit of the
    render it caused. *)
Definition step (e : event) (w : World) : option World :=
  if enabled e w then handle e w ≫= commit else None.

(** A run of events. *)
Fixpoint run (es : list event) (w : World) : option World :=
  match es with
  | [] => Some w
  | e :: es' => step e w ≫= run es'
  end.

(** The component before its first render is committed. *)
Definition unmounted : World :=
  mkWorld initial false false (mkTree [] [] 0) [] [] None false 0 [] 0 [].

(** The mounted component: the first commit runs the effect. *)
Definition mounted : option World := commit unmounted.

(** The states the component can be in. *)
Inductive reachable : World → Prop :=
  | reach_mount w : mounted = Some w → reachable w
  | reach_step w e w' : reachable w → step e w = Some w' → reachable w'.

(** The Draggables that have not been killed. *)
Definition live_instances (w : World) : list nat :=
  List.filter (live w) (seq 0 (length (heap w))).

(** The component right after the libraries have loaded: the two initial
    fields have their elements, and the effect has attached one behaviour
    to each. *)
Definition ready : World :=
  mkWorld initial true true
    (mkTree [mkFiber (Some "1") 0; mkFiber (Some "2") 1]
            [mkElement 0 0; mkElement 1 1] 2)
    [Some 0%nat; Some 1%nat]
    [ mkDraggable 0
        (mkField (VNum 1) "One does not simply" "Anton" "#ffffff" 40 100 50) true;
      mkDraggable 1
        (mkField (VNum 2) "Fix a bug on Friday" "Anton" "#ffffff" 40 100 300) true ]
    (Some (mkDeps 2 (VStr INITIAL_IMAGE_URL) true)) true 0 [] 0 [].

(** *** Invariants *)

(** The DOM nodes of the old children in a map, and of new children. *)
Definition map_nodes (m : list (slot * (nat * Fiber))) : list nat :=
  (λ e : slot * (nat * Fiber), fnode e.2.2) <$> m.
Definition child_nodes (cs : list Child) : list nat :=
  (λ c, fnode (fiber c)) <$> cs.

(** The map that holds every old child from index [i] on. *)
Fixpoint entries (i : nat) (old : list Fiber) : list (slot * (nat * Fiber)) :=
  match old with
  | [] => []
  | f :: old' => (slot_of (fkey f) i, (i, f)) :: entries (S i) old'
  end.

(** An entry of the map sits under the key of its child. *)
Definition slot_ok (e : slot * (nat * Fiber)) : Prop :=
  e.1 = slot_of (fkey e.2.2) e.2.1.

(** The children have distinct nodes, each child's node is in the document
    with the class of the child's index, and the nodes of the document are
    distinct and older than the next node number. *)
Definition tree_ok (t : Tree) : Prop :=
  NoDup (fnode <$> children t) ∧
  NoDup (node <$> document t) ∧
  (∀ j f, children t !! j = Some f → mkElement (fnode f) j ∈ document t) ∧
  (∀ el, el ∈ document t → (node el < next_node t)%nat).

(** What every commit establishes, whatever the ids: the effect has run
    for the current dependencies, the flag is set only with GSAP there,
    the ref holds no [undefined], and the children of the composition are
    those of the current fields. *)
Definition sound (w : World) : Prop :=
  lastDeps w = Some (deps_of w) ∧
  hasCleanup w = librariesLoaded w ∧
  (librariesLoaded w = true → gsap w = true) ∧
  Forall is_Some (draggableInstancesRef w) ∧
  tree_ok (tree w) ∧
  fkey <$> children (tree w)
  = (if librariesLoaded w then react_key <$> ids (fields (st w)) else []) ∧
  (librariesLoaded w = false → document (tree w) = []).

(** The DOM node of the child at index [j]. *)
Definition node_at (t : Tree) (j : nat) : nat :=
  default 0%nat (fnode <$> children t !! j).

(** What a commit establishes as long as the ids have been distinct and
    left alone: the document holds the elements of the children and no
    other, and the heap is a run of killed instances followed by the
    instances the ref holds, which are live and bound to the elements of
    the fields in order, one per field once the libraries are there. *)
Definition synced (w : World) : Prop :=
  sound w ∧
  (∀ el, el ∈ document (tree w) → node el ∈ fnode <$> children (tree w)) ∧
  ∃ dead attached : list Draggable,
    heap w = dead ++ attached ∧
    Forall (λ i, alive i = false) dead ∧
    draggableInstancesRef w = Some <$> seq (length dead) (length attached) ∧
    (∀ j i, attached !! j = Some i →
       alive i = true ∧ target i = node_at (tree w) j) ∧
    length attached =
      if librariesLoaded w then length (fields (st w)) else 0%nat.

End World.

(** ** The hook [useScriptLoader] *)

Module ScriptLoader.

Definition SCRIPT_URLS : list string :=
  ["https://cdnjs.cloudflare.com/ajax/libs/html2canvas/1.4.1/html2canvas.min.js";
   "https://cdnjs.cloudflare.com/ajax/libs/gsap/3.12.2/gsap.min.js";
   "https://cdnjs.cloudflare.com/ajax/libs/gsap/3.12.2/Draggable.min.js"].

(** What the browser knows about a [script] element. *)
Inductive status : Type := Loading | Loaded | Failed.

#[global] Instance status_eq_dec : EqDecision status.
Proof. solve_decision. Defined.

(** A [script] element of the document; [handler] is the promise whose
    [resolve] and [reject] its [onload] and [onerror] call, for an element
    that [loadScript] appended. *)
Record Script : Type := mkScript {
  src : string;
  status_of : status;
  handler : option nat;
}.

Inductive promise : Type :=
  | Pending
  | Fulfilled
  | Rejected (reason : string).

#[global] Instance promise_eq_dec : EqDecision promise.
Proof. solve_decision. Defined.

Record Loader : Type := mkLoader {
  (** the [script] elements of [document], in document order *)
  document : list Script;
  (** the promises of [scripts.map(loadScript)] *)
  promises : list promise;
  (** the promise of [Promise.all] *)
  all : promise;
  (** the state cell [loaded] *)
  loaded : bool;
  (** the arguments of the [console.error] calls, oldest first *)
  console : list (string * string);
}.

(** [document.querySelector(`script[src="${src}"]`)] finds an element. *)
Definition has_script (s : string) (doc : list Script) : bool :=
  bool_decide (s ∈ src <$> doc).

(** [loadScript(src)]: the promise it returns is added to [ps]. *)
Definition loadScript (s : string) (acc : list Script * list promise)
    : list Script * list promise :=
  let '(doc, ps) := acc in
  if has_script s doc then (doc, ps ++ [Fulfilled])
  else (doc ++ [mkScript s Loading (Some (length ps))], ps ++ [Pending]).

Definition is_fulfilled (p : promise) : bool :=
  match p with Fulfilled => true | _ => false end.

(** [Promise.all] fulfils once every member has; its [then] callback is
    [setLoaded(true)]. *)
Definition on_fulfil (l : Loader) : Loader :=
  match all l with
  | Pending =>
      if forallb is_fulfilled (promises l)
      then mkLoader (document l) (promises l) Fulfilled true (console l)
      else l
  | _ => l
  end.

(** [Promise.all] rejects with the first rejection; its [catch] callback
    logs. *)
Definition on_reject (reason : string) (l : Loader) : Loader :=
  match all l with
  | Pending =>
      mkLoader (document l) (promises l) (Rejected reason) (loaded l)
               (console l ++ [("Failed to load scripts:", reason)])
  | _ => l
  end.

(** [scripts.map(loadScript)] over the document and the promises so far. *)
Definition loadScripts (scripts : list string) (acc : list Script * list promise)
    : list Script * list promise :=
  fold_left (λ acc s, loadScript s acc) scripts acc.

(** A [script] element that was in the document before the hook ran. *)
Definition present (p : string * status) : Script := mkScript p.1 p.2 None.

(** The effect of the hook, run once at mount; [doc0] gives the source and
    the load status of the [script] elements already in the document. *)
Definition mount (scripts : list string) (doc0 : list (string * status)) : Loader :=
  let '(doc, ps) := loadScripts scripts (present <$> doc0, []) in
  on_fulfil (mkLoader doc ps Pending false []).

(** [resolve()] of promise [p]; a settled promise stays as it is. *)
Definition resolve (p : nat) (l : Loader) : Loader :=
  match promises l !! p with
  | Some Pending =>
      on_fulfil (mkLoader (document l) (<[p := Fulfilled]> (promises l))
                          (all l) (loaded l) (console l))
  | _ => l
  end.

(** [reject(new Error(...))] of promise [p]. *)
Definition reject (p : nat) (reason : string) (l : Loader) : Loader :=
  match promises l !! p with
  | Some Pending =>
      on_reject reason
        (mkLoader (document l) (<[p := Rejected reason]> (promises l))
                  (all l) (loaded l) (console l))
  | _ => l
  end.

Definition set_status (e : nat) (s : Script) (st : status) (l : Loader) : Loader :=
  mkLoader (<[e := mkScript (src s) st (handler s)]> (document l))
           (promises l) (all l) (loaded l) (console l).

(** The message of [new Error(`Script load error for ${src}`)]. *)
Definition load_error (s : string) : string := "Script load error for " +:+ s.

(** The browser finishes the load of the element at position [e]. *)
Inductive event : Type :=
  | OnLoad (e : nat)
  | OnError (e : nat).

Definition step (ev : event) (l : Loader) : Loader :=
  match ev with
  | OnLoad e =>
      match document l !! e with
      | Some s =>
          match status_of s with
          | Loading =>
              let l' := set_status e s Loaded l in
              match handler s with Some p => resolve p l' | None => l' end
          | _ => l
          end
      | None => l
      end
  | OnError e =>
      match document l !! e with
      | Some s =>
          match status_of s with
          | Loading =>
              let l' := set_status e s Failed l in
              match handler s with
              | Some p => reject p (load_error (src s)) l'
              | None => l'
              end
          | _ => l
          end
      | None => l
      end
  end.

Definition run (evs : list event) (l : Loader) : Loader :=
  fold_left (λ l ev, step ev l) evs l.

(** The resource [s] has loaded successfully: one of its elements has. *)
Definition loaded_ok (s : string) (doc : list Script) : Prop :=
  ∃ el, el ∈ doc ∧ src el = s ∧ status_of el = Loaded.

(** The state of the promise that an element's handlers settle. *)
Definition promise_of (s : Script) : promise :=
  match status_of s with
  | Loading => Pending
  | Loaded => Fulfilled
  | Failed => Rejected (load_error (src s))
  end.

(** Every element that [loadScript] appended has a promise of its own,
    settled exactly as the element's load ended. *)
Definition linked (doc : list Script) (ps : list promise) : Prop :=
  (∀ e s p, doc !! e = Some s → handler s = Some p → ps !! p = Some (promise_of s)) ∧
  (∀ e e' s s' p, doc !! e = Some s → doc !! e' = Some s' →
     handler s = Some p → handler s' = Some p → e = e').

(** How [Promise.all], the flag and the console stand to each other. *)
Definition joined (l : Loader) : Prop :=
  match all l with
  | Pending => loaded l = false ∧ console l = []
  | Fulfilled => forallb is_fulfilled (promises l) = true ∧ console l = []
  | Rejected r => loaded l = false ∧ console l = [("Failed to load scripts:", r)]
  end.

(** What of the document no load event changes. *)
Definition shape (doc : list Script) : list (string * option nat) :=
  (λ s, (src s, handler s)) <$> doc.

End ScriptLoader.

(** ** Sequences of addField and removeField *)

Module Ops.

(** An operation of the field store, with what it takes from outside: the
    clock reading of an add, the id given to a remove. *)
Inductive op : Type :=
  | Add (now : Z)
  | Remove (id : value).

Definition apply (o : op) (s : State) : State :=
  match o with
  | Add now => handleAddField now s
  | Remove id => handleDeleteField id s
  end.

Definition run_ops (ops : list op) (s : State) : State :=
  fold_left (λ s o, apply o s) ops s.

(** The number of adds of a sequence. *)
Fixpoint adds (ops : list op) : nat :=
  match ops with
  | [] => 0
  | Add _ :: ops' => S (adds ops')
  | Remove _ :: ops' => adds ops'
  end.

(** The number of removes of a sequence, run from [s], that find their id
    in the store. *)
Fixpoint successful_removes (ops : list op) (s : State) : nat :=
  match ops with
  | [] => 0
  | o :: ops' =>
      (match o with
       | Remove id => if bool_decide (id ∈ ids (fields s)) then 1 else 0
       | Add _ => 0
       end + successful_removes ops' (apply o s))%nat
  end.

(** Every add of the sequence, run from [s], reads a clock value that is
    the id of no field then in the store. *)
Fixpoint fresh_clock (ops : list op) (s : State) : Prop :=
  match ops with
  | [] => True
  | o :: ops' =>
      match o with
      | Add now => VNum now ∉ ids (fields s)
      | Remove _ => True
      end ∧ fresh_clock ops' (apply o s)
  end.

End Ops.

(** ** What the render reads off the state *)

Module View.

Definition FONT_OPTIONS : list string :=
  ["Anton"; "Bangers"; "Oswald"; "Luckiest Guy"; "Roboto"; "Pacifico";
   "Caveat"; "Lobster"].

(** [fields.find(f => f.id === activeFieldId)]: the field the contextual
    toolbar is rendered for; no toolbar when there is none. *)
Definition activeField (s : State) : option obj :=
  List.find (λ f, strict_eq (get f "id") (activeFieldId s)) (fields s).

(** For each rendered field, whether it gets the dashed selection border
    ([activeFieldId === field.id]). *)
Definition outlined (s : State) : list bool :=
  map (λ field, strict_eq (activeFieldId s) (get field "id")) (fields s).

(** The attribute keys the toolbar's inputs pass to [onChange]. *)
Definition toolbar_keys : list string := ["text"; "font"; "size"; "color"].

(** [f.replace(/ /g, '+')]. *)
Fixpoint replace_spaces (s : string) : string :=
  match s with
  | EmptyString => EmptyString
  | String c r =>
      String (if Ascii.eqb c " "%char then "+"%char else c) (replace_spaces r)
  end.

(** [parts.join(sep)]. *)
Fixpoint join (sep : string) (parts : list string) : string :=
  match parts with
  | [] => ""
  | [p] => p
  | p :: rest => p +:+ sep +:+ join sep rest
  end.

(** The [href] of the fonts stylesheet in [GoogleAssetsLoader]. *)
Definition fonts_href (fonts : list string) : string :=
  "https://fonts.googleapis.com/css2?"
  +:+ join "&" (map (λ f, "family=" +:+ replace_spaces f +:+ ":wght@400;700;900")
                    fonts)
  +:+ "&display=swap".


End View.

(** ** The loader's bookkeeping *)

Module Loading.

Import ScriptLoader.

(** The source and load status of every [script] element, as a later run
    of the hook finds the document. *)
Definition snapshot (doc : list Script) : list (string * status) :=
  (λ el, (src el, status_of el)) <$> doc.

(** Every promise of [scripts.map(loadScript)] is fulfilled or belongs to an
    element that [loadScript] appended. *)
Definition owned (doc : list Script) (ps : list promise) : Prop :=
  ∀ p x, ps !! p = Some x →
    x = Fulfilled ∨ ∃ e el, doc !! e = Some el ∧ handler el = Some p.

(** [Promise.all] has settled as soon as it could. *)
Definition prompt (l : Loader) : Prop :=
  (all l = Fulfilled → loaded l = true) ∧
  (all l = Pending → forallb is_fulfilled (promises l) = false) ∧
  (∀ r, all l = Rejected r → ∃ p r', promises l !! p = Some (Rejected r')).

End Loading.

(** ** Runs driven by the rendered interface *)

Module Ui.

Import World View.

(** The events as the rendered interface produces them: the toolbar calls
    [onChange] with one of its four keys only. *)
Definition from_ui (e : event) : bool :=
  match e with
  | FieldChange _ key _ => bool_decide (key ∈ toolbar_keys)
  | _ => true
  end.

(** The clock reading of an add is the id of no field in the store. *)
Definition fresh_add (e : event) (w : World) : bool :=
  match e with
  | AddField now => bool_decide (VNum now ∉ ids (fields (st w)))
  | _ => true
  end.

(** The states reached through the events of the interface when every add
    reads a fresh clock value. *)
Inductive ui_reachable : World → Prop :=
  | ui_mount w : mounted = Some w → ui_reachable w
  | ui_step w e w' :
      ui_reachable w → from_ui e = true → fresh_add e w = true →
      step e w = Some w' → ui_reachable w'.

(** The closure of every attached behaviour holds the id of the field that
    is rendered at the behaviour's element. *)
Definition snapshots_current (w : World) : Prop :=
  ∀ k d i, draggableInstancesRef w !! k = Some (Some d) → heap w !! d = Some i →
    ∃ F, fields (st w) !! k = Some F ∧ get F "id" = get (captured i) "id".

(** The active field id is none or the id of a field of the store. *)
Definition selection_valid (s : State) : Prop :=
  activeFieldId s = VNull ∨ activeFieldId s ∈ ids (fields s).

(** The value is a number. *)
Definition is_number (v : value) : Prop := ∃ n, v = VNum n.

(** The field object has every property a field is created with. *)
Definition complete (f : obj) : Prop :=
  ∀ k, k ∈ "id" :: known_attributes → is_Some (f !! k).

(** The events whose callback can change a dependency of the Draggable
    effect: the number of fields, the background, the readiness flag. *)
Definition structural (e : event) : bool :=
  match e with
  | ScriptsLoaded _ | SelectMeme _ | RandomMeme _ | AddField _ | DeleteField _
  | ReaderLoadEnd _ => true
  | _ => false
  end.

(** Counting in the output trace and in a run. *)
Definition is_capture (o : Output) : bool :=
  match o with Html2canvasCall _ _ _ => true | _ => false end.
Definition is_download (o : Output) : bool :=
  match o with DownloadFile _ _ => true | _ => false end.
Definition is_capture_error (o : Output) : bool :=
  match o with ConsoleError "Canvas capture error:" _ => true | _ => false end.
Definition is_export_click (e : event) : bool :=
  match e with DownloadClick true => true | _ => false end.
Definition count {A} (f : A → bool) (l : list A) : nat := length (List.filter f l).

End Ui.

(** * Properties *)

Import World.

(** ** Strict equality *)

Lemma strict_eq_true a b : strict_eq a b = true ↔ a = b.
Proof. unfold strict_eq. apply bool_decide_eq_true. Qed.

Lemma strict_eq_false a b : strict_eq a b = false ↔ a ≠ b.
Proof. unfold strict_eq. apply bool_decide_eq_false. Qed.

Lemma strict_eq_refl a : strict_eq a a = true.
Proof. by apply strict_eq_true. Qed.

Lemma strict_ne_true a b : strict_ne a b = true ↔ a ≠ b.
Proof. unfold strict_ne. rewrite negb_true_iff. apply strict_eq_false. Qed.

Lemma strict_ne_false a b : strict_ne a b = false ↔ a = b.
Proof. unfold strict_ne. rewrite negb_false_iff. apply strict_eq_true. Qed.

Lemma get_spread_set_eq o k v : get (spread_set o k v) k = v.
Proof. unfold get, spread_set. by rewrite lookup_insert_eq. Qed.

Lemma get_spread_set_ne o k k' v : k ≠ k' → get (spread_set o k v) k' = get o k'.
Proof. intros H. unfold get, spread_set. by rewrite lookup_insert_ne. Qed.

(** ** updateField *)

Section UpdateField.

Lemma handleFieldChange_fields id key v s :
  fields (handleFieldChange id key v s) =
  map (λ field, if strict_eq (get field "id") id
                then <[key := v]> field else field) (fields s).
Proof. reflexivity. Qed.

Lemma handleFieldChange_lookup id key v s i :
  fields (handleFieldChange id key v s) !! i =
  (λ field, if strict_eq (get field "id") id
            then <[key := v]> field else field) <$> fields s !! i.
Proof. rewrite handleFieldChange_fields. apply list_lookup_fmap. Qed.

(** C1, as stated, fails: on the initial store, where the field with id 1
    is present, [updateField(1, "rotation", 5)] with the unknown attribute
    key ["rotation"] yields a different store. *)
Lemma updateField_unknown_key_changes_store :
  (VNum 1 ∈ ids (fields initial)) ∧
  ("rotation" ∉ known_attributes) ∧
  handleFieldChange (VNum 1) "rotation" (VNum 5) initial ≠ initial.
Proof.
  split; [|split].
  - simpl. apply elem_of_cons. by left.
  - unfold known_attributes. intros H.
    repeat (apply elem_of_cons in H as [H|H]; [discriminate H|]).
    by apply not_elem_of_nil in H.
  - intros Heq.
    apply (f_equal (λ st, (λ o : obj, o !! "rotation") <$> fields st !! 0%nat)) in Heq.
    vm_compute in Heq. discriminate Heq.
Qed.

(** C1, amended: [updateField(id, key, value)] with a key outside the
    known attributes keeps the number of fields and the active field id,
    leaves every field with another id as it is, and on every field whose
    id matches stores [value] under [key] (a new property when the field
    has none of that name) while every other property of that field, its
    known attributes among them, keeps its value. *)
Theorem updateField_unknown_key (s : State) (id : value) (key : string) (v : value) :
  key ∉ known_attributes →
  let s' := handleFieldChange id key v s in
  activeFieldId s' = activeFieldId s ∧
  meme s' = meme s ∧
  length (fields s') = length (fields s) ∧
  ∀ (i : nat) (f : obj), fields s !! i = Some f →
    ∃ f' : obj, fields s' !! i = Some f' ∧
      (∀ k, k ∈ known_attributes → f' !! k = f !! k) ∧
      (get f "id" ≠ id → f' = f) ∧
      (get f "id" = id →
         f' !! key = Some v ∧ (∀ k, k ≠ key → f' !! k = f !! k) ∧
         (f !! key ≠ Some v → f' ≠ f)).
Proof.
  intros Hkey s'. subst s'. repeat split.
  - rewrite handleFieldChange_fields. by rewrite length_map.
  - intros i f Hf. rewrite handleFieldChange_lookup, Hf. simpl.
    destruct (strict_eq (get f "id") id) eqn:E.
    + apply strict_eq_true in E. eexists. split; [reflexivity|].
      split; [|split].
      * intros k Hk. apply lookup_insert_ne. intros ->. by apply Hkey.
      * intros Hne. by destruct Hne.
      * intros _. split; [apply lookup_insert_eq|]. split.
        -- intros k Hk. by apply lookup_insert_ne.
        -- intros Hn Heq. apply Hn. rewrite <- Heq. apply lookup_insert_eq.
    + apply strict_eq_false in E. exists f. split; [reflexivity|].
      split; [done|]. split; [done|]. intros Heq. by destruct E.
Qed.

Lemma updateField_unknown_key_witness :
  ("rotation" ∉ known_attributes) ∧
  activeFieldId (handleFieldChange (VNum 1) "rotation" (VNum 5) initial)
  = activeFieldId initial.
Proof.
  assert (H : "rotation" ∉ known_attributes).
  { unfold known_attributes. intros H.
    repeat (apply elem_of_cons in H as [H|H]; [discriminate H|]).
    by apply not_elem_of_nil in H. }
  split; [exact H|].
  exact (proj1 (updateField_unknown_key initial (VNum 1) "rotation" (VNum 5) H)).
Defined.

End UpdateField.

(** ** removeField *)

Section RemoveField.

Lemma handleDeleteField_fields id s :
  fields (handleDeleteField id s) =
  List.filter (λ field, strict_ne (get field "id") id) (fields s).
Proof. unfold handleDeleteField. by destruct (strict_eq _ _). Qed.

Lemma handleDeleteField_active id s :
  activeFieldId (handleDeleteField id s) =
  if strict_eq (activeFieldId s) id then VNull else activeFieldId s.
Proof. unfold handleDeleteField. by destruct (strict_eq _ _). Qed.

Lemma handleDeleteField_meme id s :
  meme (handleDeleteField id s) = meme s ∧
  allMemes (handleDeleteField id s) = allMemes s.
Proof. unfold handleDeleteField. by destruct (strict_eq _ _). Qed.

Lemma elem_of_keep id (fs : list obj) (f : obj) :
  f ∈ List.filter (λ field, strict_ne (get field "id") id) fs ↔
  f ∈ fs ∧ get f "id" ≠ id.
Proof.
  rewrite !list_elem_of_In, filter_In. by rewrite strict_ne_true.
Qed.

Lemma keep_sublist id (fs : list obj) :
  sublist (List.filter (λ field, strict_ne (get field "id") id) fs) fs.
Proof.
  induction fs as [|f fs IH]; simpl; [constructor|].
  destruct (strict_ne _ _); by constructor.
Qed.

Lemma keep_absent id (fs : list obj) :
  id ∉ ids fs →
  List.filter (λ field, strict_ne (get field "id") id) fs = fs.
Proof.
  induction fs as [|f fs IH]; simpl; [done|].
  intros Hn. apply not_elem_of_cons in Hn as [Hne Hn].
  destruct (strict_ne (get f "id") id) eqn:E.
  - by rewrite IH.
  - apply strict_ne_false in E. by destruct Hne.
Qed.

Lemma keep_removes_all id (fs : list obj) :
  id ∉ ids (List.filter (λ field, strict_ne (get field "id") id) fs).
Proof.
  unfold ids. intros H. apply list_elem_of_fmap in H as (f & Hid & Hf).
  apply elem_of_keep in Hf as [_ Hne]. by destruct Hne.
Qed.

(** C6: [removeField(id)] keeps, in their order, exactly the fields whose
    id is not [id], so no field with that id is left; afterwards the active
    field id is none if [id] was the active one and is as before
    otherwise.  Nothing else of the state changes. *)
Theorem removeField_deletes_and_deactivates (s : State) (id : value) :
  let s' := handleDeleteField id s in
  (∀ f : obj, f ∈ fields s' ↔ f ∈ fields s ∧ get f "id" ≠ id) ∧
  sublist (fields s') (fields s) ∧
  (id ∉ ids (fields s')) ∧
  (activeFieldId s = id → activeFieldId s' = VNull) ∧
  (activeFieldId s ≠ id → activeFieldId s' = activeFieldId s) ∧
  meme s' = meme s ∧ allMemes s' = allMemes s.
Proof.
  intros s'. subst s'.
  rewrite handleDeleteField_fields, handleDeleteField_active.
  split_and!; try (by apply handleDeleteField_meme).
  - intros f. apply elem_of_keep.
  - apply keep_sublist.
  - apply keep_removes_all.
  - intros ->. by rewrite strict_eq_refl.
  - intros Hne. apply strict_eq_false in Hne. by rewrite Hne.
Qed.

(** C9: [removeField] is a total function of the store and the id; it
    removes every field whose id matches, and those only: the fields with
    another id are all kept, as often as they occur and in their order; a
    second application changes nothing more, and with an id that no field
    has the field list is left as it is. *)
Theorem removeField_idempotent_total (s : State) (id : value) :
  (∀ f : obj, f ∈ fields s → get f "id" = id →
     f ∉ fields (handleDeleteField id s)) ∧
  (∀ f : obj, f ∈ fields s → get f "id" ≠ id →
     f ∈ fields (handleDeleteField id s)) ∧
  (∀ f : obj, f ∈ fields (handleDeleteField id s) → f ∈ fields s) ∧
  fields (handleDeleteField id s)
  = List.filter (λ f, bool_decide (get f "id" ≠ id)) (fields s) ∧
  sublist (fields (handleDeleteField id s)) (fields s) ∧
  handleDeleteField id (handleDeleteField id s) = handleDeleteField id s ∧
  (id ∉ ids (fields s) → fields (handleDeleteField id s) = fields s).
Proof.
  split_and!.
  - intros f _ Hid Hin. rewrite handleDeleteField_fields in Hin.
    apply elem_of_keep in Hin as [_ Hne]. by destruct Hne.
  - intros f Hin Hne. rewrite handleDeleteField_fields. by apply elem_of_keep.
  - intros f Hin. rewrite handleDeleteField_fields in Hin.
    by apply elem_of_keep in Hin as [Hin _].
  - rewrite handleDeleteField_fields. apply List.filter_ext. intros f.
    unfold strict_ne, strict_eq. by rewrite bool_decide_not.
  - rewrite handleDeleteField_fields. apply keep_sublist.
  - destruct s as [ms m fs a].
    assert (Hf : List.filter (λ field, strict_ne (get field "id") id)
                   (List.filter (λ field, strict_ne (get field "id") id) fs)
                 = List.filter (λ field, strict_ne (get field "id") id) fs).
    { apply keep_absent, keep_removes_all. }
    unfold handleDeleteField. simpl.
    destruct (strict_eq a id) eqn:E; simpl.
    + destruct (strict_eq VNull id); unfold set_activeFieldId, set_fields; simpl;
        by rewrite Hf.
    + rewrite E. unfold set_fields; simpl. by rewrite Hf.
  - intros Hn. rewrite handleDeleteField_fields. by apply keep_absent.
Qed.

End RemoveField.

(** ** Sequences of addField and removeField *)

Section AddRemove.

Import Ops.

Lemma get_mkField_id id text font color size x y :
  get (mkField id text font color size x y) "id" = id.
Proof. unfold get, mkField. by rewrite lookup_insert_eq. Qed.

Lemma handleAddField_fields now s :
  fields (handleAddField now s) =
  fields s ++ [mkField (VNum now) "New Text" "Anton" "#ffffff" 40 150 150].
Proof. reflexivity. Qed.

Lemma handleAddField_ids now s :
  ids (fields (handleAddField now s)) = ids (fields s) ++ [VNum now].
Proof.
  rewrite handleAddField_fields. unfold ids. rewrite map_app. simpl.
  by rewrite get_mkField_id.
Qed.

Lemma handleAddField_active now s :
  activeFieldId (handleAddField now s) = VNum now.
Proof. unfold handleAddField. simpl. apply get_mkField_id. Qed.

Lemma ids_keep_sublist id (fs : list obj) :
  sublist (ids (List.filter (λ field, strict_ne (get field "id") id) fs)) (ids fs).
Proof.
  induction fs as [|f fs IH]; simpl; [constructor|].
  destruct (strict_ne _ _); simpl; by constructor.
Qed.

(** With distinct ids a remove that finds its id deletes one field. *)
Lemma keep_present_length id (fs : list obj) :
  NoDup (ids fs) → id ∈ ids fs →
  S (length (List.filter (λ field, strict_ne (get field "id") id) fs)) = length fs.
Proof.
  induction fs as [|f fs IH]; simpl.
  - intros _ H. by apply elem_of_nil in H.
  - intros Hnd Hin. apply NoDup_cons in Hnd as [Hf Hnd].
    destruct (strict_ne (get f "id") id) eqn:E; simpl.
    + apply strict_ne_true in E. apply elem_of_cons in Hin as [->|Hin]; [done|].
      by rewrite IH.
    + apply strict_ne_false in E. subst id. by rewrite keep_absent.
Qed.

Lemma run_ops_cons o ops s : run_ops (o :: ops) s = run_ops ops (apply o s).
Proof. reflexivity. Qed.

Lemma fresh_clock_prefix pre suf s : fresh_clock (pre ++ suf) s → fresh_clock pre s.
Proof.
  revert s. induction pre as [|o pre IH]; simpl; [done|].
  intros s [H1 H2]. split; [done|]. by apply IH.
Qed.

(** The accounting of one run, from any store with distinct ids. *)
Lemma run_ops_fresh ops : ∀ s,
  NoDup (ids (fields s)) → fresh_clock ops s →
  (length (fields (run_ops ops s)) + successful_removes ops s
   = length (fields s) + adds ops)%nat ∧
  NoDup (ids (fields (run_ops ops s))).
Proof.
  induction ops as [|o ops IH]; intros s Hnd Hfresh.
  - simpl. split; [lia|done].
  - destruct Hfresh as [Ho Hfresh]. rewrite run_ops_cons.
    destruct o as [now|id]; simpl in *.
    + destruct (IH (handleAddField now s)) as [Hlen Hnd']; [|done|].
      { rewrite handleAddField_ids. apply NoDup_app. split_and!; [done| |].
        - intros x Hx Hx'. apply elem_of_cons in Hx' as [->|Hx']; [done|].
          by apply elem_of_nil in Hx'.
        - apply NoDup_singleton. }
      split; [|done]. rewrite Hlen, handleAddField_fields, length_app. simpl. lia.
    + destruct (IH (handleDeleteField id s)) as [Hlen Hnd']; [|done|].
      { rewrite handleDeleteField_fields.
        eapply sublist_NoDup; [done|apply ids_keep_sublist]. }
      split; [|done].
      rewrite handleDeleteField_fields in Hlen.
      case_bool_decide as Hin.
      * pose proof (keep_present_length id (fields s) Hnd Hin). lia.
      * rewrite (keep_absent id (fields s) Hin) in Hlen. lia.
Qed.

Lemma initial_ids_NoDup : NoDup (ids (fields initial)).
Proof.
  change (ids (fields initial)) with
    [get (mkField (VNum 1) "One does not simply" "Anton" "#ffffff" 40 100 50) "id";
     get (mkField (VNum 2) "Fix a bug on Friday" "Anton" "#ffffff" 40 100 300) "id"].
  rewrite !get_mkField_id.
  apply NoDup_cons. split; [|apply NoDup_singleton].
  intros H. apply elem_of_cons in H as [H|H]; [discriminate H|].
  by apply elem_of_nil in H.
Qed.

(** C2: the field store does not keep its ids pairwise distinct, nor its
    size equal to the initial size plus adds minus successful removes.
    [handleAddField] takes the id of the new field from [Date.now()] and
    from nothing else: after two adds that read the same clock value the
    store holds two fields with one id, so the ids are not pairwise
    distinct, and the one remove of that id then deletes both fields, so
    the size, 2, is not the initial size plus the adds minus the removes
    that found their id, 2 + 2 - 1 = 3. *)
Lemma add_twice_same_clock_breaks_accounting :
  let ops := [Add 1700000000000; Add 1700000000000; Remove (VNum 1700000000000)] in
  ¬ NoDup (ids (fields (run_ops (take 2 ops) initial))) ∧
  length (fields (run_ops ops initial))
  ≠ (length (fields initial) + adds ops - successful_removes ops initial)%nat.
Proof.
  split.
  - intros H.
    assert (E : ids (fields (run_ops
                  (take 2 [Add 1700000000000; Add 1700000000000;
                           Remove (VNum 1700000000000)]) initial))
                = [VNum 1; VNum 2; VNum 1700000000000; VNum 1700000000000])
      by (vm_compute; reflexivity).
    rewrite E in H.
    apply NoDup_cons in H as [_ H]. apply NoDup_cons in H as [_ H].
    apply NoDup_cons in H as [H _]. apply H. apply elem_of_cons. by left.
  - vm_compute. discriminate.
Qed.

(** X17: as long as every add reads a clock value that is the id of no
    field then in the store, the accounting holds: for every such sequence
    of addField and removeField from the initial two-field state, after
    every step the store's size is the initial size plus the adds minus
    the removes that found their id, and the field ids are pairwise
    distinct. *)
Theorem add_remove_accounting (ops : list op) :
  fresh_clock ops initial →
  ∀ pre suf : list op, ops = pre ++ suf →
    length (fields (run_ops pre initial))
    = (length (fields initial) + adds pre - successful_removes pre initial)%nat ∧
    (successful_removes pre initial ≤ length (fields initial) + adds pre)%nat ∧
    NoDup (ids (fields (run_ops pre initial))).
Proof.
  intros Hfresh pre suf ->. apply fresh_clock_prefix in Hfresh.
  destruct (run_ops_fresh pre initial initial_ids_NoDup Hfresh) as [Hlen Hnd].
  split_and!; [lia|lia|done].
Qed.

Lemma add_remove_accounting_witness :
  let ops := [Add 1700000000000; Add 1700000000001; Remove (VNum 1); Remove (VNum 7)] in
  fresh_clock ops initial ∧
  length (fields (run_ops ops initial)) = 3%nat ∧
  NoDup (ids (fields (run_ops ops initial))).
Proof.
  assert (Hfresh : fresh_clock
            [Add 1700000000000; Add 1700000000001; Remove (VNum 1); Remove (VNum 7)]
            initial).
  { simpl. split_and!; try exact I.
    - apply (bool_decide_unpack _). vm_compute. reflexivity.
    - apply (bool_decide_unpack _). vm_compute. reflexivity. }
  split; [exact Hfresh|].
  destruct (add_remove_accounting _ Hfresh
              [Add 1700000000000; Add 1700000000001; Remove (VNum 1); Remove (VNum 7)]
              [] (eq_sym (app_nil_r _))) as (Hlen & _ & Hnd).
  split; [|exact Hnd].
  rewrite Hlen. vm_compute. reflexivity.
Defined.

End AddRemove.


(** ** Drag release *)

Section DragRelease.

Lemma onDragEnd_update_lookup captured x y (fs : list obj) (j : nat) :
  onDragEnd_update captured x y fs !! j =
  (λ item, if strict_eq (get item "id") (get captured "id")
           then spread_set (spread_set item "x" x) "y" y else item) <$> fs !! j.
Proof. unfold onDragEnd_update. apply list_lookup_fmap. Qed.

(** Whatever the ids, drag release leaves the records with another id. *)
Lemma onDragEnd_update_other captured x y (fs : list obj) (j : nat) (G : obj) :
  fs !! j = Some G → get G "id" ≠ get captured "id" →
  onDragEnd_update captured x y fs !! j = Some G.
Proof.
  intros HG Hne. rewrite onDragEnd_update_lookup, HG. simpl.
  apply strict_eq_false in Hne. by rewrite Hne.
Qed.

(** C8: the release handler does not single out the field F of its
    behaviour.  It rewrites every item whose id equals the id captured at
    attach time, and the ids, taken from [Date.now()], can collide: after
    two adds at one clock value the store holds two fields with one id;
    the behaviours are rebuilt, and the release of the one attached to the
    first of the two (the Draggable at address 7, live, bound to the third
    field element and closed over the field at position 2) also moves the
    field at position 3. *)
Lemma drag_release_moves_field_with_same_id :
  let t := 1700000000000 in
  let before := mounted ≫= World.run [ScriptsLoaded true; AddField t; AddField t] in
  let after := before ≫= step (DragEnd 7 (VNum 10) (VNum 20)) in
  (λ w, ids (fields (st w))) <$> before
  = Some [VNum 1; VNum 2; VNum t; VNum t] ∧
  (λ w, (λ i, (alive i, target i, get (captured i) "id")) <$> heap w !! 7%nat)
    <$> before
  = Some (Some (true, 2%nat, VNum t)) ∧
  (λ w, (λ el, (node el, index_class el)) <$> document (tree w)) <$> before
  = Some [(0, 0); (1, 1); (2, 2); (3, 3)]%nat ∧
  (λ w, (λ f, (get f "x", get f "y")) <$> fields (st w)) <$> before
  = Some [(VNum 100, VNum 50); (VNum 100, VNum 300);
          (VNum 150, VNum 150); (VNum 150, VNum 150)] ∧
  (λ w, (λ f, (get f "x", get f "y")) <$> fields (st w)) <$> after
  = Some [(VNum 100, VNum 50); (VNum 100, VNum 300);
          (VNum 10, VNum 20); (VNum 10, VNum 20)].
Proof. cbv zeta. split_and!; vm_compute; reflexivity. Qed.

(** X18: when no other field of the store has F's id, the release handler
    of a behaviour whose closure holds F's id sets F's stored [x] and [y]
    to the behaviour's final offsets, whole or fractional, leaves every
    other property of F and every other field's record as they are, and
    changes neither the active field id nor the background. *)
Theorem drag_release_updates_only_F
    (w : World) (d : nat) (inst : Draggable) (x y : value) (i : nat) (F : obj) :
  heap w !! d = Some inst →
  fields (st w) !! i = Some F →
  get F "id" = get (captured inst) "id" →
  (∀ j G, j ≠ i → fields (st w) !! j = Some G → get G "id" ≠ get F "id") →
  ∃ w' F',
    handle (DragEnd d x y) w = Some w' ∧
    length (fields (st w')) = length (fields (st w)) ∧
    fields (st w') !! i = Some F' ∧
    get F' "x" = x ∧ get F' "y" = y ∧
    (∀ k, k ≠ "x" → k ≠ "y" → F' !! k = F !! k) ∧
    (∀ j G, j ≠ i → fields (st w) !! j = Some G → fields (st w') !! j = Some G) ∧
    activeFieldId (st w') = activeFieldId (st w) ∧
    meme (st w') = meme (st w).
Proof.
  intros Hd HF Hid Hother. simpl. rewrite Hd. simpl.
  eexists _, (spread_set (spread_set F "x" x) "y" y).
  split; [reflexivity|]. simpl. split_and!; try reflexivity.
  - unfold onDragEnd_update. by rewrite length_map.
  - rewrite onDragEnd_update_lookup, HF. simpl.
    apply strict_eq_true in Hid. by rewrite Hid.
  - rewrite get_spread_set_ne by done. apply get_spread_set_eq.
  - apply get_spread_set_eq.
  - intros k Hx Hy. unfold spread_set.
    rewrite lookup_insert_ne by done. by rewrite lookup_insert_ne.
  - intros j G Hj HG. apply onDragEnd_update_other; [done|].
    rewrite <- Hid. by apply (Hother j G).
Qed.

Lemma drag_release_updates_only_F_witness :
  let F1 := mkField (VNum 1) "One does not simply" "Anton" "#ffffff" 40 100 50 in
  let F2 := mkField (VNum 2) "Fix a bug on Friday" "Anton" "#ffffff" 40 100 300 in
  heap ready !! 1%nat = Some (mkDraggable 1 F2 true) ∧
  fields (st ready) !! 1%nat = Some F2 ∧
  ∃ w' F',
    handle (DragEnd 1 (VFrac "10.5") (VNum 20)) ready = Some w' ∧
    fields (st w') !! 1%nat = Some F' ∧
    get F' "x" = VFrac "10.5" ∧ get F' "y" = VNum 20 ∧
    fields (st w') !! 0%nat = Some F1.
Proof.
  intros F1 F2. split; [reflexivity|]. split; [reflexivity|].
  assert (Hother : ∀ j G, j ≠ 1%nat → fields (st ready) !! j = Some G →
                          get G "id" ≠ get F2 "id").
  { intros [|[|j]] G Hj HG; [|done|done].
    injection HG as <-. unfold F2. rewrite !get_mkField_id. discriminate. }
  destruct (drag_release_updates_only_F ready 1 (mkDraggable 1 F2 true)
              (VFrac "10.5") (VNum 20) 1 F2 eq_refl eq_refl eq_refl Hother)
    as (w' & F' & H1 & _ & H3 & H4 & H5 & _ & H7 & _).
  exists w', F'. split_and!; try assumption.
  apply (H7 0%nat F1); [discriminate|reflexivity].
Defined.

End DragRelease.

(** ** React's reconciliation of the field elements *)

Section Reconciliation.

Lemma update_slots_spec (old : list Fiber) : ∀ keys pre old' keys',
  update_slots old keys = (pre, old', keys') →
  ∃ m, pre = (λ f, mkChild f true false) <$> take m old ∧
       old' = drop m old ∧ keys' = drop m keys ∧
       fkey <$> take m old = take m keys ∧
       (m ≤ length old)%nat ∧ (m ≤ length keys)%nat.
Proof.
  induction old as [|f old IH]; intros keys pre old' keys' H.
  - simpl in H. injection H as <- <- <-. exists 0%nat. simpl.
    rewrite take_0. split_and!; try done; lia.
  - destruct keys as [|k keys].
    + simpl in H. injection H as <- <- <-. exists 0%nat. simpl. split_and!; try done; lia.
    + simpl in H. case_bool_decide as Hk.
      * destruct (update_slots old keys) as [[cs o] ks] eqn:E.
        injection H as <- <- <-.
        destruct (IH keys cs o ks E) as (m & -> & -> & -> & Hkeys & H1 & H2).
        exists (S m). split_and!; [done|done|done| |simpl; lia|simpl; lia].
        simpl. f_equal; [exact Hk|exact Hkeys].
      * injection H as <- <- <-. exists 0%nat. simpl. split_and!; try done; lia.
Qed.

Lemma update_slots_same (old : list Fiber) :
  update_slots old (fkey <$> old) = ((λ f, mkChild f true false) <$> old, [], []).
Proof.
  induction old as [|f old IH]; [done|]. rewrite !fmap_cons. cbn [update_slots].
  rewrite bool_decide_eq_true_2 by done. by rewrite IH.
Qed.

(** *** The map of the old children *)

Lemma elem_of_map_set k v m e :
  e ∈ map_set k v m → e = (k, v) ∨ e ∈ m.
Proof.
  induction m as [|x m IH]; simpl.
  - intros H. apply list_elem_of_singleton in H. by left.
  - case_bool_decide as Hb.
    + intros H. apply elem_of_cons in H as [->|H]; [by left|].
      right. apply elem_of_cons. by right.
    + intros H. apply elem_of_cons in H as [->|H].
      * right. apply elem_of_cons. by left.
      * destruct (IH H) as [->|H']; [by left|]. right. apply elem_of_cons. by right.
Qed.

Lemma map_set_fresh k v m :
  k ∉ m.*1 → map_set k v m = m ++ [(k, v)].
Proof.
  induction m as [|x m IH]; simpl; [done|].
  intros H. apply not_elem_of_cons in H as [H1 H2].
  rewrite bool_decide_eq_false_2 by done. by rewrite IH.
Qed.

Lemma map_set_nodes k v m :
  NoDup (map_nodes m) → fnode v.2 ∉ map_nodes m →
  NoDup (map_nodes (map_set k v m)).
Proof.
  unfold map_nodes. induction m as [|x m IH]; simpl; intros Hnd Hv.
  - apply NoDup_singleton.
  - apply NoDup_cons in Hnd as [Hx Hnd]. apply not_elem_of_cons in Hv as [Hv1 Hv2].
    case_bool_decide; simpl.
    + apply NoDup_cons. by split.
    + apply NoDup_cons. split; [|by apply IH].
      intros Hin. apply list_elem_of_fmap in Hin as (e & He & Hin).
      apply elem_of_map_set in Hin as [->|Hin].
      * simpl in He. congruence.
      * apply Hx. apply list_elem_of_fmap. by exists e.
Qed.

Lemma elem_of_entries i old e :
  e ∈ entries i old → slot_ok e ∧ (i ≤ e.2.1)%nat ∧ e.2.2 ∈ old.
Proof.
  revert i. induction old as [|f old IH]; intros i H; simpl in H.
  - by apply elem_of_nil in H.
  - apply elem_of_cons in H as [->|H].
    + simpl. split_and!; [done|lia|]. apply elem_of_cons. by left.
    + destruct (IH _ H) as (H1 & H2 & H3). split_and!; [done|lia|].
      apply elem_of_cons. by right.
Qed.

Lemma entries_fibers i old : (λ e : slot * (nat * Fiber), e.2.2) <$> entries i old = old.
Proof.
  revert i. induction old as [|f old IH]; intros i; simpl; [done|]. by rewrite IH.
Qed.

Lemma entries_slots_NoDup old : ∀ i,
  NoDup (omap fkey old) → NoDup (entries i old).*1.
Proof.
  induction old as [|f old IH]; intros i Hnd; simpl; [apply NoDup_nil_2|].
  apply NoDup_cons. split.
  - intros Hin. apply list_elem_of_fmap in Hin as (e & He & Hin).
    destruct (elem_of_entries _ _ _ Hin) as (Hok & Hi & Hf).
    unfold slot_ok in Hok. rewrite Hok in He.
    simpl in Hnd. destruct (fkey f) as [s|] eqn:Ef; simpl in *.
    + destruct (fkey e.2.2) as [s'|] eqn:Ee; simpl in He; [|discriminate].
      injection He as ->. apply NoDup_cons in Hnd as [Hn _]. apply Hn.
      apply list_elem_of_omap. by exists e.2.2.
    + destruct (fkey e.2.2); simpl in He; [discriminate|]. injection He as He. lia.
  - apply IH. simpl in Hnd. destruct (fkey f); [|done].
    by apply NoDup_cons in Hnd as [_ Hnd].
Qed.

Lemma mapRemainingChildren_fresh old : ∀ i m,
  NoDup (m.*1 ++ (entries i old).*1) →
  mapRemainingChildren i old m = m ++ entries i old.
Proof.
  induction old as [|f old IH]; intros i m Hnd; simpl.
  - by rewrite app_nil_r.
  - simpl in Hnd. rewrite map_set_fresh.
    + rewrite IH; [by rewrite <- app_assoc|].
      rewrite fmap_app. simpl. by rewrite <- app_assoc.
    + apply NoDup_app in Hnd as (_ & Hd & _). intros Hin.
      apply (Hd _ Hin). apply elem_of_cons. by left.
Qed.

Lemma mapRemainingChildren_spec old : ∀ i m,
  Forall slot_ok m →
  NoDup (map_nodes m ++ (fnode <$> old)) →
  let m' := mapRemainingChildren i old m in
  Forall slot_ok m' ∧ NoDup (map_nodes m') ∧
  ∀ e, e ∈ m' → e ∈ m ∨ e.2.2 ∈ old.
Proof.
  induction old as [|f old IH]; intros i m Hok Hnd; simpl.
  - rewrite app_nil_r in Hnd. split_and!; [done..|]. intros e He. by left.
  - simpl in Hnd. apply NoDup_app in Hnd as (Hm & Hd & Hold).
    apply NoDup_cons in Hold as [Hf Hold].
    assert (Hfm : fnode f ∉ map_nodes m).
    { intros Hin. apply (Hd _ Hin). apply elem_of_cons. by left. }
    destruct (IH (S i) (map_set (slot_of (fkey f) i) (i, f) m)) as (H1 & H2 & H3).
    + apply Forall_forall. intros e He. apply elem_of_map_set in He as [->|He].
      * done.
      * rewrite Forall_forall in Hok. by apply Hok.
    + apply NoDup_app. split_and!; [by apply map_set_nodes| |done].
      intros x Hx Hx'. apply list_elem_of_fmap in Hx as (e & -> & He).
      apply elem_of_map_set in He as [->|He]; [done|].
      apply (Hd (fnode e.2.2)).
      * apply list_elem_of_fmap. by exists e.
      * apply elem_of_cons. by right.
    + split_and!; [done..|]. intros e He. destruct (H3 e He) as [He'|He'].
      * apply elem_of_map_set in He' as [->|He']; [|by left].
        right. apply elem_of_cons. by left.
      * right. apply elem_of_cons. by right.
Qed.

Lemma map_get_Some k m v :
  map_get k m = Some v → (k, v) ∈ m ∧ m ≡ₚ (k, v) :: map_delete k m.
Proof.
  unfold map_get. induction m as [|e m IH]; simpl; [done|].
  case_bool_decide as He.
  - intros [= <-]. destruct e as [k' v']. simpl in *. subst k'.
    split; [apply elem_of_cons; by left|done].
  - intros H. destruct (IH H) as [H1 H2]. split; [apply elem_of_cons; by right|].
    rewrite H2 at 1. apply Permutation_swap.
Qed.

(** *** The last loop *)

Lemma update_from_map_spec keys : ∀ j m lp next cs m' next',
  update_from_map j keys m lp next = (cs, m', next') →
  Forall slot_ok m → NoDup (map_nodes m) →
  (∀ x, x ∈ map_nodes m → (x < next)%nat) →
  (λ c, fkey (fiber c)) <$> cs = keys ∧ (next ≤ next')%nat ∧
  NoDup (child_nodes cs ++ map_nodes m') ∧
  (∀ c, c ∈ cs →
     if alternate c then ∃ e, e ∈ m ∧ e.2.2 = fiber c
     else placement c = true ∧ (next ≤ fnode (fiber c) < next')%nat) ∧
  (∀ e, e ∈ m' → e ∈ m) ∧
  (∀ e, e ∈ m → e ∈ m' ∨ ∃ c, c ∈ cs ∧ alternate c = true ∧ fiber c = e.2.2).
Proof.
  induction keys as [|k keys IH]; intros j m lp next cs m' next' H Hok Hnd Hlt.
  - simpl in H. injection H as <- <- <-. simpl.
    split_and!; try done.
    + intros c Hc. by apply elem_of_nil in Hc.
    + intros e He. by left.
  - simpl in H. destruct (map_get (slot_of k j) m) as [[oldIndex f]|] eqn:Eg.
    + destruct (update_from_map _ _ _ _ _) as [[cs1 m1] n1] eqn:E.
      injection H as <- <- <-.
      destruct (map_get_Some _ _ _ Eg) as [Hin Hperm].
      assert (Hnodes : map_nodes m ≡ₚ fnode f :: map_nodes (map_delete (slot_of k j) m)).
      { unfold map_nodes. by rewrite Hperm at 1. }
      assert (Hnd' : NoDup (fnode f :: map_nodes (map_delete (slot_of k j) m))).
      { by rewrite <- Hnodes. }
      apply NoDup_cons in Hnd' as [Hf Hnd'].
      assert (Hsub : ∀ e, e ∈ map_delete (slot_of k j) m → e ∈ m).
      { intros e He. rewrite Hperm. apply elem_of_cons. by right. }
      destruct (IH _ _ _ _ _ _ _ E) as (H1 & H2 & H3 & H4 & H5 & H6).
      { apply Forall_forall. intros e He. rewrite Forall_forall in Hok.
        by apply Hok, Hsub. }
      { done. }
      { intros x Hx. apply Hlt. rewrite Hnodes. apply elem_of_cons. by right. }
      split_and!.
      * simpl. f_equal; [|done].
        rewrite Forall_forall in Hok. specialize (Hok _ Hin). unfold slot_ok in Hok.
        simpl in Hok. destruct k as [s|]; destruct (fkey f); simpl in Hok; congruence.
      * done.
      * simpl. apply NoDup_cons. split; [|done].
        intros Hx. apply elem_of_app in Hx as [Hx|Hx].
        -- apply list_elem_of_fmap in Hx as (c & Hc & Hcin).
           specialize (H4 c Hcin). destruct (alternate c).
           ++ destruct H4 as (e & He & Hec). apply Hf.
              apply list_elem_of_fmap. exists e. split; [|done]. congruence.
           ++ destruct H4 as [_ H4].
              assert (fnode f < next)%nat; [|lia].
              apply Hlt. apply list_elem_of_fmap. by exists (slot_of k j, (oldIndex, f)).
        -- apply Hf. apply list_elem_of_fmap in Hx as (e & -> & He).
           apply list_elem_of_fmap. exists e. split; [done|by apply H5].
      * intros c Hc. apply elem_of_cons in Hc as [->|Hc].
        -- simpl. by exists (slot_of k j, (oldIndex, f)).
        -- specialize (H4 c Hc). destruct (alternate c); [|done].
           destruct H4 as (e & He & Hec). exists e. split; [by apply Hsub|done].
      * intros e He. by apply Hsub, H5.
      * intros e He. rewrite Hperm in He. apply elem_of_cons in He as [->|He].
        -- right. exists (mkChild f true (oldIndex <? lp)%nat).
           split; [apply elem_of_cons; by left|]. done.
        -- destruct (H6 e He) as [He'|(c & Hc & Hc')]; [by left|].
           right. exists c. split; [apply elem_of_cons; by right|done].
    + destruct (update_from_map _ _ _ _ _) as [[cs1 m1] n1] eqn:E.
      injection H as <- <- <-.
      destruct (IH _ _ _ _ _ _ _ E) as (H1 & H2 & H3 & H4 & H5 & H6); [done|done| |].
      { intros x Hx. specialize (Hlt x Hx). lia. }
      split_and!.
      * simpl. by f_equal.
      * lia.
      * simpl. apply NoDup_cons. split; [|done].
        intros Hx. apply elem_of_app in Hx as [Hx|Hx].
        -- apply list_elem_of_fmap in Hx as (c & Hc & Hcin).
           specialize (H4 c Hcin). destruct (alternate c).
           ++ destruct H4 as (e & He & Hec).
              assert (fnode (fiber c) < next)%nat; [|lia].
              apply Hlt. apply list_elem_of_fmap. exists e. split; [congruence|done].
           ++ lia.
        -- assert (next < next)%nat; [|lia]. apply Hlt.
           apply list_elem_of_fmap in Hx as (e & -> & He).
           apply list_elem_of_fmap. exists e. split; [done|by apply H5].
      * intros c Hc. apply elem_of_cons in Hc as [->|Hc].
        -- simpl. split; [done|lia].
        -- specialize (H4 c Hc). destruct (alternate c); [done|].
           destruct H4 as [H4 H4']. split; [done|lia].
      * done.
      * intros e He. destruct (H6 e He) as [He'|(c & Hc & Hc')]; [by left|].
        right. exists c. split; [apply elem_of_cons; by right|done].
Qed.

End Reconciliation.

Section ReconcileAll.

Lemma NoDup_omap_sublist {A B} (f : A → option B) (l k : list A) :
  sublist l k → NoDup (omap f k) → NoDup (omap f l).
Proof.
  intros Hs Hnd. apply (sublist_NoDup _ _ Hnd). clear Hnd.
  induction Hs as [|x l k _ IH|x l k _ IH]; simpl.
  - constructor.
  - destruct (f x); [by constructor|done].
  - destruct (f x); [by constructor|done].
Qed.

(** [reconcileChildrenArray] over old children with distinct nodes: the new
    children carry the new keys and have distinct nodes; a continued child
    is an old one whose node is not deleted, a created one is flagged and
    has a new node; only nodes of old children are deleted; and when the
    old keys are distinct every old child is continued or deleted. *)
Lemma reconcile_spec old keys next cs dels next' :
  reconcileChildrenArray old keys next = (cs, dels, next') →
  NoDup (fnode <$> old) → (∀ f, f ∈ old → (fnode f < next)%nat) →
  (λ c, fkey (fiber c)) <$> cs = keys ∧ (next ≤ next')%nat ∧
  NoDup (child_nodes cs) ∧
  (∀ c, c ∈ cs →
     if alternate c then fiber c ∈ old ∧ fnode (fiber c) ∉ dels
     else placement c = true ∧ (next ≤ fnode (fiber c) < next')%nat) ∧
  (∀ x, x ∈ dels → x ∈ fnode <$> old) ∧
  (NoDup (omap fkey old) →
   ∀ f, f ∈ old → fnode f ∈ dels ∨ ∃ c, c ∈ cs ∧ alternate c = true ∧ fiber c = f).
Proof.
  unfold reconcileChildrenArray. intros H Hnd Hlt.
  destruct (update_slots old keys) as [[pre old'] keys'] eqn:E.
  destruct (update_slots_spec _ _ _ _ _ E) as (m & -> & -> & -> & Hk & Hm1 & Hm2).
  rewrite <- (take_drop m old) in Hnd. rewrite fmap_app in Hnd.
  apply NoDup_app in Hnd as (Hnd1 & Hdisj & Hnd2).
  assert (Htake : ∀ f, f ∈ take m old → f ∈ old).
  { intros f Hf. rewrite <- (take_drop m old). apply elem_of_app. by left. }
  assert (Hdrop : ∀ f, f ∈ drop m old → f ∈ old).
  { intros f Hf. rewrite <- (take_drop m old). apply elem_of_app. by right. }
  assert (Hpre : child_nodes ((λ f, mkChild f true false) <$> take m old)
                 = fnode <$> take m old).
  { unfold child_nodes. rewrite <- list_fmap_compose. done. }
  assert (Hprek : (λ c, fkey (fiber c)) <$> ((λ f, mkChild f true false) <$> take m old)
                  = take m keys).
  { rewrite <- list_fmap_compose. exact Hk. }
  destruct (drop m keys) as [|k ks] eqn:Ek.
  - injection H as <- <- <-.
    assert (Hkeys : take m keys = keys).
    { rewrite <- (take_drop m keys) at 2. rewrite Ek. by rewrite app_nil_r. }
    split_and!.
    + by rewrite Hprek.
    + done.
    + by rewrite Hpre.
    + intros c Hc. apply list_elem_of_fmap in Hc as (f & -> & Hf). simpl.
      split; [by apply Htake|]. apply Hdisj. by apply list_elem_of_fmap_2.
    + intros x Hx. apply list_elem_of_fmap in Hx as (f & -> & Hf).
      apply list_elem_of_fmap_2. by apply Hdrop.
    + intros _ f Hf. rewrite <- (take_drop m old) in Hf.
      apply elem_of_app in Hf as [Hf|Hf].
      * right. exists (mkChild f true false). split; [|done].
        by apply (list_elem_of_fmap_2 (λ f, mkChild f true false)).
      * left. by apply list_elem_of_fmap_2.
  - rewrite length_fmap in H.
    destruct (update_from_map _ _ _ _ _) as [[cs2 mleft] n2] eqn:E2.
    injection H as <- <- <-.
    destruct (mapRemainingChildren_spec (drop m old) (length (take m old)) [])
      as (Hok & Hmn & Hmsub).
    { by apply Forall_nil. }
    { done. }
    destruct (update_from_map_spec _ _ _ _ _ _ _ _ E2 Hok Hmn)
      as (H1 & H2 & H3 & H4 & H5 & H6).
    { intros x Hx. apply list_elem_of_fmap in Hx as (e & -> & He).
      destruct (Hmsub e He) as [He'|He']; [by apply elem_of_nil in He'|].
      by apply Hlt, Hdrop. }
    assert (Hmold : ∀ e, e ∈ mleft → e.2.2 ∈ drop m old).
    { intros e He. destruct (Hmsub e (H5 e He)) as [He'|He']; [|done].
      by apply elem_of_nil in He'. }
    apply NoDup_app in H3 as (H3a & H3b & H3c).
    split_and!.
    + rewrite fmap_app, Hprek, H1, <- Ek. apply take_drop.
    + done.
    + unfold child_nodes. rewrite fmap_app. fold (child_nodes cs2).
      fold (child_nodes ((λ f, mkChild f true false) <$> take m old)).
      rewrite Hpre. apply NoDup_app. split_and!; [done| |done].
      intros x Hx Hx'. apply list_elem_of_fmap in Hx' as (c & -> & Hc).
      specialize (H4 c Hc). destruct (alternate c).
      * destruct H4 as (e & He & Hec). apply (Hdisj _ Hx).
        rewrite <- Hec. apply list_elem_of_fmap_2.
        destruct (Hmsub e He) as [He'|He']; [by apply elem_of_nil in He'|done].
      * destruct H4 as [_ H4]. apply list_elem_of_fmap in Hx as (f & Hf & Hfin).
        specialize (Hlt f (Htake f Hfin)). lia.
    + intros c Hc. apply elem_of_app in Hc as [Hc|Hc].
      * apply list_elem_of_fmap in Hc as (f & -> & Hf). simpl.
        split; [by apply Htake|]. intros Hin.
        apply list_elem_of_fmap in Hin as (e & He & Hein).
        apply (Hdisj (fnode f)); [by apply list_elem_of_fmap_2|].
        rewrite He. apply list_elem_of_fmap_2. by apply Hmold.
      * specialize (H4 c Hc). destruct (alternate c); [|done].
        destruct H4 as (e & He & Hec). split.
        -- rewrite <- Hec. apply Hdrop.
           destruct (Hmsub e He) as [He'|He']; [by apply elem_of_nil in He'|done].
        -- intros Hin. apply (H3b (fnode (fiber c))); [|done].
           by apply (list_elem_of_fmap_2 (λ c, fnode (fiber c))).
    + intros x Hx. apply list_elem_of_fmap in Hx as (e & -> & He).
      apply list_elem_of_fmap_2. by apply Hdrop, Hmold.
    + intros Hkeys f Hf. rewrite <- (take_drop m old) in Hf.
      apply elem_of_app in Hf as [Hf|Hf].
      * right. exists (mkChild f true false). split; [|done].
        apply elem_of_app. left.
        by apply (list_elem_of_fmap_2 (λ f, mkChild f true false)).
      * assert (Hm0 : mapRemainingChildren (length (take m old)) (drop m old) []
                      = entries (length (take m old)) (drop m old)).
        { rewrite mapRemainingChildren_fresh; [done|]. simpl.
          apply entries_slots_NoDup.
          eapply NoDup_omap_sublist; [apply sublist_drop|done]. }
        assert (He : ∃ e, e ∈ entries (length (take m old)) (drop m old) ∧ e.2.2 = f).
        { rewrite <- (entries_fibers (length (take m old)) (drop m old)) in Hf.
          apply list_elem_of_fmap in Hf as (e & -> & He). by exists e. }
        destruct He as (e & He & <-). rewrite <- Hm0 in He.
        destruct (H6 e He) as [He'|(c & Hc & Hc1 & Hc2)].
        -- left. by apply (list_elem_of_fmap_2 (λ e : slot * (nat * Fiber), fnode e.2.2)).
        -- right. exists c. split; [apply elem_of_app; by right|done].
Qed.

Lemma reconcile_same old next :
  reconcileChildrenArray old (fkey <$> old) next
  = ((λ f, mkChild f true false) <$> old, [], next).
Proof. unfold reconcileChildrenArray. by rewrite update_slots_same. Qed.

End ReconcileAll.

(** *** The document *)

Section Document.

Lemma elem_of_dom_remove x doc el :
  el ∈ dom_remove x doc ↔ el ∈ doc ∧ node el ≠ x.
Proof.
  unfold dom_remove. rewrite !list_elem_of_In, filter_In, <- list_elem_of_In.
  rewrite negb_true_iff, bool_decide_eq_false. done.
Qed.

Lemma filter_fmap_sublist {A B} (f : A → B) (p : A → bool) (l : list A) :
  sublist (f <$> List.filter p l) (f <$> l).
Proof.
  induction l as [|x l IH]; simpl; [constructor|].
  destruct (p x); simpl; by constructor.
Qed.

Lemma dom_remove_nodes x doc :
  NoDup (node <$> doc) →
  NoDup (node <$> dom_remove x doc) ∧ x ∉ node <$> dom_remove x doc.
Proof.
  intros Hnd. split.
  - apply (sublist_NoDup _ _ Hnd), filter_fmap_sublist.
  - intros Hin. apply list_elem_of_fmap in Hin as (el & -> & Hel).
    by apply elem_of_dom_remove in Hel as [_ Hel].
Qed.

Lemma insert_before_perm ref el doc : insert_before ref el doc ≡ₚ el :: doc.
Proof.
  induction doc as [|x doc IH]; simpl; [done|].
  case_bool_decide; [done|]. rewrite IH. apply Permutation_swap.
Qed.

Lemma commitPlacement_perm before el doc :
  commitPlacement before el doc ≡ₚ el :: dom_remove (node el) doc.
Proof.
  destruct before as [ref|]; simpl.
  - apply insert_before_perm.
  - symmetry. apply Permutation_cons_append.
Qed.

Lemma elem_of_commitPlacement before el doc x :
  x ∈ commitPlacement before el doc ↔ x = el ∨ (x ∈ doc ∧ node x ≠ node el).
Proof.
  rewrite commitPlacement_perm, elem_of_cons, elem_of_dom_remove. done.
Qed.

Lemma commitPlacement_nodes before el doc :
  NoDup (node <$> doc) → NoDup (node <$> commitPlacement before el doc).
Proof.
  intros Hnd. rewrite commitPlacement_perm. simpl.
  destruct (dom_remove_nodes (node el) doc Hnd) as [H1 H2].
  apply NoDup_cons. by split.
Qed.

Lemma commitUpdate_nodes el doc : node <$> commitUpdate el doc = node <$> doc.
Proof.
  unfold commitUpdate. rewrite <- list_fmap_compose. apply list_fmap_ext.
  intros i x _. simpl. case_bool_decide; congruence.
Qed.

Lemma elem_of_commitUpdate el doc x :
  x ∈ commitUpdate el doc ↔
  (x = el ∧ node el ∈ node <$> doc) ∨ (x ∈ doc ∧ node x ≠ node el).
Proof.
  unfold commitUpdate. rewrite list_elem_of_fmap. split.
  - intros (y & -> & Hy). case_bool_decide as Hn.
    + left. split; [done|]. rewrite <- Hn. by apply list_elem_of_fmap_2.
    + right. by split.
  - intros [[-> Hin]|[Hx Hn]].
    + apply list_elem_of_fmap in Hin as (y & Hy & Hyin). exists y.
      rewrite bool_decide_eq_true_2 by done. by split.
    + exists x. rewrite bool_decide_eq_false_2 by done. by split.
Qed.

Lemma NoDup_nodes_eq (doc : list Element) (a b : Element) :
  NoDup (node <$> doc) → a ∈ doc → b ∈ doc → node a = node b → a = b.
Proof.
  intros Hnd Ha Hb Hn.
  apply list_elem_of_lookup in Ha as [i Hi]. apply list_elem_of_lookup in Hb as [j Hj].
  assert (i = j).
  { apply (NoDup_lookup (node <$> doc) i j (node a)); [done| |].
    - by rewrite list_lookup_fmap, Hi.
    - rewrite list_lookup_fmap, Hj. simpl. by rewrite Hn. }
  subst j. congruence.
Qed.

Lemma commitUpdate_same el doc :
  NoDup (node <$> doc) → el ∈ doc → commitUpdate el doc = doc.
Proof.
  intros Hnd Hel. unfold commitUpdate.
  rewrite <- (list_fmap_id doc) at 2. apply list_fmap_ext.
  intros i x Hx. simpl. case_bool_decide as Hn; [|done].
  symmetry. apply (NoDup_nodes_eq doc); [done| |done|done].
  apply list_elem_of_lookup. by exists i.
Qed.

(** The mutation of the document for the new children keeps the nodes
    distinct, leaves every child's node in the document with the class of
    the child's index, leaves the other elements as they are and adds no
    element but those of the children. *)
Lemma commit_children_spec cs : ∀ j doc,
  NoDup (child_nodes cs) → NoDup (node <$> doc) →
  (∀ c, c ∈ cs → placement c = false → fnode (fiber c) ∈ node <$> doc) →
  let doc' := commit_children j cs doc in
  NoDup (node <$> doc') ∧
  (∀ i c, cs !! i = Some c → mkElement (fnode (fiber c)) (j + i) ∈ doc') ∧
  (∀ el, el ∈ doc → node el ∉ child_nodes cs → el ∈ doc') ∧
  (∀ el, el ∈ doc' → el ∈ doc ∨ node el ∈ child_nodes cs).
Proof.
  induction cs as [|c cs IH]; intros j doc Hcn Hnd Hup; simpl.
  - split_and!; try done. intros el Hel. by left.
  - simpl in Hcn. apply NoDup_cons in Hcn as [Hc Hcn].
    set (el0 := mkElement (fnode (fiber c)) j).
    set (doc1 := if placement c then commitPlacement (getHostSibling cs) el0 doc
                 else commitUpdate el0 doc).
    assert (Hnd1 : NoDup (node <$> doc1)).
    { subst doc1. destruct (placement c).
      - by apply commitPlacement_nodes.
      - by rewrite commitUpdate_nodes. }
    assert (Hel0 : el0 ∈ doc1).
    { subst doc1. destruct (placement c) eqn:Ep.
      - apply elem_of_commitPlacement. by left.
      - apply elem_of_commitUpdate. left. split; [done|]. simpl.
        apply Hup; [apply elem_of_cons; by left|done]. }
    assert (Hkeep : ∀ el, el ∈ doc → node el ≠ fnode (fiber c) → el ∈ doc1).
    { intros el Hel Hn. subst doc1. destruct (placement c).
      - apply elem_of_commitPlacement. right. by split.
      - apply elem_of_commitUpdate. right. by split. }
    assert (Hfrom : ∀ el, el ∈ doc1 → el = el0 ∨ el ∈ doc).
    { intros el Hel. subst doc1. destruct (placement c).
      - apply elem_of_commitPlacement in Hel as [->|[Hel _]]; [by left|by right].
      - apply elem_of_commitUpdate in Hel as [[-> _]|[Hel _]]; [by left|by right]. }
    destruct (IH (S j) doc1 Hcn Hnd1) as (H1 & H2 & H3 & H4).
    { intros c' Hc' Hp.
      assert (Hin : fnode (fiber c') ∈ node <$> doc).
      { apply Hup; [apply elem_of_cons; by right|done]. }
      apply list_elem_of_fmap in Hin as (el & Hel & Helin).
      rewrite Hel. apply list_elem_of_fmap_2. apply Hkeep; [done|].
      intros Heq. apply Hc. rewrite <- Heq, <- Hel.
      by apply (list_elem_of_fmap_2 (λ c, fnode (fiber c))). }
    split_and!.
    + done.
    + intros [|i] c' Hi; simpl in Hi.
      * injection Hi as <-. replace (j + 0)%nat with j by lia.
        by apply H3.
      * replace (j + S i)%nat with (S j + i)%nat by lia. by apply H2.
    + intros el Hel Hn. apply not_elem_of_cons in Hn as [Hn1 Hn2].
      apply H3; [by apply Hkeep|done].
    + intros el Hel. destruct (H4 el Hel) as [Hel'|Hel'].
      * destruct (Hfrom el Hel') as [->|Hd]; [|by left].
        right. apply elem_of_cons. by left.
      * right. apply elem_of_cons. by right.
Qed.

(** Children that stay where they are and whose nodes carry their class
    already leave the document as it is. *)
Lemma commit_children_same (fs : list Fiber) : ∀ j doc,
  NoDup (node <$> doc) →
  (∀ i f, fs !! i = Some f → mkElement (fnode f) (j + i) ∈ doc) →
  commit_children j ((λ f, mkChild f true false) <$> fs) doc = doc.
Proof.
  induction fs as [|f fs IH]; intros j doc Hnd Hel; simpl; [done|].
  rewrite commitUpdate_same; [|done|].
  - apply IH; [done|]. intros i f' Hi.
    replace (S j + i)%nat with (j + S i)%nat by lia. by apply Hel.
  - replace j with (j + 0)%nat at 1 by lia. by apply Hel.
Qed.

End Document.

(** *** The commit of the field elements *)

Section Render.

Lemma filter_true_id {A} (p : A → bool) (l : list A) :
  (∀ x, x ∈ l → p x = true) → List.filter p l = l.
Proof.
  induction l as [|x l IH]; intros H; [done|]. simpl.
  rewrite (H x) by (apply elem_of_cons; by left).
  f_equal. apply IH. intros y Hy. apply H, elem_of_cons. by right.
Qed.

Lemma render_fields_same (fs : list obj) (t : Tree) :
  tree_ok t → fkey <$> children t = react_key <$> ids fs →
  render_fields fs t = t.
Proof.
  intros (Hc & Hd & Hel & Hlt) Hk. unfold render_fields.
  rewrite <- Hk, reconcile_same.
  rewrite filter_true_id.
  2:{ intros el _. apply bool_decide_eq_true. apply not_elem_of_nil. }
  rewrite commit_children_same; [|done|done].
  rewrite <- list_fmap_compose. simpl.
  destruct t as [ch doc nx]. simpl. f_equal. apply list_fmap_id.
Qed.

(** The commit keeps the tree well formed and gives the children the keys
    of the fields; when the old keys are distinct and the document holds
    no element but those of the old children, it holds none but those of
    the new children afterwards. *)
Lemma render_fields_ok (fs : list obj) (t : Tree) :
  tree_ok t →
  let t' := render_fields fs t in
  tree_ok t' ∧ fkey <$> children t' = react_key <$> ids fs ∧
  (NoDup (omap fkey (children t)) →
   (∀ el, el ∈ document t → node el ∈ fnode <$> children t) →
   ∀ el, el ∈ document t' → node el ∈ fnode <$> children t').
Proof.
  intros (Hc & Hd & Hel & Hlt). unfold render_fields.
  destruct (reconcileChildrenArray _ _ _) as [[cs dels] next'] eqn:E.
  assert (Hold : ∀ f, f ∈ children t → (fnode f < next_node t)%nat).
  { intros f Hf. apply list_elem_of_lookup in Hf as [j Hj].
    apply (Hlt _ (Hel j f Hj)). }
  destruct (reconcile_spec _ _ _ _ _ _ E Hc Hold) as (R1 & R2 & R3 & R4 & R5 & R6).
  set (doc0 := List.filter (λ el, bool_decide (node el ∉ dels)) (document t)).
  assert (Hdoc0 : ∀ el, el ∈ doc0 ↔ el ∈ document t ∧ node el ∉ dels).
  { intros el. subst doc0.
    rewrite (list_elem_of_In (List.filter _ _)), filter_In, <- list_elem_of_In.
    by rewrite bool_decide_eq_true. }
  destruct (commit_children_spec cs 0 doc0 R3) as (C1 & C2 & C3 & C4).
  { apply (sublist_NoDup _ _ Hd), filter_fmap_sublist. }
  { intros c Hcin Hp. specialize (R4 c Hcin).
    destruct (alternate c); [|destruct R4; congruence].
    destruct R4 as [Hf Hn].
    apply list_elem_of_lookup in Hf as [j Hj].
    apply (list_elem_of_fmap_2' node _ (mkElement (fnode (fiber c)) j)); [|done].
    apply Hdoc0. split; [by apply Hel|done]. }
  simpl.
  assert (Hnodes : fnode <$> (fiber <$> cs) = child_nodes cs).
  { unfold child_nodes. by rewrite <- list_fmap_compose. }
  assert (Hfrom : ∀ el, el ∈ commit_children 0 cs doc0 →
                        (el ∈ document t ∧ node el ∉ dels) ∨ node el ∈ child_nodes cs).
  { intros el He. destruct (C4 el He) as [H0|H0]; [left; by apply Hdoc0|by right]. }
  split_and!.
  - split_and!; simpl.
    + by rewrite Hnodes.
    + done.
    + intros j f Hj. apply list_lookup_fmap_Some in Hj as (c & -> & Hcj).
      by apply (C2 j c).
    + intros el He. destruct (Hfrom el He) as [[H0 _]|H0].
      * specialize (Hlt el H0). lia.
      * apply list_elem_of_fmap in H0 as (c & -> & Hcin).
        specialize (R4 c Hcin). destruct (alternate c).
        -- destruct R4 as [Hf _]. specialize (Hold _ Hf). lia.
        -- lia.
  - rewrite <- list_fmap_compose. exact R1.
  - intros Hkeys Hstale el He. rewrite Hnodes.
    destruct (Hfrom el He) as [[H0 Hn]|H0]; [|done].
    specialize (Hstale el H0). apply list_elem_of_fmap in Hstale as (f & Hf & Hfin).
    destruct (R6 Hkeys f Hfin) as [Hdel|(c & Hcin & _ & Hc')].
    + rewrite Hf in Hn. by destruct Hn.
    + rewrite Hf, <- Hc'. by apply (list_elem_of_fmap_2 (λ c, fnode (fiber c))).
Qed.

End Render.

(** ** The drag synchronizer *)

Section DragSync.

(** *** The class selectors *)

Lemma pretty_N_go_not_text (x : N) : ∀ (n : N) (s : string),
  pretty_N_go x (String (pretty_N_char n) s) ≠ "text".
Proof.
  induction (N.lt_wf_0 x) as [x _ IH]; intros n s.
  assert (x = 0 ∨ 0 < x)%N as [->|Hx] by lia.
  - rewrite pretty_N_go_0. unfold pretty_N_char.
    repeat case_match; discriminate.
  - rewrite pretty_N_go_step by done. apply IH. by apply N.div_lt.
Qed.

Lemma num_to_string_not_text (k : nat) : num_to_string (Z.of_nat k) ≠ "text".
Proof.
  unfold num_to_string, pretty, pretty_Z.
  pose proof (Zle_0_nat k) as Hk.
  destruct (Z.of_nat k) as [|p|p]; [discriminate| |lia].
  unfold pretty, pretty_positive, pretty, pretty_N.
  case_decide; [discriminate|].
  rewrite pretty_N_go_step by lia. apply pretty_N_go_not_text.
Qed.

Lemma append_empty_l (s : string) : "" +:+ s = s.
Proof. reflexivity. Qed.

Lemma class_in_field_classes (k j : nat) :
  "draggable-" +:+ num_to_string (Z.of_nat k) ∈ field_classes j ↔ j = k.
Proof.
  unfold field_classes. split.
  - intros H. apply elem_of_cons in H as [H|H].
    { simpl in H. injection H as H. rewrite append_empty_l in H.
      by apply num_to_string_not_text in H. }
    apply elem_of_cons in H as [H|H].
    { simpl in H. injection H as H. unfold num_to_string in H.
      rewrite !append_empty_l in H.
      apply (inj (pretty : Z → string)) in H. by apply Nat2Z.inj in H. }
    apply elem_of_cons in H as [H|H]; [discriminate H|].
    apply elem_of_cons in H as [H|H]; [discriminate H|].
    by apply elem_of_nil in H.
  - intros ->. apply elem_of_cons. right. apply elem_of_cons. by left.
Qed.

(** The selector [.draggable-k] selects the nodes whose element carries
    the index [k]. *)
Lemma elem_of_query_class (k : nat) (doc : list Element) (x : nat) :
  x ∈ query_class ("draggable-" +:+ num_to_string (Z.of_nat k)) doc
  ↔ mkElement x k ∈ doc.
Proof.
  unfold query_class. rewrite list_elem_of_fmap. split.
  - intros (el & -> & Hel).
    apply list_elem_of_In, filter_In in Hel as [Hel Hc].
    apply bool_decide_eq_true, class_in_field_classes in Hc.
    apply list_elem_of_In in Hel. destruct el as [n c]. simpl in *. by subst c.
  - intros Hel. exists (mkElement x k). split; [done|].
    apply list_elem_of_In, filter_In. split; [by apply list_elem_of_In|].
    apply bool_decide_eq_true. by apply class_in_field_classes.
Qed.

Lemma NoDup_all_eq {A} (l : list A) (x : A) :
  NoDup l → x ∈ l → (∀ y, y ∈ l → y = x) → l = [x].
Proof.
  intros Hnd Hx Hall. destruct l as [|a l]; [by apply elem_of_nil in Hx|].
  assert (a = x) as -> by (apply Hall, elem_of_cons; by left).
  f_equal. destruct l as [|b l]; [done|].
  assert (b = x) as -> by (apply Hall, elem_of_cons; right; apply elem_of_cons; by left).
  apply NoDup_cons in Hnd as [Hn _]. destruct Hn. apply elem_of_cons. by left.
Qed.

(** When one element only carries the index [k], the selector selects its
    node and no other. *)
Lemma query_class_single (k : nat) (doc : list Element) (x : nat) :
  NoDup (node <$> doc) → mkElement x k ∈ doc →
  (∀ y, mkElement y k ∈ doc → y = x) →
  query_class ("draggable-" +:+ num_to_string (Z.of_nat k)) doc = [x].
Proof.
  intros Hnd Hx Hall. apply NoDup_all_eq.
  - unfold query_class. apply (sublist_NoDup _ _ Hnd), filter_fmap_sublist.
  - by apply elem_of_query_class.
  - intros y Hy. by apply Hall, elem_of_query_class.
Qed.

(** *** Teardown and attach *)

Lemma kill_all_seq (mid : list Draggable) : ∀ pre post : list Draggable,
  kill_all (Some <$> seq (length pre) (length mid)) (pre ++ mid ++ post)
  = Some (pre ++ (killed <$> mid) ++ post).
Proof.
  induction mid as [|i mid IH]; intros pre post; [done|].
  simpl. unfold kill.
  rewrite alter_app_r_alt by lia.
  replace (length pre - length pre)%nat with 0%nat by lia. simpl.
  specialize (IH (pre ++ [killed i]) post).
  rewrite length_app in IH. simpl in IH.
  replace (length pre + 1)%nat with (S (length pre)) in IH by lia.
  rewrite <- !app_assoc in IH. simpl in IH. exact IH.
Qed.

Lemma killed_dead (l : list Draggable) : Forall (λ i, alive i = false) (killed <$> l).
Proof. apply Forall_fmap, Forall_true. done. Qed.

(** A ref without [undefined] entries is killed without a throw. *)
Lemma kill_all_total (ds : list (option nat)) : ∀ h : list Draggable,
  Forall is_Some ds → is_Some (kill_all ds h).
Proof.
  induction ds as [|d ds IH]; intros h Hd; [done|].
  apply Forall_cons in Hd as [[x ->] Hd]. simpl. by apply IH.
Qed.

(** The loop of the effect pushes no [undefined] when every selector
    selects something. *)
Lemma attach_from_some (doc : list Element) (fs : list obj) :
  ∀ (index : nat) (ref : list (option nat)) (h : list Draggable),
  (∀ j, (j < length fs)%nat →
     query_class ("draggable-" +:+ num_to_string (Z.of_nat (index + j))) doc ≠ []) →
  Forall is_Some ref →
  Forall is_Some (attach_from index fs doc ref h).1.
Proof.
  induction fs as [|f fs IH]; intros index ref h Hq Href; [done|].
  simpl. unfold Draggable_create.
  pose proof (Hq 0%nat ltac:(simpl; lia)) as H0.
  replace (index + 0)%nat with index in H0 by lia.
  apply IH.
  - intros j Hj. replace (S index + j)%nat with (index + S j)%nat by lia.
    apply Hq. simpl. lia.
  - apply Forall_app. split; [done|]. apply Forall_singleton.
    destruct (query_class _ doc) as [|x l]; [done|]. simpl. by eexists.
Qed.

(** When every selector selects one node, the loop makes one new live
    instance per field, bound to the selected node, and pushes them in
    order. *)
Lemma attach_from_spec (doc : list Element) (tgt : nat → nat) (fs : list obj) :
  ∀ (index : nat) (ref : list (option nat)) (h : list Draggable),
  (∀ j, (j < length fs)%nat →
     query_class ("draggable-" +:+ num_to_string (Z.of_nat (index + j))) doc
     = [tgt (index + j)%nat]) →
  attach_from index fs doc ref h =
  (ref ++ (Some <$> seq (length h) (length fs)),
   h ++ imap (λ j field, mkDraggable (tgt (index + j)%nat) field true) fs).
Proof.
  induction fs as [|f fs IH]; intros index ref h Hq.
  - simpl. by rewrite !app_nil_r.
  - simpl. unfold Draggable_create.
    pose proof (Hq 0%nat ltac:(simpl; lia)) as H0.
    replace (index + 0)%nat with index in H0 by lia. rewrite H0. simpl.
    rewrite IH.
    2:{ intros j Hj. replace (S index + j)%nat with (index + S j)%nat by lia.
        apply Hq. simpl. lia. }
    rewrite length_app. simpl.
    replace (length h + 1)%nat with (S (length h)) by lia.
    rewrite <- !app_assoc. simpl. f_equal. f_equal. f_equal.
    + f_equal. f_equal. lia.
    + apply imap_ext. intros j x _. simpl. f_equal. f_equal. lia.
Qed.

(** *** What a callback and a commit change *)

Lemma run_effect_frame (w w' : World) :
  run_effect w = Some w' →
  st w' = st w ∧ librariesLoaded w' = librariesLoaded w ∧ gsap w' = gsap w ∧
  tree w' = tree w ∧
  readers w' = readers w ∧ timers w' = timers w ∧
  captures w' = captures w ∧ out w' = out w.
Proof.
  unfold run_effect. case_bool_decide as Hd; [by intros [= <-]|].
  intros Hc. apply bind_Some in Hc as (w1 & H1 & Hc).
  apply bind_Some in Hc as ([w2 c] & H2 & [= <-]).
  assert (F1 : st w1 = st w ∧ librariesLoaded w1 = librariesLoaded w ∧
               gsap w1 = gsap w ∧ tree w1 = tree w ∧
               readers w1 = readers w ∧ timers w1 = timers w ∧
               captures w1 = captures w ∧ out w1 = out w).
  { destruct (hasCleanup w); [|by injection H1 as <-].
    unfold draggable_cleanup in H1.
    apply bind_Some in H1 as (h & _ & [= <-]). done. }
  unfold draggable_effect in H2.
  destruct (negb (librariesLoaded w1)); [by injection H2 as <- <-|].
  destruct (negb (gsap w1)); [done|].
  apply bind_Some in H2 as (h & _ & H2).
  destruct (attach_from _ _ _ _ _) as [ref h'].
  injection H2 as <- <-. simpl. done.
Qed.

Lemma commit_frame (w w' : World) :
  commit w = Some w' →
  st w' = st w ∧ librariesLoaded w' = librariesLoaded w ∧
  readers w' = readers w ∧ timers w' = timers w ∧
  captures w' = captures w ∧ out w' = out w.
Proof.
  intros H. apply run_effect_frame in H as (H1 & H2 & _ & _ & H3 & H4 & H5 & H6).
  done.
Qed.

Lemma handle_frame (e : event) (w w1 : World) :
  handle e w = Some w1 →
  draggableInstancesRef w1 = draggableInstancesRef w ∧ heap w1 = heap w ∧
  lastDeps w1 = lastDeps w ∧ hasCleanup w1 = hasCleanup w ∧
  tree w1 = tree w ∧
  (librariesLoaded w = true → librariesLoaded w1 = true) ∧
  ((∀ g, e ≠ ScriptsLoaded g) →
   librariesLoaded w1 = librariesLoaded w ∧ gsap w1 = gsap w).
Proof.
  destruct e; simpl; intros H;
    try (apply bind_Some in H as (? & ? & H));
    try (injection H as <-); try done.
  - split_and!; try done. intros Hg. by destruct (Hg gsap0).
  - unfold handleImageUpload. destruct (files ≫= head); simpl; split_and!; auto.
  - unfold handleCanvasClick. destruct onBackground; simpl; split_and!; auto.
  - unfold handleDownloadMeme. destruct html2canvas; simpl; split_and!; auto.
  - unfold export_timeout, memeRef_current. simpl.
    destruct (librariesLoaded w) eqn:E; simpl; split_and!; auto; congruence.
Qed.

Lemma filter_all_false {A} (f : A → bool) (l : list A) :
  (∀ x, x ∈ l → f x = false) → List.filter f l = [].
Proof.
  induction l as [|x l IH]; intros H; [done|]. simpl.
  rewrite (H x) by (apply elem_of_cons; by left).
  apply IH. intros y Hy. apply H, elem_of_cons. by right.
Qed.

Lemma filter_all_true {A} (f : A → bool) (l : list A) :
  (∀ x, x ∈ l → f x = true) → List.filter f l = l.
Proof. apply filter_true_id. Qed.

Lemma handle_enabled (e : event) (w : World) :
  enabled e w = true → is_Some (handle e w).
Proof.
  destruct e; simpl; intros H; try done.
  - apply andb_true_iff in H as [_ H]. apply bool_decide_eq_true in H.
    unfold handleRandomMeme. case_bool_decide; [done|].
    destruct H as [H|H]; [done|].
    apply lookup_lt_is_Some in H as [m ->]. done.
  - unfold live in H. by destruct (heap w !! d).
  - unfold live in H. by destruct (heap w !! d).
Qed.

(** *** Every commit is sound *)

(** The document after the render of a world whose tree is well formed. *)
Lemma render_tree (w : World) :
  tree_ok (tree w) →
  tree_ok (tree (render w)) ∧
  fkey <$> children (tree (render w))
  = (if librariesLoaded w then react_key <$> ids (fields (st w)) else []) ∧
  (librariesLoaded w = false → document (tree (render w)) = []).
Proof.
  intros Hok. unfold render. simpl. destruct (librariesLoaded w).
  - destruct (render_fields_ok (fields (st w)) (tree w) Hok) as (H1 & H2 & _).
    split_and!; done.
  - split_and!; try done. split_and!; simpl; try done.
    + apply NoDup_nil_2.
    + apply NoDup_nil_2.
    + intros el Hel. by apply elem_of_nil in Hel.
Qed.

(** The render of a sound world changes nothing in the document. *)
Lemma render_same (w : World) : sound w → render w = w.
Proof.
  intros (_ & _ & _ & _ & Hok & Hkeys & Hdoc). unfold render.
  destruct (librariesLoaded w).
  - rewrite render_fields_same; [by destruct w|done|done].
  - specialize (Hdoc eq_refl). apply fmap_nil_inv in Hkeys.
    destruct w as [s l g [c d n] r h ld hc rd tm cp o]. simpl in *. by subst c d.
Qed.

(** A commit with no dependency changed leaves a sound world as it is. *)
Lemma commit_same (w : World) : sound w → commit w = Some w.
Proof.
  intros Hs. unfold commit. rewrite (render_same w Hs).
  destruct Hs as (Hdeps & _). unfold run_effect.
  by rewrite bool_decide_eq_true_2.
Qed.

(** Every child's node is selected by the selector of the child's index. *)
Lemma tree_ok_query (t : Tree) (j : nat) :
  tree_ok t → (j < length (children t))%nat →
  query_class ("draggable-" +:+ num_to_string (Z.of_nat j)) (document t) ≠ [].
Proof.
  intros (_ & _ & Hel & _) Hj Hq.
  destruct (lookup_lt_is_Some_2 _ _ Hj) as [f Hf].
  specialize (Hel j f Hf). apply elem_of_query_class in Hel.
  rewrite Hq in Hel. by apply elem_of_nil in Hel.
Qed.

(** The effects after a render: they do not throw when GSAP is there
    whenever the flag is set, they end sound, and they leave the Draggables
    alone when no dependency has changed. *)
Lemma run_effect_sound (w : World) (d0 : Deps) :
  lastDeps w = Some d0 → hasCleanup w = dep_loaded d0 →
  (librariesLoaded w = true → gsap w = true) →
  Forall is_Some (draggableInstancesRef w) → tree_ok (tree w) →
  fkey <$> children (tree w)
  = (if librariesLoaded w then react_key <$> ids (fields (st w)) else []) →
  (librariesLoaded w = false → document (tree w) = []) →
  ∃ w', run_effect w = Some w' ∧ sound w' ∧
    (deps_of w = d0 →
       heap w' = heap w ∧ draggableInstancesRef w' = draggableInstancesRef w).
Proof.
  intros Hdeps Hclean Hg Href T1 T2 T3.
  unfold run_effect. rewrite Hdeps. case_bool_decide as Heq.
  - injection Heq as Heq. exists w. split; [done|].
    split; [|by split]. split_and!; try done; [congruence|].
    by rewrite Hclean, Heq.
  - assert (Hne : deps_of w ≠ d0) by congruence.
    assert (Hk : ∃ w2, (if hasCleanup w then draggable_cleanup w else Some w)
                       = Some w2 ∧
                 st w2 = st w ∧ librariesLoaded w2 = librariesLoaded w ∧
                 gsap w2 = gsap w ∧ tree w2 = tree w ∧
                 draggableInstancesRef w2 = draggableInstancesRef w).
    { destruct (hasCleanup w); [|by eexists].
      unfold draggable_cleanup.
      destruct (kill_all_total _ (heap w) Href) as [h ->]. simpl. by eexists. }
    destruct Hk as (w2 & -> & K1 & K2 & K3 & K4 & K5). simpl.
    unfold draggable_effect. rewrite K2, K3.
    destruct (librariesLoaded w) eqn:Hl; simpl.
    + rewrite (Hg eq_refl). simpl.
      destruct (kill_all_total _ (heap w2) Href) as [h Hh].
      rewrite K5, Hh. simpl.
      destruct (attach_from _ _ _ _ _) as [ref h'] eqn:Ea. simpl.
      eexists. split; [reflexivity|]. split; [|done].
      split_and!; simpl.
      * unfold deps_of. simpl. by rewrite K1, K2, Hl.
      * by rewrite K2.
      * intros _. by rewrite K3, Hg.
      * replace ref with (attach_from 0 (fields (st w2)) (document (tree w2)) [] h).1
          by (by rewrite Ea).
        apply attach_from_some; [|done].
        intros j Hj. simpl. rewrite K4. apply tree_ok_query; [done|].
        rewrite <- (length_fmap fkey), T2, length_fmap. unfold ids.
        rewrite length_map. by rewrite <- K1.
      * by rewrite K4.
      * rewrite K4, K2, K1. exact T2.
      * rewrite K2. done.
    + eexists. split; [reflexivity|]. split; [|done].
      split_and!; simpl.
      * unfold deps_of. simpl. by rewrite K1, K2, Hl.
      * by rewrite K2.
      * rewrite K2. done.
      * by rewrite K5.
      * by rewrite K4.
      * rewrite K4, K2. exact T2.
      * intros _. rewrite K4. by apply T3.
Qed.

(** A commit after a callback. *)
Lemma commit_sound (w1 : World) (d0 : Deps) :
  lastDeps w1 = Some d0 → hasCleanup w1 = dep_loaded d0 →
  (librariesLoaded w1 = true → gsap w1 = true) →
  Forall is_Some (draggableInstancesRef w1) → tree_ok (tree w1) →
  ∃ w', commit w1 = Some w' ∧ sound w' ∧ tree w' = tree (render w1) ∧
    (deps_of w1 = d0 →
       heap w' = heap w1 ∧ draggableInstancesRef w' = draggableInstancesRef w1).
Proof.
  intros Hdeps Hclean Hg Href Hok.
  destruct (render_tree w1 Hok) as (T1 & T2 & T3).
  destruct (run_effect_sound (render w1) d0 Hdeps Hclean Hg Href T1 T2 T3)
    as (w' & Hc & Hs & Hsame).
  exists w'. split; [done|]. split; [done|]. split; [|done].
  by apply run_effect_frame in Hc as (_ & _ & _ & Ht & _).
Qed.

(** One turn of the event loop from a sound world: unless the flag is being
    set without GSAP, it does not throw and ends sound; the Draggables are
    left alone when no dependency has changed. *)
Lemma step_sound (e : event) (w : World) :
  sound w → enabled e w = true → e ≠ ScriptsLoaded false →
  ∃ w1 w', handle e w = Some w1 ∧ step e w = Some w' ∧ sound w' ∧
    st w' = st w1 ∧ librariesLoaded w' = librariesLoaded w1 ∧
    readers w' = readers w1 ∧ timers w' = timers w1 ∧
    captures w' = captures w1 ∧ out w' = out w1 ∧
    tree w' = tree (render w1) ∧
    (deps_of w' = deps_of w →
       heap w' = heap w ∧ draggableInstancesRef w' = draggableInstancesRef w).
Proof.
  intros (Hdeps & Hclean & Hg & Href & Hok & Hkeys & Hdoc) Hen Hne.
  destruct (handle_enabled e w Hen) as [w1 Hw1].
  destruct (handle_frame e w w1 Hw1) as (Fref & Fheap & Fdeps & Fclean & Ftree & Fload & Fg).
  destruct (commit_sound w1 (deps_of w)) as (w' & Hc & Hs & Ht & Hsame).
  - congruence.
  - by rewrite Fclean, Hclean.
  - destruct e; try (destruct Fg as [Fl ->]; [done|]; rewrite Fl; exact Hg).
    simpl in Hw1. injection Hw1 as <-. simpl.
    destruct gsap0; [done|by destruct Hne].
  - by rewrite Fref.
  - by rewrite Ftree.
  - exists w1, w'. unfold step. rewrite Hen, Hw1. simpl.
    destruct (commit_frame w1 w' Hc) as (C1 & C2 & C3 & C4 & C5 & C6).
    split_and!; try done.
    intros Hd. rewrite <- Fheap, <- Fref. apply Hsame.
    rewrite <- Hd. unfold deps_of. by rewrite C1, C2.
Qed.

Lemma mounted_sound (w : World) : mounted = Some w → sound w.
Proof.
  intros [= <-]. split_and!; try done. split_and!; simpl; try done.
  - apply NoDup_nil_2.
  - apply NoDup_nil_2.
  - intros el Hel. by apply elem_of_nil in Hel.
Qed.

(** The flag set while GSAP is not defined: the effect throws at
    [window.gsap.registerPlugin], so the turn of the event loop has no
    result. *)
Lemma step_without_gsap (w : World) :
  sound w → step (ScriptsLoaded false) w = None.
Proof.
  intros (Hdeps & Hclean & _). unfold step. simpl.
  destruct (librariesLoaded w) eqn:Hl; [done|]. simpl.
  unfold commit, run_effect, draggable_effect. simpl.
  rewrite Hdeps, Hclean. simpl.
  rewrite bool_decide_eq_false_2; [done|].
  unfold deps_of. simpl. rewrite Hl. intros [=].
Qed.

Lemma reachable_sound (w : World) : reachable w → sound w.
Proof.
  induction 1 as [w Hm|w e w' _ IH Hs].
  - by apply mounted_sound.
  - assert (Hcase : e = ScriptsLoaded false ∨ e ≠ ScriptsLoaded false).
    { destruct e; try (right; discriminate).
      destruct gsap0; [right; discriminate|by left]. }
    destruct Hcase as [->|Hne].
    + by rewrite (step_without_gsap w IH) in Hs.
    + unfold step in Hs. destruct (enabled e w) eqn:Hen; [|done].
      destruct (step_sound e w IH Hen Hne) as (w1 & w'' & _ & Hs' & Hsound & _).
      unfold step in Hs'. rewrite Hen in Hs'. congruence.
Qed.

Lemma run_reachable (es : list event) : ∀ w w',
  reachable w → World.run es w = Some w' → reachable w'.
Proof.
  induction es as [|e es IH]; intros w w' Hr H; simpl in H.
  - by injection H as <-.
  - apply bind_Some in H as (w1 & H1 & H2).
    apply (IH w1); [|done]. by apply (reach_step w e).
Qed.

End DragSync.

Section Rebuild.

(** *** With distinct ids: one behaviour per field *)

(** In a synced world the live instances are the ones the ref holds, each
    bound to the element of the field at its position. *)
Lemma synced_live (w : World) :
  synced w →
  draggableInstancesRef w = Some <$> live_instances w ∧
  length (live_instances w) =
    (if librariesLoaded w then length (fields (st w)) else 0%nat) ∧
  ∀ k d, live_instances w !! k = Some d →
    ∃ i, heap w !! d = Some i ∧ alive i = true ∧
         target i = node_at (tree w) k ∧
         mkElement (target i) k ∈ document (tree w).
Proof.
  intros (Hsound & _ & dead & att & Hh & Hdead & Href & Hatt & Hlen).
  assert (E : live_instances w = seq (length dead) (length att)).
  { unfold live_instances. rewrite Hh, length_app, seq_app. simpl.
    rewrite List.filter_app, filter_all_false, filter_all_true; [done| |].
    - intros d Hd. apply elem_of_seq in Hd. unfold live. rewrite Hh.
      rewrite lookup_app_r by lia.
      destruct (att !! (d - length dead)%nat) as [i|] eqn:Hi.
      + by apply Hatt in Hi as [-> _].
      + apply lookup_ge_None in Hi. lia.
    - intros d Hd. apply elem_of_seq in Hd. unfold live. rewrite Hh.
      rewrite lookup_app_l by lia.
      destruct (dead !! d) as [i|] eqn:Hi; [|done].
      rewrite Forall_lookup in Hdead. by apply (Hdead d i). }
  rewrite E. split_and!; [done|by rewrite length_seq|].
  intros k d Hk. apply lookup_seq in Hk as [-> Hk].
  destruct (att !! k) as [i|] eqn:Hi.
  - exists i. rewrite Hh, lookup_app_r by lia.
    replace (length dead + k - length dead)%nat with k by lia.
    destruct (Hatt k i Hi) as [Ha Ht]. split_and!; try done.
    destruct Hsound as (_ & _ & _ & _ & (_ & _ & Hel & _) & Hkeys & _).
    assert (Hkc : (k < length (children (tree w)))%nat).
    { rewrite <- (length_fmap fkey), Hkeys. rewrite Hlen in Hk.
      destruct (librariesLoaded w); [|lia].
      rewrite length_fmap. unfold ids. by rewrite length_map. }
    destruct (lookup_lt_is_Some_2 _ _ Hkc) as [f Hf].
    rewrite Ht. unfold node_at. rewrite Hf. simpl.
    by apply Hel.
  - apply lookup_ge_None in Hi. lia.
Qed.

Lemma killed_of_dead (l : list Draggable) :
  Forall (λ i, alive i = false) l → killed <$> l = l.
Proof.
  induction 1 as [|i l Hi _ IH]; [done|]. rewrite fmap_cons, IH.
  destruct i as [t c a]. simpl in Hi. by subst a.
Qed.

Lemma cleanup_spec (w : World) (dead att : list Draggable) :
  heap w = dead ++ att →
  draggableInstancesRef w = Some <$> seq (length dead) (length att) →
  draggable_cleanup w
  = Some (set_drag (draggableInstancesRef w) (dead ++ (killed <$> att)) w).
Proof.
  intros Hh Href. unfold draggable_cleanup.
  rewrite Hh, Href. rewrite <- (app_nil_r att) at 2.
  rewrite kill_all_seq. simpl. by rewrite app_nil_r.
Qed.

(** In a document without a left-over element every selector selects the
    node of the child at its index and no other. *)
Lemma query_class_child (t : Tree) (j : nat) :
  tree_ok t → (∀ el, el ∈ document t → node el ∈ fnode <$> children t) →
  (j < length (children t))%nat →
  query_class ("draggable-" +:+ num_to_string (Z.of_nat j)) (document t)
  = [node_at t j].
Proof.
  intros (Hc & Hd & Hel & _) Hstale Hj.
  destruct (lookup_lt_is_Some_2 _ _ Hj) as [f Hf].
  unfold node_at. rewrite Hf. simpl.
  apply query_class_single; [done|by apply Hel|].
  intros y Hy. specialize (Hstale _ Hy). simpl in Hstale.
  apply list_elem_of_lookup in Hstale as [j' Hj'].
  apply list_lookup_fmap_Some in Hj' as (f' & -> & Hf').
  pose proof (NoDup_nodes_eq _ _ _ Hd Hy (Hel j' f' Hf') eq_refl) as Heq.
  injection Heq as ->. congruence.
Qed.

Lemma effect_spec (w : World) (dead att : list Draggable) :
  librariesLoaded w = true → gsap w = true →
  heap w = dead ++ att →
  draggableInstancesRef w = Some <$> seq (length dead) (length att) →
  tree_ok (tree w) →
  (∀ el, el ∈ document (tree w) → node el ∈ fnode <$> children (tree w)) →
  length (children (tree w)) = length (fields (st w)) →
  draggable_effect w
  = Some (set_drag (Some <$> seq (length (heap w)) (length (fields (st w))))
                   ((dead ++ (killed <$> att))
                    ++ imap (λ j field, mkDraggable (node_at (tree w) j) field true)
                            (fields (st w)))
                   w, true).
Proof.
  intros Hl Hg Hh Href Hok Hstale Hlen. unfold draggable_effect.
  rewrite Hl, Hg. simpl.
  rewrite Hh, Href. rewrite <- (app_nil_r att) at 2.
  rewrite kill_all_seq. simpl. rewrite app_nil_r.
  rewrite (attach_from_spec _ (node_at (tree w))).
  - simpl. by rewrite !length_app, length_fmap.
  - intros j Hj. simpl. apply query_class_child; [done|done|]. by rewrite Hlen.
Qed.

Lemma omap_fmap_id {A B} (f : A → option B) (l : list A) :
  omap f l = omap id (f <$> l).
Proof.
  induction l as [|x l IH]; [done|].
  change (omap f (x :: l)) with (match f x with Some y => y :: omap f l | None => omap f l end).
  change (omap id (f <$> x :: l))
    with (match f x with Some y => y :: omap id (f <$> l) | None => omap id (f <$> l) end).
  by rewrite IH.
Qed.

(** Numbers make distinct keys of distinct ids. *)
Lemma keys_NoDup (l : list value) :
  Forall (λ v, ∃ n, v = VNum n) l → NoDup l → NoDup (omap react_key l).
Proof.
  induction l as [|a l IH]; intros Hn Hnd; [apply NoDup_nil_2|].
  apply Forall_cons in Hn as [[n ->] Hn]. apply NoDup_cons in Hnd as [Ha Hnd].
  simpl. apply NoDup_cons. split; [|by apply IH].
  intros Hin. apply list_elem_of_omap in Hin as (b & Hb & Hk).
  rewrite Forall_forall in Hn. destruct (Hn b Hb) as [m ->].
  simpl in Hk. injection Hk as Hk. unfold num_to_string in Hk.
  apply (inj (pretty : Z → string)) in Hk as ->. done.
Qed.

(** One turn of the event loop from a synced world whose ids are distinct
    numbers, for a callback that leaves the ids alone unless it changes the
    number of fields: it does not throw, it ends synced, and the
    behaviours are rebuilt when, and only when, a dependency of the effect
    has changed. *)
Lemma step_synced (e : event) (w : World) :
  synced w → enabled e w = true → e ≠ ScriptsLoaded false →
  NoDup (ids (fields (st w))) →
  Forall (λ v, ∃ n, v = VNum n) (ids (fields (st w))) →
  (∀ w1, handle e w = Some w1 →
     length (fields (st w1)) = length (fields (st w)) →
     ids (fields (st w1)) = ids (fields (st w))) →
  ∃ w', step e w = Some w' ∧ synced w' ∧
    (deps_of w' = deps_of w →
       heap w' = heap w ∧ draggableInstancesRef w' = draggableInstancesRef w ∧
       tree w' = tree w) ∧
    (deps_of w' ≠ deps_of w → librariesLoaded w' = true →
       heap w' = (killed <$> heap w)
                 ++ imap (λ j field, mkDraggable (node_at (tree w') j) field true)
                         (fields (st w')) ∧
       draggableInstancesRef w'
       = Some <$> seq (length (heap w)) (length (fields (st w')))).
Proof.
  intros (Hsound & Hstale & dead & att & Hh & Hdead & Href & Hatt & Hlen)
         Hen Hne Hnd Hnum Hids.
  destruct (step_sound e w Hsound Hen Hne)
    as (w1 & w' & Hw1 & Hstep & Hsound' & Hst & Hl & _ & _ & _ & _ & Ht & Hsame).
  specialize (Hids w1 Hw1).
  destruct (handle_frame e w w1 Hw1)
    as (Fref & Fheap & Fdeps & Fclean & Ftree & Fload & Fg).
  pose proof Hsound as (Hdeps & Hclean & Hg & _ & Hok & Hkeys & Hdoc).
  pose proof Hsound' as (Hdeps' & Hclean' & Hg' & _ & Hok' & Hkeys' & Hdoc').
  exists w'. split; [done|].
  (* the document after the commit holds no left-over element *)
  assert (Hstale' : ∀ el, el ∈ document (tree w') →
                          node el ∈ fnode <$> children (tree w')).
  { rewrite Ht. unfold render. simpl. destruct (librariesLoaded w1).
    - rewrite Ftree.
      destruct (render_fields_ok (fields (st w1)) (tree w) Hok) as (_ & _ & H3).
      apply H3; [|done].
      rewrite omap_fmap_id, Hkeys. destruct (librariesLoaded w); [|apply NoDup_nil_2].
      rewrite <- omap_fmap_id. by apply keys_NoDup.
    - simpl. intros el Hel. by apply elem_of_nil in Hel. }
  assert (Hlenc : librariesLoaded w' = true →
                  length (children (tree w')) = length (fields (st w'))).
  { intros Hl'. rewrite <- (length_fmap fkey), Hkeys', Hl', length_fmap.
    unfold ids. by rewrite length_map. }
  destruct (decide (deps_of w' = deps_of w)) as [Hd|Hd].
  - (* no dependency changed *)
    destruct (Hsame Hd) as [Hh' Href'].
    assert (Hll : librariesLoaded w' = librariesLoaded w).
    { by apply (f_equal dep_loaded) in Hd. }
    assert (Hn : length (fields (st w')) = length (fields (st w))).
    { by apply (f_equal dep_length) in Hd. }
    assert (Htree : tree w' = tree w).
    { rewrite Ht. unfold render. rewrite <- Hl, Hll, Ftree.
      destruct (librariesLoaded w) eqn:El.
      - simpl. rewrite render_fields_same; [by destruct (tree w)|done|].
        rewrite Hkeys, Hids; [done|]. by rewrite <- Hst.
      - simpl. specialize (Hdoc eq_refl). apply fmap_nil_inv in Hkeys.
        destruct (tree w) as [c d n]. simpl in *. by subst c d. }
    split; [|split; [done|intros Hc; by destruct Hc]].
    split; [done|]. split; [done|].
    exists dead, att. rewrite Hh', Href', Htree, Hll, Hn. split_and!; done.
  - (* a dependency changed: cleanup, then the effect *)
    assert (Hc : commit w1 = Some w').
    { unfold step in Hstep. rewrite Hen, Hw1 in Hstep. exact Hstep. }
    unfold commit in Hc.
    destruct (run_effect_frame _ _ Hc) as (_ & _ & Hgr & _).
    assert (Hr : st (render w1) = st w1 ∧
                 librariesLoaded (render w1) = librariesLoaded w1 ∧
                 gsap (render w1) = gsap w1 ∧
                 draggableInstancesRef (render w1) = draggableInstancesRef w1 ∧
                 heap (render w1) = heap w1 ∧ lastDeps (render w1) = lastDeps w1 ∧
                 hasCleanup (render w1) = hasCleanup w1 ∧
                 deps_of (render w1) = deps_of w1) by done.
    destruct Hr as (R1 & R2 & R3 & R4 & R5 & R6 & R7 & R8).
    revert Hc Ht Hgr R1 R2 R3 R4 R5 R6 R7 R8. generalize (render w1). intros wr.
    intros Hc Ht Hgr R1 R2 R3 R4 R5 R6 R7 R8.
    assert (Hd1 : deps_of w1 = deps_of w').
    { unfold deps_of. by rewrite Hst, Hl. }
    unfold run_effect in Hc. rewrite R6, Fdeps, Hdeps, R8, Hd1 in Hc.
    rewrite bool_decide_eq_false_2 in Hc by congruence.
    rewrite R7, Fclean, Hclean in Hc.
    destruct (librariesLoaded w') eqn:Hl'.
    + (* the libraries are there: rebuild *)
      assert (Hk : ∃ att1 w2, length att1 = length att ∧
                 killed <$> att1 = killed <$> att ∧
                 (if librariesLoaded w then draggable_cleanup wr else Some wr)
                 = Some w2 ∧
                 heap w2 = dead ++ att1 ∧
                 draggableInstancesRef w2 = draggableInstancesRef wr ∧
                 st w2 = st wr ∧ librariesLoaded w2 = librariesLoaded wr ∧
                 gsap w2 = gsap wr ∧ tree w2 = tree wr).
      { destruct (librariesLoaded w).
        - exists (killed <$> att), (set_drag (draggableInstancesRef wr)
                                            (dead ++ (killed <$> att)) wr).
          rewrite length_fmap. split; [done|].
          split; [by rewrite <- list_fmap_compose|].
          split; [|done]. apply cleanup_spec; congruence.
        - exists att, wr. split_and!; try done. congruence. }
      destruct Hk as (att1 & w2 & Hlen1 & Hkill1 & Hk & K1 & K2 & K3 & K4 & K5 & K6).
      rewrite Hk in Hc. simpl in Hc.
      rewrite (effect_spec w2 dead att1) in Hc.
      * simpl in Hc. injection Hc as Hc.
        assert (Hkh : killed <$> heap w = dead ++ (killed <$> att)).
        { rewrite Hh, fmap_app. by rewrite killed_of_dead. }
        pose proof (f_equal heap Hc) as Hheap. simpl in Hheap.
        pose proof (f_equal draggableInstancesRef Hc) as Href'. simpl in Href'.
        rewrite K6, <- Ht, K3, R1, <- Hst, Hkill1, <- Hkh in Hheap.
        rewrite K1, K3, R1, <- Hst, length_app, Hlen1,
                <- (length_app dead att), <- Hh in Href'.
        clear Hc.
        split; [|split; [intros Hc; by destruct Hd|done]].
        split; [done|]. split; [done|].
        exists (killed <$> heap w),
               (imap (λ j field, mkDraggable (node_at (tree w') j) field true)
                     (fields (st w'))).
        split_and!; try done.
        -- rewrite Hkh. apply Forall_app. split; [done|apply killed_dead].
        -- by rewrite length_imap, length_fmap.
        -- intros j i Hi. apply list_lookup_imap_Some in Hi as (f & _ & ->). done.
        -- by rewrite length_imap, Hl'.
      * by rewrite K4, R2, Hl.
      * rewrite K5, <- Hgr. by apply Hg'.
      * done.
      * rewrite K2, R4, Fref, Href. by rewrite Hlen1.
      * by rewrite K6, <- Ht.
      * by rewrite K6, <- Ht.
      * rewrite K6, <- Ht, K3, R1, <- Hst. by apply Hlenc.
    + (* still on the loading screen: the effect returns at once *)
      assert (Hlw : librariesLoaded w = false).
      { destruct (librariesLoaded w); [|done]. specialize (Fload eq_refl). congruence. }
      rewrite Hlw in Hc. simpl in Hc. unfold draggable_effect in Hc.
      rewrite R2, <- Hl in Hc. simpl in Hc. injection Hc as Hc.
      pose proof (f_equal heap Hc) as Hheap. simpl in Hheap.
      pose proof (f_equal draggableInstancesRef Hc) as Href'. simpl in Href'.
      rewrite R5, Fheap in Hheap. rewrite R4, Fref in Href'. clear Hc.
      split; [|split; [intros Hc; by destruct Hd|done]].
      split; [done|]. split; [done|].
      exists dead, att. rewrite <- Hheap, <- Href'.
      rewrite Hlw in Hlen. split_and!; try done.
      * intros j i Hi. apply lookup_lt_Some in Hi. lia.
      * by rewrite Hl'.
Qed.

End Rebuild.

Section Leak.


End Leak.

(** ** Turns of the event loop *)

Section Steps.

Lemma step_inv (e : event) (w w' : World) :
  step e w = Some w' →
  enabled e w = true ∧
  ∃ w1, handle e w = Some w1 ∧ commit w1 = Some w' ∧
    st w' = st w1 ∧ librariesLoaded w' = librariesLoaded w1 ∧
    readers w' = readers w1 ∧ timers w' = timers w1 ∧
    captures w' = captures w1 ∧ out w' = out w1.
Proof.
  unfold step. destruct (enabled e w); [|done]. intros H.
  apply bind_Some in H as (w1 & H1 & H2). split; [done|].
  exists w1. split; [done|]. split; [done|]. by apply commit_frame.
Qed.

Lemma step_total (e : event) (w : World) :
  sound w → enabled e w = true → e ≠ ScriptsLoaded false →
  ∃ w1 w', handle e w = Some w1 ∧ step e w = Some w' ∧ sound w' ∧
    st w' = st w1 ∧ librariesLoaded w' = librariesLoaded w1 ∧
    readers w' = readers w1 ∧ timers w' = timers w1 ∧
    captures w' = captures w1 ∧ out w' = out w1.
Proof.
  intros Hs Hen Hne.
  destruct (step_sound e w Hs Hen Hne)
    as (w1 & w' & H1 & H2 & H3 & H4 & H5 & H6 & H7 & H8 & H9 & _).
  exists w1, w'. split_and!; done.
Qed.

Lemma ready_reachable : reachable ready.
Proof.
  apply (reach_step (set_effect (Some (deps_of unmounted)) false unmounted)
                    (ScriptsLoaded true)).
  - apply reach_mount. reflexivity.
  - vm_compute. reflexivity.
Qed.

(** The scenario of the specification: two seed fields; an add makes three
    with the new field active; deleting the two seed fields leaves the new
    field, still active, with one live behaviour; selecting a template
    clears the selection. *)
Example seed_add_delete_select :
  let t := 1700000000000 in
  let es := [ScriptsLoaded true; AddField t] in
  let es' := es ++ [DeleteField (VNum 1); DeleteField (VNum 2)] in
  let es'' := es' ++ [SelectMeme (VStr "https://i.imgflip.com/30b1gx.jpg")] in
  (λ w, (ids (fields (st w)), activeFieldId (st w), live_instances w))
    <$> (mounted ≫= World.run es)
  = Some ([VNum 1; VNum 2; VNum t], VNum t, [2; 3; 4]%nat) ∧
  (λ w, (ids (fields (st w)), activeFieldId (st w), live_instances w))
    <$> (mounted ≫= World.run es')
  = Some ([VNum t], VNum t, [7%nat]) ∧
  (λ w, (ids (fields (st w)), activeFieldId (st w), imageUrl (st w)))
    <$> (mounted ≫= World.run es'')
  = Some ([VNum t], VNull, VStr "https://i.imgflip.com/30b1gx.jpg").
Proof. cbv zeta. split_and!; vm_compute; reflexivity. Qed.

End Steps.

(** ** Background and selection *)

Section Background.

(** C10: the upload handler with no file (a nullish or an empty file list)
    returns the world it was given, so neither the background nor the
    active field id changes, and the turn of the event loop ends in the
    same world; with a file it clears the active field id at once and
    starts a read, leaving the background as it is, and the active field
    id is none whatever result the read ends with ([null] for a failed
    read). *)
Theorem upload_without_file_is_noop (w : World) :
  handleImageUpload None w = w ∧
  handleImageUpload (Some []) w = w ∧
  (reachable w → librariesLoaded w = true →
     step (ImageUpload None) w = Some w ∧
     step (ImageUpload (Some [])) w = Some w) ∧
  ∀ (file : string) (rest : list string),
    let w' := handleImageUpload (Some (file :: rest)) w in
    activeFieldId (st w') = VNull ∧
    meme (st w') = meme (st w) ∧
    fields (st w') = fields (st w) ∧
    readers w' = S (readers w) ∧
    ∀ result : value,
      activeFieldId (st (reader_onloadend result w')) = VNull ∧
      imageUrl (st (reader_onloadend result w')) = result.
Proof.
  split_and!; try reflexivity.
  - intros Hr Hl. apply reachable_sound in Hr.
    unfold step. simpl. rewrite Hl. simpl.
    change (handleImageUpload None w) with w.
    change (handleImageUpload (Some []) w) with w.
    by rewrite (commit_same w Hr).
  - intros file rest w'. subst w'. split_and!; try reflexivity.
    intros result. split; [reflexivity|].
    unfold imageUrl, reader_onloadend. simpl.
    unfold get. by rewrite lookup_singleton_eq.
Qed.

Lemma imageUrl_set (u : value) : get ({[ "imageUrl" := u ]} : obj) "imageUrl" = u.
Proof. unfold get. by rewrite lookup_singleton_eq. Qed.

(** C5, as stated, fails: a file is picked (which clears the selection),
    the first field is clicked while the read is in flight, and when the
    read ends the background changes with field 1 still active. *)
Lemma upload_read_end_keeps_selection :
  let before := mounted ≫= World.run [ScriptsLoaded true;
                                      ImageUpload (Some ["cat.png"]);
                                      FieldClick 0] in
  let after := before ≫= step (ReaderLoadEnd (VStr "data:image/png;base64,AAAA")) in
  (λ w, (imageUrl (st w), activeFieldId (st w))) <$> before
  = Some (VStr INITIAL_IMAGE_URL, VNum 1) ∧
  (λ w, (imageUrl (st w), activeFieldId (st w))) <$> after
  = Some (VStr "data:image/png;base64,AAAA", VNum 1).
Proof. cbv zeta. split; vm_compute; reflexivity. Qed.

(** C5, amended: a template selection makes the chosen url the background
    image source, and a random template, when the gallery is not empty,
    the url of the drawn entry; both leave the active field id none in
    the same turn of the event loop, whether or not the source differs
    from the one before.  With an empty gallery the random template
    changes nothing.  The upload handler, given a file, clears the active
    field id at once and starts the read without touching the background,
    and given no file it changes nothing; the background becomes the
    result of the read later, when the read ends, and that turn leaves
    the active field id as it is at that moment.  No other turn changes
    the background image source. *)
Theorem background_change_and_selection (w : World) (e : event) (w' : World) :
  step e w = Some w' →
  match e with
  | SelectMeme url =>
      imageUrl (st w') = url ∧ activeFieldId (st w') = VNull
  | RandomMeme idx =>
      (allMemes (st w) = [] → st w' = st w) ∧
      (allMemes (st w) ≠ [] →
       ∃ m, allMemes (st w) !! idx = Some m ∧
            imageUrl (st w') = get m "url" ∧ activeFieldId (st w') = VNull)
  | ImageUpload files =>
      imageUrl (st w') = imageUrl (st w) ∧
      match files ≫= head with
      | Some file => activeFieldId (st w') = VNull ∧ readers w' = S (readers w)
      | None => st w' = st w ∧ readers w' = readers w
      end
  | ReaderLoadEnd result =>
      imageUrl (st w') = result ∧ activeFieldId (st w') = activeFieldId (st w)
  | _ => imageUrl (st w') = imageUrl (st w)
  end.
Proof.
  intros Hstep.
  destruct (step_inv e w w' Hstep) as (_ & w1 & H1 & _ & Hst & _ & Hrd & _).
  rewrite Hst, Hrd. clear Hstep Hst Hrd.
  destruct e; simpl in H1;
    try (apply bind_Some in H1 as (? & H0 & H1));
    injection H1 as <-; simpl; try done.
  - unfold handleRandomMeme in H0. case_bool_decide as Hlen.
    + injection H0 as <-. split; [done|].
      intros Hne. destruct (allMemes (st w)); [done|discriminate Hlen].
    + apply bind_Some in H0 as (m & Hm & [= <-]). split.
      * intros Hnil. rewrite Hnil in Hlen. by destruct Hlen.
      * intros _. exists m. split; [done|]. split; [apply imageUrl_set|done].
  - unfold imageUrl. by destruct (handleDeleteField_meme id (st w)) as [-> _].
  - unfold handleImageUpload. by destruct (files ≫= head).
  - unfold handleCanvasClick. by destruct onBackground.
  - unfold handleDownloadMeme. by destruct html2canvas.
  - unfold export_timeout, memeRef_current. simpl.
    by destruct (librariesLoaded w).
Qed.

Lemma background_change_and_selection_witness :
  let url := VStr "https://i.imgflip.com/30b1gx.jpg" in
  ∃ w', step (SelectMeme url) ready = Some w' ∧
        imageUrl (st w') = url ∧ activeFieldId (st w') = VNull.
Proof.
  intros url.
  destruct (step_total (SelectMeme url) ready (reachable_sound _ ready_reachable)
              eq_refl ltac:(discriminate))
    as (w1 & w' & _ & Hstep & _).
  exists w'. split; [exact Hstep|].
  exact (background_change_and_selection ready (SelectMeme url) w' Hstep).
Defined.

End Background.

(** ** Export *)

Section ExportPipeline.

(** C4, as stated, fails: with field 1 selected and [window.html2canvas]
    undefined, the export handler logs and returns; the selection stays,
    no timer is set, nothing is captured and nothing is downloaded. *)
Lemma export_without_html2canvas_keeps_selection :
  let before := mounted ≫= World.run [ScriptsLoaded true; FieldClick 0] in
  let after := before ≫= step (DownloadClick false) in
  (λ w, (activeFieldId (st w), timers w, captures w, out w)) <$> before
  = Some (VNum 1, [], 0%nat, []) ∧
  (λ w, (activeFieldId (st w), timers w, captures w, out w)) <$> after
  = Some (VNum 1, [], 0%nat, [ConsoleError "html2canvas not loaded" None]).
Proof. cbv zeta. split; vm_compute; reflexivity. Qed.

(** C4, amended: in every reachable state past the loading screen, the
    export handler run while [window.html2canvas] is defined clears the
    active field id and sets a timer of the fixed settle delay of 150 ms,
    without capturing anything yet; when a settle timer fires the
    composition is captured with [useCORS: true], a [null] (transparent)
    background colour and logging off; a capture that succeeds starts a
    download named [meme-<timestamp>.png] with the canvas data URL, a
    capture that fails is logged and starts no download.  Run while
    [window.html2canvas] is undefined, the handler only logs
    "html2canvas not loaded" and leaves the state as it is. *)
Theorem export_clears_then_captures
    (w : World) (dataUrl : string) (now : Z) (err : string) :
  reachable w → librariesLoaded w = true →
  (∃ w0, step (DownloadClick false) w = Some w0 ∧
     st w0 = st w ∧ timers w0 = timers w ∧ captures w0 = captures w ∧
     out w0 = out w ++ [ConsoleError "html2canvas not loaded" None]) ∧
  ∃ w1 w2 w3 w4,
    step (DownloadClick true) w = Some w1 ∧
    activeFieldId (st w1) = VNull ∧
    fields (st w1) = fields (st w) ∧ meme (st w1) = meme (st w) ∧
    out w1 = out w ∧ captures w1 = captures w ∧
    timers w1 = timers w ++ [150] ∧
    step TimeoutFire w1 = Some w2 ∧
    activeFieldId (st w2) = VNull ∧
    out w2 = out w ++ [Html2canvasCall true VNull false] ∧
    captures w2 = S (captures w) ∧
    step (CaptureResolved dataUrl now) w2 = Some w3 ∧
    out w3 = out w2 ++ [DownloadFile ("meme-" +:+ num_to_string now +:+ ".png")
                                     dataUrl] ∧
    step (CaptureRejected err) w2 = Some w4 ∧
    out w4 = out w2 ++ [ConsoleError "Canvas capture error:" (Some err)].
Proof.
  intros Hr Hl. pose proof (reachable_sound w Hr) as Hs. split.
  - destruct (step_total (DownloadClick false) w Hs Hl ltac:(discriminate))
      as (w1 & w0 & H1 & Hstep & _ & Hst & _ & _ & Ht & Hc & Ho).
    injection H1 as <-. exists w0. by rewrite Hst, Ht, Hc, Ho.
  - destruct (step_total (DownloadClick true) w Hs Hl ltac:(discriminate))
      as (w1h & w1 & H1 & Hstep1 & Hs1 & Hst1 & Hl1 & _ & Ht1 & Hc1 & Ho1).
    injection H1 as <-. simpl in *.
    assert (Hen2 : enabled TimeoutFire w1 = true).
    { simpl. apply bool_decide_eq_true. rewrite Ht1.
      unfold SETTLE_DELAY. by destruct (timers w). }
    destruct (step_total TimeoutFire w1 Hs1 Hen2 ltac:(discriminate))
      as (w2h & w2 & H2 & Hstep2 & Hs2 & Hst2 & _ & _ & _ & Hc2 & Ho2).
    injection H2 as <-.
    unfold export_timeout, memeRef_current in *. simpl in *.
    rewrite Hl1, Hl in *. simpl in *.
    assert (Hen3 : enabled (CaptureResolved dataUrl now) w2 = true).
    { simpl. apply bool_decide_eq_true. rewrite Hc2. lia. }
    destruct (step_total (CaptureResolved dataUrl now) w2 Hs2 Hen3 ltac:(discriminate))
      as (w3h & w3 & H3 & Hstep3 & _ & _ & _ & _ & _ & _ & Ho3).
    injection H3 as <-.
    destruct (step_total (CaptureRejected err) w2 Hs2 Hen3 ltac:(discriminate))
      as (w4h & w4 & H4 & Hstep4 & _ & _ & _ & _ & _ & _ & Ho4).
    injection H4 as <-.
    exists w1, w2, w3, w4. simpl in *.
    rewrite Hst2, Hst1, Ho1, Hc1, Ht1, Ho3, Ho4, Ho2, Hc2, Ho1, Hc1.
    split_and!; done.
Qed.

Lemma export_clears_then_captures_witness :
  ∃ w1 w2 w3,
    step (DownloadClick true) ready = Some w1 ∧
    activeFieldId (st w1) = VNull ∧ timers w1 = [150] ∧ out w1 = [] ∧
    step TimeoutFire w1 = Some w2 ∧
    out w2 = [Html2canvasCall true VNull false] ∧
    step (CaptureResolved "data:image/png;base64,iVBOR" 1700000000000) w2 = Some w3 ∧
    out w3 = [Html2canvasCall true VNull false;
              DownloadFile "meme-1700000000000.png" "data:image/png;base64,iVBOR"].
Proof.
  destruct (export_clears_then_captures ready "data:image/png;base64,iVBOR"
              1700000000000 "tainted canvas" ready_reachable eq_refl)
    as (_ & w1 & w2 & w3 & w4 & H1 & H2 & _ & _ & H5 & _ & H7 & H8 & _ & H10
          & _ & H12 & H13 & _).
  exists w1, w2, w3. split_and!; try assumption.
  rewrite H13, H10. reflexivity.
Defined.

End ExportPipeline.

(** ** The script loader *)

Section Loader.

Import ScriptLoader.

Lemma has_script_true (s : string) (doc : list Script) :
  has_script s doc = true ↔ s ∈ src <$> doc.
Proof. unfold has_script. apply bool_decide_eq_true. Qed.

Lemma linked_bound (doc : list Script) (ps : list promise) e s p :
  linked doc ps → doc !! e = Some s → handler s = Some p → (p < length ps)%nat.
Proof.
  intros [H _] He Hp. apply lookup_lt_is_Some. rewrite (H e s p He Hp). eauto.
Qed.

(** One call of [loadScript] keeps the elements and the promises linked,
    only appends, and leaves an element for its source in the document. *)
Lemma loadScript_spec (s : string) (doc : list Script) (ps : list promise) :
  linked doc ps →
  ∃ created more,
    loadScript s (doc, ps) = (doc ++ created, ps ++ more) ∧
    linked (doc ++ created) (ps ++ more) ∧
    Forall (λ el, is_Some (handler el)) created ∧
    s ∈ src <$> (doc ++ created).
Proof.
  intros Hl. unfold loadScript. destruct (has_script s doc) eqn:E.
  - apply has_script_true in E. exists [], [Fulfilled]. rewrite app_nil_r.
    split_and!; [done| |done|done].
    destruct Hl as [H1 H2]. split; [|done].
    intros e el p He Hp. rewrite lookup_app_l; [by apply (H1 e)|].
    by apply (linked_bound doc ps e el p).
  - exists [mkScript s Loading (Some (length ps))], [Pending].
    split_and!; [done| | |].
    + destruct Hl as [H1 H2]. split.
      * intros e el p He Hp. apply lookup_app_Some in He as [He|[Hge He]].
        -- rewrite lookup_app_l; [by apply (H1 e)|].
           by apply (linked_bound doc ps e el p).
        -- apply list_lookup_singleton_Some in He as [_ <-].
           simpl in Hp. injection Hp as <-.
           by rewrite lookup_app_r, Nat.sub_diag.
      * intros e e' el el' p He He' Hp Hp'.
        apply lookup_app_Some in He as [He|[Hge He]];
          apply lookup_app_Some in He' as [He'|[Hge' He']].
        -- by apply (H2 e e' el el' p).
        -- apply list_lookup_singleton_Some in He' as [_ <-].
           simpl in Hp'. injection Hp' as <-.
           pose proof (linked_bound doc ps e el _ (conj H1 H2) He Hp). lia.
        -- apply list_lookup_singleton_Some in He as [_ <-].
           simpl in Hp. injection Hp as <-.
           pose proof (linked_bound doc ps e' el' _ (conj H1 H2) He' Hp'). lia.
        -- apply list_lookup_singleton_Some in He as [He _].
           apply list_lookup_singleton_Some in He' as [He' _]. lia.
    + by repeat constructor.
    + rewrite fmap_app. apply elem_of_app. right. simpl. apply elem_of_cons. by left.
Qed.

Lemma loadScripts_spec (scripts : list string) : ∀ doc ps,
  linked doc ps →
  ∃ created more,
    loadScripts scripts (doc, ps) = (doc ++ created, ps ++ more) ∧
    linked (doc ++ created) (ps ++ more) ∧
    Forall (λ el, is_Some (handler el)) created ∧
    ∀ s, s ∈ scripts → s ∈ src <$> (doc ++ created).
Proof.
  induction scripts as [|s scripts IH]; intros doc ps Hl.
  - exists [], []. rewrite !app_nil_r. split_and!; [done..|].
    intros s Hs. by apply elem_of_nil in Hs.
  - change (loadScripts (s :: scripts) (doc, ps))
      with (loadScripts scripts (loadScript s (doc, ps))).
    destruct (loadScript_spec s doc ps Hl) as (c1 & m1 & -> & Hl1 & Hc1 & Hs1).
    destruct (IH _ _ Hl1) as (c2 & m2 & E & Hl2 & Hc2 & Hs2).
    rewrite E.
    exists (c1 ++ c2), (m1 ++ m2). rewrite !app_assoc.
    split_and!; [done|done|by apply Forall_app|].
    intros s' Hs'. apply elem_of_cons in Hs' as [->|Hs']; [|by apply Hs2].
    rewrite fmap_app. apply elem_of_app. by left.
Qed.

Lemma present_linked (doc0 : list (string * status)) : linked (present <$> doc0) [].
Proof.
  split.
  - intros e s p He Hp. apply list_lookup_fmap_Some in He as (q & -> & _).
    discriminate Hp.
  - intros e e' s s' p He _ Hp. apply list_lookup_fmap_Some in He as (q & -> & _).
    discriminate Hp.
Qed.

Lemma on_fulfil_joined (l : Loader) :
  all l = Pending → loaded l = false → console l = [] → joined (on_fulfil l).
Proof.
  intros Ha Hl Hc. unfold on_fulfil, joined. rewrite Ha.
  destruct (forallb is_fulfilled (promises l)) eqn:E; simpl; [done|].
  by rewrite Ha.
Qed.

(** After the effect at mount. *)
Lemma mount_spec (scripts : list string) (doc0 : list (string * status)) :
  ∃ created,
    document (mount scripts doc0) = (present <$> doc0) ++ created ∧
    Forall (λ el, is_Some (handler el)) created ∧
    linked (document (mount scripts doc0)) (promises (mount scripts doc0)) ∧
    joined (mount scripts doc0) ∧
    ∀ s, s ∈ scripts → s ∈ src <$> document (mount scripts doc0).
Proof.
  destruct (loadScripts_spec scripts _ _ (present_linked doc0))
    as (created & more & E & Hl & Hc & Hs).
  unfold mount. rewrite E. exists created.
  assert (D : ∀ l, document (on_fulfil l) = document l ∧
                   promises (on_fulfil l) = promises l).
  { intros l. unfold on_fulfil. destruct (all l); [|done..].
    by destruct (forallb _ _). }
  destruct (D (mkLoader ((present <$> doc0) ++ created) ([] ++ more) Pending false []))
    as [-> ->]. simpl.
  split_and!; try done. by apply on_fulfil_joined.
Qed.

(** *** Load events *)

Lemma linked_update (doc : list Script) (ps : list promise) (e : nat)
    (s : Script) (st' : status) :
  linked doc ps → doc !! e = Some s →
  linked (<[e := mkScript (src s) st' (handler s)]> doc)
         (match handler s with
          | Some p => <[p := promise_of (mkScript (src s) st' (handler s))]> ps
          | None => ps
          end).
Proof.
  intros [H1 H2] He.
  assert (Hlt : (e < length doc)%nat) by (apply lookup_lt_is_Some; eauto).
  assert (Hh : ∀ e' el, <[e := mkScript (src s) st' (handler s)]> doc !! e' = Some el →
                 ∃ el0, doc !! e' = Some el0 ∧ handler el0 = handler el ∧
                        (e' ≠ e → el0 = el) ∧
                        (e' = e → el = mkScript (src s) st' (handler s))).
  { intros e' el Hel. destruct (decide (e' = e)) as [->|Hne].
    - rewrite list_lookup_insert_eq in Hel by done. injection Hel as <-.
      exists s. by split_and!.
    - rewrite list_lookup_insert_ne in Hel by done. exists el. by split_and!. }
  split.
  - intros e' el p Hel Hp.
    destruct (Hh e' el Hel) as (el0 & Hel0 & Hh0 & Hne & Heq).
    destruct (decide (e' = e)) as [->|Hd].
    + rewrite (Heq eq_refl) in *. simpl in Hp. rewrite Hp.
      rewrite list_lookup_insert_eq; [done|].
      apply (linked_bound doc ps e s p); [by split|done|done].
    + rewrite <- (Hne Hd) in *.
      destruct (handler s) as [q|] eqn:Hq; [|by apply (H1 e')].
      rewrite list_lookup_insert_ne; [by apply (H1 e')|].
      intros ->. apply Hd. by apply (H2 e' e el0 s p).
  - intros e1 e2 el1 el2 p Hel1 Hel2 Hp1 Hp2.
    destruct (Hh e1 el1 Hel1) as (a & Ha & Hha & _).
    destruct (Hh e2 el2 Hel2) as (b & Hb & Hhb & _).
    apply (H2 e1 e2 a b p); congruence.
Qed.

Lemma on_fulfil_frame (l : Loader) :
  document (on_fulfil l) = document l ∧ promises (on_fulfil l) = promises l.
Proof.
  unfold on_fulfil. destruct (all l); [|done..]. by destruct (forallb _ _).
Qed.

Lemma on_reject_frame (r : string) (l : Loader) :
  document (on_reject r l) = document l ∧ promises (on_reject r l) = promises l.
Proof. unfold on_reject. by destruct (all l). Qed.

Lemma forallb_pending (ps : list promise) (p : nat) :
  ps !! p = Some Pending → forallb is_fulfilled ps = false.
Proof.
  intros Hp. destruct (forallb is_fulfilled ps) eqn:E; [|done].
  rewrite forallb_forall in E. specialize (E Pending).
  rewrite <- list_elem_of_In in E.
  discriminate E. apply list_elem_of_lookup. eauto.
Qed.

(** A load event keeps the invariants and the shape of the document. *)
Lemma step_keeps (ev : event) (l : Loader) :
  linked (document l) (promises l) → joined l →
  linked (document (ScriptLoader.step ev l)) (promises (ScriptLoader.step ev l)) ∧
  joined (ScriptLoader.step ev l) ∧
  shape (document (ScriptLoader.step ev l)) = shape (document l).
Proof.
  intros Hl Hj.
  assert (Hshape : ∀ e s st', document l !! e = Some s →
            shape (<[e := mkScript (src s) st' (handler s)]> (document l))
            = shape (document l)).
  { intros e s st' He. unfold shape. rewrite list_fmap_insert. simpl.
    apply list_insert_id. by rewrite list_lookup_fmap, He. }
  destruct ev as [e|e]; simpl;
    (destruct (document l !! e) as [s|] eqn:He; [|done]);
    (destruct (status_of s) eqn:Hst; [|done..]).
  - (* onload *)
    pose proof (linked_update _ _ e s Loaded Hl He) as Hl'.
    destruct (handler s) as [p|] eqn:Hp.
    + assert (Hpp : promises l !! p = Some Pending).
      { destruct Hl as [H1 _]. rewrite (H1 e s p He Hp).
        unfold promise_of. by rewrite Hst. }
      unfold resolve, set_status. simpl. rewrite Hpp.
      match goal with |- context [on_fulfil ?x] =>
        destruct (on_fulfil_frame x) as [-> ->]; simpl;
        assert (Hjx : joined (on_fulfil x)) end.
      { unfold joined in Hj. destruct (all l) eqn:Ha.
        - destruct Hj as [Hj1 Hj2]. by apply on_fulfil_joined.
        - destruct Hj as [Hj1 _]. by rewrite (forallb_pending _ p Hpp) in Hj1.
        - unfold on_fulfil, joined. simpl. exact Hj. }
      split_and!; [rewrite Hp; exact Hl'|done|by apply Hshape].
    + unfold set_status. simpl.
      split_and!; [rewrite Hp; exact Hl'|exact Hj|by apply Hshape].
  - (* onerror *)
    pose proof (linked_update _ _ e s Failed Hl He) as Hl'.
    destruct (handler s) as [p|] eqn:Hp.
    + assert (Hpp : promises l !! p = Some Pending).
      { destruct Hl as [H1 _]. rewrite (H1 e s p He Hp).
        unfold promise_of. by rewrite Hst. }
      unfold reject, set_status. simpl. rewrite Hpp.
      match goal with |- context [on_reject ?r ?x] =>
        destruct (on_reject_frame r x) as [-> ->]; simpl;
        assert (Hjx : joined (on_reject r x)) end.
      { unfold joined in Hj. unfold on_reject, joined. simpl.
        destruct (all l) eqn:Ha; simpl.
        - destruct Hj as [Hj1 Hj2]. by rewrite Hj2.
        - destruct Hj as [Hj1 _]. by rewrite (forallb_pending _ p Hpp) in Hj1.
        - exact Hj. }
      split_and!; [rewrite Hp; exact Hl'|done|by apply Hshape].
    + unfold set_status. simpl.
      split_and!; [rewrite Hp; exact Hl'|exact Hj|by apply Hshape].
Qed.

Lemma run_keeps (evs : list event) : ∀ l : Loader,
  linked (document l) (promises l) → joined l →
  linked (document (ScriptLoader.run evs l)) (promises (ScriptLoader.run evs l)) ∧
  joined (ScriptLoader.run evs l) ∧
  shape (document (ScriptLoader.run evs l)) = shape (document l).
Proof.
  induction evs as [|ev evs IH]; intros l Hl Hj; [done|].
  destruct (step_keeps ev l Hl Hj) as (Hl1 & Hj1 & Hs1).
  destruct (IH _ Hl1 Hj1) as (Hl2 & Hj2 & Hs2).
  unfold ScriptLoader.run in *. simpl. split_and!; [done|done|congruence].
Qed.

(** Once [Promise.all] has rejected, the flag and the console are fixed. *)
Lemma rejected_forever (evs : list event) : ∀ (l : Loader) (r : string),
  linked (document l) (promises l) → joined l → all l = Rejected r →
  all (ScriptLoader.run evs l) = Rejected r.
Proof.
  induction evs as [|ev evs IH]; intros l r Hl Hj Ha; [done|].
  destruct (step_keeps ev l Hl Hj) as (Hl1 & Hj1 & _).
  unfold ScriptLoader.run in *. simpl. apply IH; [done|done|].
  destruct ev as [e|e]; simpl;
    (destruct (document l !! e) as [s|]; [|done]);
    (destruct (status_of s); [|done..]);
    (destruct (handler s) as [p|]; [|done]).
  - unfold resolve. simpl. destruct (promises l !! p) as [[| |]|]; try done.
    unfold on_fulfil. simpl. by rewrite Ha.
  - unfold reject. simpl. destruct (promises l !! p) as [[| |]|]; try done.
    unfold on_reject. simpl. by rewrite Ha.
Qed.

Lemma run_app (evs1 evs2 : list event) (l : Loader) :
  ScriptLoader.run (evs1 ++ evs2) l = ScriptLoader.run evs2 (ScriptLoader.run evs1 l).
Proof. unfold ScriptLoader.run. apply fold_left_app. Qed.

(** C3, as stated, fails: with a [script] element for the first library
    already in the document, its load having failed, the hook resolves that
    library's promise at once and sets the flag although the library has
    not loaded. *)
Lemma ready_with_failed_script_present :
  let url := "https://cdnjs.cloudflare.com/ajax/libs/html2canvas/1.4.1/html2canvas.min.js" in
  let l := mount [url] [(url, Failed)] in
  loaded l = true ∧ ¬ loaded_ok url (document l).
Proof.
  intros url l. split; [vm_compute; reflexivity|].
  intros (el & Hin & _ & Hst).
  assert (E : document l = [mkScript url Failed None]) by (vm_compute; reflexivity).
  rewrite E in Hin. apply elem_of_cons in Hin as [->|Hin].
  - discriminate Hst.
  - by apply elem_of_nil in Hin.
Qed.

(** C3, amended: the readiness flag is true only when every given resource
    either had a [script] element in the document before the hook ran or
    has an element whose load has succeeded; and once the load of an
    element that the hook appended fails, the flag is false and the
    console holds the one message of the first failure, after every
    further sequence of load events. *)
Theorem loader_ready_only_after_loads
    (scripts : list string) (doc0 : list (string * status)) :
  (∀ evs : list event,
     loaded (ScriptLoader.run evs (mount scripts doc0)) = true →
     ∀ s, s ∈ scripts →
       s ∈ doc0.*1 ∨
       loaded_ok s (document (ScriptLoader.run evs (mount scripts doc0)))) ∧
  (∀ (evs1 : list event) (e : nat) (evs2 : list event) (el : Script),
     document (ScriptLoader.run evs1 (mount scripts doc0)) !! e = Some el →
     status_of el = Loading → is_Some (handler el) →
     let l := ScriptLoader.run (evs1 ++ OnError e :: evs2) (mount scripts doc0) in
     loaded l = false ∧
     ∃ r, console l = [("Failed to load scripts:", r)] ∧
          (all (ScriptLoader.run evs1 (mount scripts doc0)) = Pending →
           r = load_error (src el))).
Proof.
  destruct (mount_spec scripts doc0) as (created & Hdoc & Hcr & Hl0 & Hj0 & Hcov).
  split.
  - intros evs Hloaded s Hs.
    destruct (run_keeps evs _ Hl0 Hj0) as (Hl & Hj & Hsh).
    set (l := ScriptLoader.run evs (mount scripts doc0)) in *.
    assert (Hall : forallb is_fulfilled (promises l) = true).
    { unfold joined in Hj. destruct (all l); destruct Hj as [Hj1 _]; congruence. }
    apply Hcov, list_elem_of_fmap in Hs as (el & -> & Hel).
    apply list_elem_of_lookup in Hel as [e He].
    assert (He' : ∃ el', document l !! e = Some el' ∧
                    src el' = src el ∧ handler el' = handler el).
    { apply (f_equal (λ d, d !! e)) in Hsh. unfold shape in Hsh.
      rewrite !list_lookup_fmap, He in Hsh. simpl in Hsh.
      destruct (document l !! e) as [el'|]; [|done].
      injection Hsh as H1 H2. by exists el'. }
    destruct He' as (el' & He' & Hsrc & Hh).
    destruct (handler el) as [p|] eqn:Hp.
    + right. exists el'. split; [by apply list_elem_of_lookup_2 in He'|].
      split; [done|].
      destruct Hl as [H1 _]. pose proof (H1 e el' p He' Hh) as Hpr.
      rewrite forallb_forall in Hall. specialize (Hall (promise_of el')).
      rewrite <- list_elem_of_In in Hall.
      assert (Hf : is_fulfilled (promise_of el') = true).
      { apply Hall. by apply list_elem_of_lookup_2 in Hpr. }
      unfold promise_of in Hf. by destruct (status_of el').
    + left. rewrite Hdoc in He. apply lookup_app_Some in He as [He|[_ He]].
      * apply list_lookup_fmap_Some in He as (q & -> & Hq). simpl.
        apply list_elem_of_fmap. exists q. split; [done|].
        by apply list_elem_of_lookup_2 in Hq.
      * rewrite Forall_lookup in Hcr. apply Hcr in He. rewrite Hp in He.
        by destruct He.
  - intros evs1 e evs2 el He Hst [p Hp] l. subst l. rewrite run_app.
    destruct (run_keeps evs1 _ Hl0 Hj0) as (Hl1 & Hj1 & _).
    set (l1 := ScriptLoader.run evs1 (mount scripts doc0)) in *.
    change (ScriptLoader.run (OnError e :: evs2) l1)
      with (ScriptLoader.run evs2 (ScriptLoader.step (OnError e) l1)).
    destruct (step_keeps (OnError e) l1 Hl1 Hj1) as (Hl2 & Hj2 & _).
    assert (Hpp : promises l1 !! p = Some Pending).
    { destruct Hl1 as [H1 _]. rewrite (H1 e el p He Hp).
      unfold promise_of. by rewrite Hst. }
    assert (Ha : ∃ r, all (ScriptLoader.step (OnError e) l1) = Rejected r ∧
                      (all l1 = Pending → r = load_error (src el))).
    { simpl. rewrite He, Hst, Hp. unfold reject, set_status. simpl. rewrite Hpp.
      unfold on_reject. simpl. unfold joined in Hj1.
      destruct (all l1) eqn:Ha1; simpl.
      - by exists (load_error (src el)).
      - destruct Hj1 as [Hj1 _]. by rewrite (forallb_pending _ p Hpp) in Hj1.
      - exists reason. split; [done|]. intros Hc. discriminate Hc. }
    destruct Ha as (r & Ha & Hr).
    pose proof (rejected_forever evs2 _ r Hl2 Hj2 Ha) as Hfin.
    destruct (run_keeps evs2 _ Hl2 Hj2) as (_ & Hj3 & _).
    unfold joined in Hj3. rewrite Hfin in Hj3. destruct Hj3 as [Hj3 Hj4].
    split; [done|]. by exists r.
Qed.

(** The three libraries on an empty document: the flag stays false until
    the last one has loaded. *)
Lemma loader_ready_only_after_loads_witness :
  loaded (ScriptLoader.run [OnLoad 0; OnLoad 2] (mount SCRIPT_URLS [])) = false ∧
  loaded (ScriptLoader.run [OnLoad 0; OnLoad 2; OnLoad 1] (mount SCRIPT_URLS [])) = true ∧
  ∀ s, s ∈ SCRIPT_URLS →
    loaded_ok s (document (ScriptLoader.run [OnLoad 0; OnLoad 2; OnLoad 1]
                                            (mount SCRIPT_URLS []))).
Proof.
  assert (H : loaded (ScriptLoader.run [OnLoad 0; OnLoad 2; OnLoad 1]
                                       (mount SCRIPT_URLS [])) = true)
    by (vm_compute; reflexivity).
  split; [vm_compute; reflexivity|]. split; [exact H|].
  intros s Hs.
  destruct (proj1 (loader_ready_only_after_loads SCRIPT_URLS [])
              [OnLoad 0; OnLoad 2; OnLoad 1] H s Hs) as [Hin|Hok].
  - exfalso. revert Hin. apply not_elem_of_nil.
  - exact Hok.
Defined.

End Loader.

(** * Further properties of the field store *)

Section FieldStoreMore.

Import View.

Lemma change_keeps_id (f : obj) (key : string) (v : value) :
  key ≠ "id" → get (<[key := v]> f) "id" = get f "id".
Proof. intros H. unfold get. by rewrite lookup_insert_ne. Qed.

Lemma State_eq (s s' : State) :
  allMemes s = allMemes s' → meme s = meme s' → fields s = fields s' →
  activeFieldId s = activeFieldId s' → s = s'.
Proof. destruct s, s'. simpl. by intros -> -> -> ->. Qed.

(** X1: [handleFieldChange] with an id that no field has returns the state
    it was given. *)
Theorem fieldChange_absent_id_noop (s : State) (id : value) (key : string) (v : value) :
  id ∉ ids (fields s) → handleFieldChange id key v s = s.
Proof.
  intros Hn. apply State_eq; try reflexivity.
  rewrite handleFieldChange_fields.
  induction (fields s) as [|f fs IH]; [done|]. simpl in *.
  apply not_elem_of_cons in Hn as [Hne Hn].
  assert (E : strict_eq (get f "id") id = false).
  { apply strict_eq_false. congruence. }
  rewrite E. f_equal. by apply IH.
Qed.

Lemma fieldChange_absent_id_noop_witness :
  (VNum 7 ∉ ids (fields initial)) ∧
  handleFieldChange (VNum 7) "text" (VStr "hello") initial = initial.
Proof.
  assert (H : VNum 7 ∉ ids (fields initial)).
  { apply (bool_decide_unpack _). vm_compute. reflexivity. }
  split; [exact H|].
  exact (fieldChange_absent_id_noop initial (VNum 7) "text" (VStr "hello") H).
Defined.

(** X2: for attribute keys other than ["id"], a second change of the same
    key of the same id overwrites the first, and changes of two different
    keys give the same state in either order, whatever the two ids. *)
Theorem fieldChange_overwrites_and_commutes
    (s : State) (id id' : value) (k k' : string) (v v' : value) :
  k ≠ "id" → k' ≠ "id" →
  handleFieldChange id k v' (handleFieldChange id k v s) = handleFieldChange id k v' s ∧
  (k ≠ k' →
   handleFieldChange id k v (handleFieldChange id' k' v' s)
   = handleFieldChange id' k' v' (handleFieldChange id k v s)).
Proof.
  intros Hk Hk'. split.
  - apply State_eq; try reflexivity.
    rewrite !handleFieldChange_fields, map_map. apply map_ext. intros f.
    destruct (strict_eq (get f "id") id) eqn:E.
    + rewrite change_keeps_id, E by done. apply insert_insert_eq.
    + by rewrite E.
  - intros Hne. apply State_eq; try reflexivity.
    rewrite !handleFieldChange_fields, !map_map. apply map_ext. intros f.
    destruct (strict_eq (get f "id") id) eqn:E;
      destruct (strict_eq (get f "id") id') eqn:E';
      rewrite ?change_keeps_id, ?E, ?E' by done; try done.
    by apply insert_insert_ne.
Qed.

Lemma fieldChange_overwrites_and_commutes_witness :
  handleFieldChange (VNum 1) "text" (VStr "b")
    (handleFieldChange (VNum 1) "text" (VStr "a") initial)
  = handleFieldChange (VNum 1) "text" (VStr "b") initial ∧
  handleFieldChange (VNum 1) "text" (VStr "a")
    (handleFieldChange (VNum 2) "size" (VNum 64) initial)
  = handleFieldChange (VNum 2) "size" (VNum 64)
      (handleFieldChange (VNum 1) "text" (VStr "a") initial).
Proof.
  destruct (fieldChange_overwrites_and_commutes initial (VNum 1) (VNum 2)
              "text" "size" (VStr "a") (VStr "b")
              ltac:(discriminate) ltac:(discriminate)) as [H1 _].
  destruct (fieldChange_overwrites_and_commutes initial (VNum 1) (VNum 2)
              "text" "size" (VStr "a") (VNum 64)
              ltac:(discriminate) ltac:(discriminate)) as [_ H2].
  split; [exact H1|]. apply H2. discriminate.
Defined.

Lemma find_map_same {A} (p : A → bool) (g : A → A) (l : list A) :
  (∀ x, p (g x) = p x) → List.find p (map g l) = g <$> List.find p l.
Proof.
  intros H. induction l as [|x l IH]; [done|]. simpl. rewrite H.
  by destruct (p x).
Qed.

(** X3: an edit made through the toolbar shows in the toolbar: when the
    toolbar is rendered for the field F, [onChange(F.id, key, value)] with
    a key other than ["id"] keeps the selection, and the toolbar is then
    rendered for F with [value] under [key] and nothing else changed. *)
Theorem toolbar_edit_round_trip (s : State) (F : obj) (key : string) (v : value) :
  activeField s = Some F → key ≠ "id" →
  let s' := handleFieldChange (get F "id") key v s in
  activeFieldId s' = activeFieldId s ∧
  activeField s' = Some (<[key := v]> F) ∧
  get (<[key := v]> F) key = v ∧
  ∀ k, k ≠ key → (<[key := v]> F) !! k = F !! k.
Proof.
  intros HF Hk s'. subst s'.
  assert (Hid : get F "id" = activeFieldId s).
  { unfold activeField in HF. apply find_some in HF as [_ HF].
    by apply strict_eq_true in HF. }
  split; [reflexivity|]. split; [|split].
  - unfold activeField. rewrite handleFieldChange_fields. simpl.
    rewrite find_map_same.
    + fold (activeField s). rewrite HF. simpl. by rewrite strict_eq_refl.
    + intros f. destruct (strict_eq (get f "id") (get F "id")); [|done].
      by rewrite change_keeps_id.
  - apply get_spread_set_eq.
  - intros k Hne. by apply lookup_insert_ne.
Qed.

Lemma toolbar_edit_round_trip_witness :
  let s := set_activeFieldId (VNum 2) initial in
  let F := mkField (VNum 2) "Fix a bug on Friday" "Anton" "#ffffff" 40 100 300 in
  activeField s = Some F ∧
  activeField (handleFieldChange (get F "id") "text" (VStr "Ship it") s)
  = Some (<["text" := VStr "Ship it"]> F).
Proof.
  intros s F.
  assert (H : activeField s = Some F).
  { unfold activeField, s, F. simpl.
    rewrite !get_mkField_id. reflexivity. }
  split; [exact H|].
  exact (proj1 (proj2 (toolbar_edit_round_trip s F "text" (VStr "Ship it") H
                         ltac:(discriminate)))).
Defined.

Lemma find_app_none {A} (p : A → bool) (l k : list A) :
  (∀ x, x ∈ l → p x = false) → List.find p (l ++ k) = List.find p k.
Proof.
  induction l as [|x l IH]; intros H; [done|]. simpl.
  rewrite (H x) by (apply elem_of_cons; by left).
  apply IH. intros y Hy. apply H, elem_of_cons. by right.
Qed.

Lemma not_in_ids (id : value) (fs : list obj) :
  id ∉ ids fs → ∀ f, f ∈ fs → strict_eq (get f "id") id = false.
Proof.
  intros Hn f Hf. apply strict_eq_false. intros Heq. apply Hn.
  unfold ids. apply list_elem_of_fmap. by exists f.
Qed.

(** X4: an add at a clock value that is the id of no field appends the new
    field after the existing ones, which stay as they are; the toolbar is
    then rendered for the new field, and the new field is the only one
    with the selection border. *)
Theorem addField_selects_new_field (s : State) (now : Z) :
  VNum now ∉ ids (fields s) →
  let newField := mkField (VNum now) "New Text" "Anton" "#ffffff" 40 150 150 in
  let s' := handleAddField now s in
  fields s' = fields s ++ [newField] ∧
  activeField s' = Some newField ∧
  outlined s' = replicate (length (fields s)) false ++ [true] ∧
  meme s' = meme s.
Proof.
  intros Hn newField s'. subst s'.
  pose proof (not_in_ids _ _ Hn) as Hno.
  split; [reflexivity|]. split; [|split; [|reflexivity]].
  - unfold activeField. rewrite handleAddField_active, handleAddField_fields.
    rewrite find_app_none by done. simpl.
    fold newField. unfold newField. by rewrite get_mkField_id, strict_eq_refl.
  - unfold outlined. rewrite handleAddField_active, handleAddField_fields.
    rewrite map_app. simpl. rewrite get_mkField_id, strict_eq_refl. f_equal.
    clear Hn. induction (fields s) as [|f fs IH]; [done|]. simpl.
    rewrite IH by (intros g Hg; apply Hno, elem_of_cons; by right).
    f_equal. specialize (Hno f ltac:(apply elem_of_cons; by left)).
    apply strict_eq_false. apply strict_eq_false in Hno. congruence.
Qed.

Lemma addField_selects_new_field_witness :
  (VNum 1700000000000 ∉ ids (fields initial)) ∧
  activeField (handleAddField 1700000000000 initial)
  = Some (mkField (VNum 1700000000000) "New Text" "Anton" "#ffffff" 40 150 150) ∧
  outlined (handleAddField 1700000000000 initial) = [false; false; true].
Proof.
  assert (H : VNum 1700000000000 ∉ ids (fields initial)).
  { apply (bool_decide_unpack _). vm_compute. reflexivity. }
  destruct (addField_selects_new_field initial 1700000000000 H) as (_ & H2 & H3 & _).
  split; [exact H|]. split; [exact H2|exact H3].
Defined.

(** X5: deleting the field that an add at a fresh clock value has just
    created undoes the add: the field list, the gallery and the background
    are as before the add, and the active field id is none. *)
Theorem add_then_delete_restores (s : State) (now : Z) :
  VNum now ∉ ids (fields s) →
  let s' := handleDeleteField (VNum now) (handleAddField now s) in
  fields s' = fields s ∧ meme s' = meme s ∧ allMemes s' = allMemes s ∧
  activeFieldId s' = VNull.
Proof.
  intros Hn s'. subst s'. split_and!.
  - rewrite handleDeleteField_fields, handleAddField_fields, List.filter_app.
    rewrite (keep_absent _ _ Hn). simpl.
    rewrite get_mkField_id.
    assert (E : strict_ne (VNum now) (VNum now) = false) by by apply strict_ne_false.
    rewrite E. apply app_nil_r.
  - by rewrite (proj1 (handleDeleteField_meme _ _)).
  - by rewrite (proj2 (handleDeleteField_meme _ _)).
  - rewrite handleDeleteField_active, handleAddField_active.
    by rewrite strict_eq_refl.
Qed.

Lemma add_then_delete_restores_witness :
  (VNum 1700000000000 ∉ ids (fields initial)) ∧
  fields (handleDeleteField (VNum 1700000000000)
            (handleAddField 1700000000000 initial)) = fields initial.
Proof.
  assert (H : VNum 1700000000000 ∉ ids (fields initial)).
  { apply (bool_decide_unpack _). vm_compute. reflexivity. }
  split; [exact H|].
  exact (proj1 (add_then_delete_restores initial 1700000000000 H)).
Defined.

(** X6: two deletes give the same state in either order. *)
Theorem delete_commutes (s : State) (a b : value) :
  handleDeleteField a (handleDeleteField b s)
  = handleDeleteField b (handleDeleteField a s).
Proof.
  apply State_eq.
  - by rewrite !(proj2 (handleDeleteField_meme _ _)).
  - by rewrite !(proj1 (handleDeleteField_meme _ _)).
  - rewrite !handleDeleteField_fields.
    induction (fields s) as [|f fs IH]; [done|]. simpl.
    destruct (strict_ne (get f "id") a) eqn:Ea;
      destruct (strict_ne (get f "id") b) eqn:Eb; simpl;
      rewrite ?Ea, ?Eb; by rewrite IH.
  - rewrite !handleDeleteField_active.
    destruct (strict_eq (activeFieldId s) a) eqn:Ea;
      destruct (strict_eq (activeFieldId s) b) eqn:Eb;
      rewrite ?Ea, ?Eb; try done.
    + by destruct (strict_eq VNull a), (strict_eq VNull b).
    + by destruct (strict_eq VNull b).
    + by destruct (strict_eq VNull a).
Qed.

(** X7: a random pick never throws for an index below the gallery's length
    and keeps the fields; with an empty gallery it returns the state it was
    given, whatever the index, and otherwise the new background is the
    [url] of the gallery entry at the index and no field is selected. *)
Theorem randomMeme_picks_from_gallery (s : State) (idx : nat) :
  (idx < length (allMemes s) ∨ allMemes s = [])%nat →
  ∃ s', handleRandomMeme idx s = Some s' ∧
        fields s' = fields s ∧ allMemes s' = allMemes s ∧
        (allMemes s = [] → s' = s) ∧
        (allMemes s ≠ [] →
           imageUrl s' ∈ (λ m, get m "url") <$> allMemes s ∧
           (λ m, get m "url") <$> allMemes s !! idx = Some (imageUrl s') ∧
           activeFieldId s' = VNull).
Proof.
  intros H. unfold handleRandomMeme. case_bool_decide as Hlen.
  - exists s. split_and!; try done.
    intros Hne. destruct (allMemes s); [done|discriminate Hlen].
  - destruct H as [H|H]; [|by rewrite H in Hlen].
    apply lookup_lt_is_Some in H as [m Hm]. rewrite Hm. simpl.
    eexists. split; [reflexivity|]. split_and!; try reflexivity.
    + intros E. by rewrite E in Hlen.
    + intros _. unfold imageUrl. simpl. rewrite imageUrl_set.
      split_and!; [|done|done].
      apply list_elem_of_fmap. exists m. split; [done|].
      by apply list_elem_of_lookup_2 in Hm.
Qed.

Lemma randomMeme_picks_from_gallery_witness :
  let memes : list obj :=
    [ {[ "id" := VStr "181913649"; "name" := VStr "Drake Hotline Bling";
         "url" := VStr "https://i.imgflip.com/30b1gx.jpg" ]};
      {[ "id" := VStr "87743020"; "name" := VStr "Two Buttons";
         "url" := VStr "https://i.imgflip.com/1g8my4.jpg" ]} ] in
  ∃ s', handleRandomMeme 1 (set_allMemes memes initial) = Some s' ∧
        imageUrl s' = VStr "https://i.imgflip.com/1g8my4.jpg" ∧
        activeFieldId s' = VNull.
Proof.
  intros memes.
  destruct (randomMeme_picks_from_gallery (set_allMemes memes initial) 1
              ltac:(left; simpl; lia))
    as (s' & H1 & _ & _ & _ & H5).
  destruct (H5 ltac:(discriminate)) as (_ & H6 & H7).
  exists s'. split; [exact H1|]. split; [|exact H7].
  simpl in H6. injection H6 as H6. rewrite <- H6. vm_compute. reflexivity.
Defined.

End FieldStoreMore.

(** * Further properties of the component *)

Section Interface.

Import View Ui.

Lemma mkField_complete id text font color size x y :
  complete (mkField id text font color size x y).
Proof.
  intros k Hk. unfold known_attributes in Hk.
  repeat (apply elem_of_cons in Hk as [->|Hk]; [unfold mkField; by simplify_map_eq|]).
  by apply elem_of_nil in Hk.
Qed.

Lemma insert_complete (f : obj) (k : string) (v : value) :
  complete f → complete (<[k := v]> f).
Proof.
  intros H k' Hk'. apply lookup_insert_is_Some.
  destruct (decide (k = k')); [by left|right]. split; [done|by apply H].
Qed.

Lemma handle_complete (e : event) (w w1 : World) :
  handle e w = Some w1 →
  Forall complete (fields (st w)) → Forall complete (fields (st w1)).
Proof.
  intros H Hc. destruct e; simpl in H;
    try (apply bind_Some in H as (? & H0 & H));
    injection H as <-; simpl; try done.
  - unfold handleRandomMeme in H0. case_bool_decide; [by injection H0 as <-|].
    apply bind_Some in H0 as (m & _ & [= <-]). done.
  - apply Forall_app. split; [done|]. apply Forall_singleton, mkField_complete.
  - apply Forall_forall. intros f Hf.
    apply list_elem_of_In, in_map_iff in Hf as (g & <- & Hg).
    rewrite Forall_forall in Hc. specialize (Hc g ltac:(by apply list_elem_of_In)).
    destruct (strict_eq _ _); [by apply insert_complete|done].
  - rewrite handleDeleteField_fields. apply Forall_forall. intros f Hf.
    apply elem_of_keep in Hf as [Hf _]. rewrite Forall_forall in Hc. by apply Hc.
  - unfold handleImageUpload. by destruct (files ≫= head).
  - apply Forall_forall. intros f Hf.
    apply list_elem_of_In, in_map_iff in Hf as (g & <- & Hg).
    rewrite Forall_forall in Hc. specialize (Hc g ltac:(by apply list_elem_of_In)).
    destruct (strict_eq _ _); [|done].
    unfold spread_set. by do 2 apply insert_complete.
  - unfold handleCanvasClick. by destruct onBackground.
  - unfold handleDownloadMeme. by destruct html2canvas.
  - unfold export_timeout, memeRef_current. simpl. by destruct (librariesLoaded w).
Qed.

(** X8: no callback ever removes a property of a field: in every state the
    component can reach, each field of the store has an [id], a [text], a
    [font], a [color], a [size], an [x] and a [y]. *)
Theorem fields_stay_complete (w : World) :
  reachable w → ∀ f, f ∈ fields (st w) → complete f.
Proof.
  intros Hr. apply Forall_forall.
  induction Hr as [w Hm|w e w' _ IH Hs].
  - injection Hm as <-. simpl.
    repeat (apply Forall_cons; split; [apply mkField_complete|]). by apply Forall_nil.
  - destruct (step_inv e w w' Hs) as (_ & w1 & H1 & _ & -> & _).
    by apply (handle_complete e w w1).
Qed.

Lemma fields_stay_complete_witness :
  reachable ready ∧
  complete (mkField (VNum 1) "One does not simply" "Anton" "#ffffff" 40 100 50) ∧
  is_Some (mkField (VNum 1) "One does not simply" "Anton" "#ffffff" 40 100 50
             !! "font").
Proof.
  split; [exact ready_reachable|].
  assert (H : complete (mkField (VNum 1) "One does not simply" "Anton" "#ffffff"
                                 40 100 50)).
  { apply (fields_stay_complete ready ready_reachable). apply elem_of_cons. by left. }
  split; [exact H|]. apply H.
  apply elem_of_cons. right. apply elem_of_cons. right. apply elem_of_cons. by left.
Defined.

(** *** Ids under the events of the interface *)

Lemma toolbar_key_not_id (key : string) : key ∈ toolbar_keys → key ≠ "id".
Proof.
  unfold toolbar_keys. intros H ->.
  repeat (apply elem_of_cons in H as [H|H]; [discriminate H|]).
  by apply elem_of_nil in H.
Qed.

Lemma ids_change (c : obj → bool) (k : string) (v : value) (fs : list obj) :
  k ≠ "id" → ids (map (λ f, if c f then <[k := v]> f else f) fs) = ids fs.
Proof.
  intros Hk. unfold ids. rewrite map_map. apply map_ext. intros f.
  destruct (c f); [by apply change_keeps_id|done].
Qed.

Lemma ids_onDragEnd captured x y (fs : list obj) :
  ids (onDragEnd_update captured x y fs) = ids fs.
Proof.
  unfold ids, onDragEnd_update. rewrite map_map. apply map_ext. intros f.
  destruct (strict_eq _ _); [|done]. unfold spread_set.
  by rewrite !change_keeps_id.
Qed.

Lemma filter_keeps_all {A} (p : A → bool) (l : list A) :
  length (List.filter p l) = length l → List.filter p l = l.
Proof.
  induction l as [|x l IH]; [done|]. simpl.
  pose proof (List.filter_length_le p l) as Hle.
  destruct (p x); simpl; intros H.
  - f_equal. apply IH. lia.
  - lia.
Qed.

Lemma ui_handle_ids (e : event) (w w1 : World) :
  from_ui e = true → handle e w = Some w1 →
  (length (fields (st w1)) = length (fields (st w)) →
   ids (fields (st w1)) = ids (fields (st w))) ∧
  (Forall is_number (ids (fields (st w))) →
   Forall is_number (ids (fields (st w1)))).
Proof.
  intros Hui H. destruct e; simpl in H;
    try (apply bind_Some in H as (? & H0 & H));
    injection H as <-; simpl; try done.
  - unfold handleRandomMeme in H0. case_bool_decide; [by injection H0 as <-|].
    apply bind_Some in H0 as (m & _ & [= <-]). done.
  - rewrite length_app. simpl. split; [lia|].
    intros Hn. unfold ids. rewrite map_app. apply Forall_app. split; [done|].
    simpl. rewrite get_mkField_id. apply Forall_singleton. by exists now.
  - simpl in Hui. apply bool_decide_eq_true, toolbar_key_not_id in Hui.
    unfold spread_set. by rewrite ids_change.
  - rewrite handleDeleteField_fields. split.
    + intros Hl. by rewrite (filter_keeps_all _ _ Hl).
    + intros Hn. rewrite Forall_forall in Hn. apply Forall_forall. intros x Hx.
      apply Hn. eapply elem_of_sublist; [exact Hx|apply ids_keep_sublist].
  - unfold handleImageUpload. by destruct (files ≫= head).
  - by rewrite ids_onDragEnd.
  - unfold handleCanvasClick. by destruct onBackground.
  - unfold handleDownloadMeme. by destruct html2canvas.
  - unfold export_timeout, memeRef_current. simpl. by destruct (librariesLoaded w).
Qed.

(** With adds at fresh clock values the ids stay pairwise distinct. *)
Lemma ui_handle_NoDup (e : event) (w w1 : World) :
  from_ui e = true → fresh_add e w = true → handle e w = Some w1 →
  NoDup (ids (fields (st w))) → NoDup (ids (fields (st w1))).
Proof.
  intros Hui Hfresh H Hnd. destruct e; simpl in H;
    try (apply bind_Some in H as (? & H0 & H));
    injection H as <-; simpl; try done.
  - unfold handleRandomMeme in H0. case_bool_decide; [by injection H0 as <-|].
    apply bind_Some in H0 as (m & _ & [= <-]). done.
  - simpl in Hfresh. apply bool_decide_eq_true in Hfresh.
    unfold ids in *. rewrite map_app. simpl. rewrite get_mkField_id.
    apply NoDup_app. split_and!; [done| |].
    + intros x Hx Hx'. apply elem_of_cons in Hx' as [->|Hx']; [done|].
      by apply elem_of_nil in Hx'.
    + apply NoDup_singleton.
  - simpl in Hui. apply bool_decide_eq_true, toolbar_key_not_id in Hui.
    unfold spread_set. by rewrite ids_change.
  - rewrite handleDeleteField_fields.
    apply (sublist_NoDup _ _ Hnd), ids_keep_sublist.
  - unfold handleImageUpload. by destruct (files ≫= head).
  - by rewrite ids_onDragEnd.
  - unfold handleCanvasClick. by destruct onBackground.
  - unfold handleDownloadMeme. by destruct html2canvas.
  - unfold export_timeout, memeRef_current. simpl. by destruct (librariesLoaded w).
Qed.

Lemma live_in_ref (w : World) (d : nat) :
  synced w → live w d = true →
  ∃ k, draggableInstancesRef w !! k = Some (Some d) ∧
       live_instances w !! k = Some d.
Proof.
  intros Hs Hl. destruct (synced_live w Hs) as (Href & _ & _).
  assert (Hin : d ∈ live_instances w).
  { unfold live_instances. apply list_elem_of_In, filter_In. split; [|done].
    apply list_elem_of_In, elem_of_seq. unfold live in Hl.
    destruct (heap w !! d) eqn:E; [|done].
    apply lookup_lt_Some in E. lia. }
  apply list_elem_of_lookup in Hin as [k Hk]. exists k. split; [|done].
  by rewrite Href, list_lookup_fmap, Hk.
Qed.

Lemma ids_lookup (fs : list obj) (k : nat) (id : value) :
  ids fs !! k = Some id ↔ ∃ F, fs !! k = Some F ∧ get F "id" = id.
Proof.
  unfold ids. change (map ?f fs) with (f <$> fs).
  rewrite list_lookup_fmap_Some. split.
  - intros (F & -> & HF). by exists F.
  - intros (F & HF & <-). by exists F.
Qed.

Lemma ui_handle_selection (e : event) (w w1 : World) :
  from_ui e = true → handle e w = Some w1 → enabled e w = true →
  synced w → snapshots_current w →
  selection_valid (st w) → selection_valid (st w1).
Proof.
  intros Hui H Hen Hs Hsnap Hsel.
  destruct e; simpl in H;
    try (apply bind_Some in H as (? & H0 & H));
    injection H as <-; simpl; try done; try (by left).
  - unfold handleRandomMeme in H0. case_bool_decide; [by injection H0 as <-|].
    apply bind_Some in H0 as (m & _ & [= <-]). by left.
  - right. change (activeFieldId (handleAddField now (st w)))
      with (get (mkField (VNum now) "New Text" "Anton" "#ffffff" 40 150 150) "id").
    rewrite handleAddField_ids, get_mkField_id. apply elem_of_app. right.
    apply elem_of_cons. by left.
  - simpl in Hui. apply bool_decide_eq_true, toolbar_key_not_id in Hui.
    unfold selection_valid. simpl. unfold spread_set. by rewrite ids_change.
  - unfold selection_valid.
    rewrite handleDeleteField_active, handleDeleteField_fields.
    destruct (strict_eq (activeFieldId (st w)) id) eqn:E; [by left|].
    apply strict_eq_false in E. destruct Hsel as [Hsel|Hsel]; [by left|right].
    unfold ids in *. apply list_elem_of_fmap in Hsel as (f & Hf1 & Hf2).
    apply list_elem_of_fmap. exists f. split; [done|].
    apply elem_of_keep. split; [done|congruence].
  - unfold handleImageUpload. destruct (files ≫= head); [by left|done].
  - right. simpl in Hen.
    destruct (live_in_ref w d Hs Hen) as (k & Hk & _).
    destruct (Hsnap k d x Hk H0) as (F & HF & Hid).
    unfold selection_valid. simpl. rewrite <- Hid.
    apply list_elem_of_lookup. exists k. apply ids_lookup. by exists F.
  - unfold selection_valid. simpl. by rewrite ids_onDragEnd.
  - unfold handleCanvasClick. destruct onBackground; [by left|done].
  - unfold handleDownloadMeme. destruct html2canvas; [by left|done].
  - unfold export_timeout, memeRef_current. simpl. by destruct (librariesLoaded w).
Qed.

(** A turn of the event loop keeps the world synced and the closures
    current. *)
Lemma ui_step_snapshots (e : event) (w w' : World) :
  from_ui e = true → synced w →
  NoDup (ids (fields (st w))) → Forall is_number (ids (fields (st w))) →
  snapshots_current w →
  step e w = Some w' → synced w' ∧ snapshots_current w'.
Proof.
  intros Hui Hs Hnd Hnum Hsnap Hstep.
  destruct (step_inv e w w' Hstep) as (Hen & w1 & H1 & _ & Hst & Hl & _).
  assert (Hne : e ≠ ScriptsLoaded false).
  { intros ->. destruct Hs as (Hsound & _).
    by rewrite (step_without_gsap w Hsound) in Hstep. }
  destruct (step_synced e w Hs Hen Hne Hnd Hnum)
    as (w'' & Hstep' & Hs' & Hsame & Hre).
  { intros w0 H0. by apply (ui_handle_ids e w w0 Hui H0). }
  assert (w'' = w') by congruence. subst w''. split; [done|].
  destruct (decide (deps_of w' = deps_of w)) as [Hd|Hd].
  - destruct (Hsame Hd) as (Hh & Hr & _).
    assert (Hids : ids (fields (st w')) = ids (fields (st w))).
    { rewrite Hst. apply (ui_handle_ids e w w1 Hui H1).
      rewrite <- Hst. by apply (f_equal dep_length) in Hd. }
    intros k d i Hk Hi. rewrite Hr in Hk. rewrite Hh in Hi.
    destruct (Hsnap k d i Hk Hi) as (F & HF & Hid).
    assert (Hk' : ids (fields (st w')) !! k = Some (get F "id")).
    { rewrite Hids. apply ids_lookup. by exists F. }
    apply ids_lookup in Hk' as (F' & HF' & Hid'). exists F'. split; [done|congruence].
  - destruct (librariesLoaded w') eqn:Hl'.
    + destruct (Hre Hd eq_refl) as [Hh Hr].
      intros k d i Hk Hi. rewrite Hr in Hk.
      rewrite list_lookup_fmap in Hk.
      destruct (seq _ _ !! k) as [d'|] eqn:Hseq; [|done].
      injection Hk as ->. apply lookup_seq in Hseq as [-> Hlt].
      rewrite Hh, lookup_app_r in Hi by (rewrite length_fmap; lia).
      rewrite length_fmap in Hi.
      replace (length (heap w) + k - length (heap w))%nat with k in Hi by lia.
      apply list_lookup_imap_Some in Hi as (F & HF & ->).
      exists F. by split.
    + destruct Hs' as (_ & _ & dead & att & _ & _ & Href & _ & Hlen).
      rewrite Hl' in Hlen. rewrite Hlen in Href. simpl in Href.
      intros k d i Hk. by rewrite Href in Hk.
Qed.

Lemma ui_reachable_reachable (w : World) : ui_reachable w → reachable w.
Proof.
  induction 1 as [w Hm|w e w' _ IH _ _ Hs].
  - by apply reach_mount.
  - by apply (reach_step w e).
Qed.

Lemma mounted_synced (w : World) : mounted = Some w → synced w.
Proof.
  intros Hm. split; [by apply mounted_sound|]. injection Hm as <-.
  split.
  - intros el Hel. by apply elem_of_nil in Hel.
  - exists [], []. split_and!; try done.
Qed.

(** What the events of the interface keep when every add reads a fresh
    clock value. *)
Lemma ui_invariant (w : World) :
  ui_reachable w →
  synced w ∧ snapshots_current w ∧ selection_valid (st w) ∧
  Forall is_number (ids (fields (st w))) ∧ NoDup (ids (fields (st w))).
Proof.
  induction 1 as [w Hm|w e w' Hr IH Hui Hfresh Hs].
  - split; [by apply mounted_synced|]. injection Hm as <-. split_and!.
    + intros k d i Hk. done.
    + by left.
    + simpl. rewrite !get_mkField_id.
      repeat (apply Forall_cons; split; [by eexists|]). by apply Forall_nil.
    + exact initial_ids_NoDup.
  - destruct IH as (Hsy & Hsnap & Hsel & Hnum & Hnd).
    destruct (step_inv e w w' Hs) as (Hen & w1 & H1 & _ & Hst & _).
    destruct (ui_step_snapshots e w w' Hui Hsy Hnd Hnum Hsnap Hs) as [Hsy' Hsnap'].
    split_and!; try done.
    + rewrite Hst. by apply (ui_handle_selection e w w1).
    + rewrite Hst. by apply (ui_handle_ids e w w1).
    + rewrite Hst. by apply (ui_handle_NoDup e w w1).
Qed.

Lemma find_none_all {A} (p : A → bool) (l : list A) :
  (∀ x, x ∈ l → p x = false) → List.find p l = None.
Proof.
  intros H. rewrite <- (app_nil_r l). by rewrite find_app_none.
Qed.

Lemma find_exists {A} (p : A → bool) (l : list A) (x : A) :
  x ∈ l → p x = true → ∃ y, List.find p l = Some y ∧ y ∈ l ∧ p y = true.
Proof.
  intros Hx Hp. destruct (List.find p l) as [y|] eqn:E.
  - exists y. apply find_some in E as [H1 H2]. split; [done|].
    split; [by apply list_elem_of_In|done].
  - apply list_elem_of_In in Hx. pose proof (find_none p l E x Hx). congruence.
Qed.

(** X9: through the events of the interface, with every add at a clock
    value that is the id of no field in the store, the selection never
    dangles: in every state either no field is selected, and then no
    toolbar is rendered and no field has the selection border, or the
    toolbar is rendered for a field of the store whose id is the active
    field id. *)
Theorem selection_never_dangles (w : World) :
  ui_reachable w →
  (activeFieldId (st w) = VNull ∧ activeField (st w) = None ∧
   Forall (λ b, b = false) (outlined (st w))) ∨
  (∃ F, activeField (st w) = Some F ∧ F ∈ fields (st w) ∧
        get F "id" = activeFieldId (st w)).
Proof.
  intros Hr. destruct (ui_invariant w Hr) as (_ & _ & Hsel & Hnum & _).
  assert (Hno : activeFieldId (st w) = VNull →
                ∀ f, f ∈ fields (st w) → get f "id" ≠ VNull).
  { intros _ f Hf Hid. rewrite Forall_forall in Hnum.
    destruct (Hnum (get f "id")) as [n Hn]; [|congruence].
    unfold ids. apply list_elem_of_fmap. by exists f. }
  destruct Hsel as [Hsel|Hsel].
  - left. split; [done|]. split.
    + unfold activeField. rewrite Hsel. apply find_none_all. intros f Hf.
      apply strict_eq_false. by apply Hno.
    + unfold outlined. rewrite Hsel. apply Forall_forall. intros b Hb.
      apply list_elem_of_In, in_map_iff in Hb as (f & <- & Hf).
      apply strict_eq_false. intros Heq. apply (Hno Hsel f); [|done].
      by apply list_elem_of_In.
  - right. unfold ids in Hsel. apply list_elem_of_fmap in Hsel as (f & Hid & Hf).
    destruct (find_exists (λ f, strict_eq (get f "id") (activeFieldId (st w)))
                (fields (st w)) f Hf) as (F & HF & Hin & Hp).
    { by apply strict_eq_true. }
    exists F. split; [done|]. split; [done|]. by apply strict_eq_true in Hp.
Qed.

Lemma ui_ready : ui_reachable ready.
Proof.
  apply (ui_step (set_effect (Some (deps_of unmounted)) false unmounted)
                 (ScriptsLoaded true)).
  - apply ui_mount. reflexivity.
  - reflexivity.
  - reflexivity.
  - vm_compute. reflexivity.
Qed.

Lemma selection_never_dangles_witness :
  ui_reachable ready ∧
  ((activeFieldId (st ready) = VNull ∧ activeField (st ready) = None ∧
    Forall (λ b, b = false) (outlined (st ready))) ∨
   (∃ F, activeField (st ready) = Some F ∧ F ∈ fields (st ready) ∧
         get F "id" = activeFieldId (st ready))).
Proof. exact (conj ui_ready (selection_never_dangles ready ui_ready)). Defined.


(** X10: through the events of the interface, with every add at a clock
    value that is the id of no field in the store, a live behaviour acts
    on one field, the one whose element it is bound to: the ref holds the
    behaviour at the position of that field, the closure's id is the id
    of that field, a click selects that field and leaves the fields as
    they are, and a drag release writes the final offsets, whole or
    fractional, into that field's [x] and [y] and leaves every other
    field and the selection as they are; neither throws. *)
Theorem behaviour_acts_on_rendered_field
    (w : World) (d : nat) (i : Draggable) (x y : value) :
  ui_reachable w → live w d = true → heap w !! d = Some i →
  ∃ k F w1 w2,
    draggableInstancesRef w !! k = Some (Some d) ∧
    mkElement (target i) k ∈ document (tree w) ∧
    fields (st w) !! k = Some F ∧
    get F "id" = get (captured i) "id" ∧
    step (FieldClick d) w = Some w1 ∧
    activeFieldId (st w1) = get F "id" ∧ fields (st w1) = fields (st w) ∧
    step (DragEnd d x y) w = Some w2 ∧
    fields (st w2) !! k = Some (<["y" := y]> (<["x" := x]> F)) ∧
    (∀ j G, j ≠ k → fields (st w) !! j = Some G → fields (st w2) !! j = Some G) ∧
    activeFieldId (st w2) = activeFieldId (st w).
Proof.
  intros Hr Hl Hi.
  destruct (ui_invariant w Hr) as (Hs & Hsnap & _ & _ & Hnd).
  pose proof Hs as (Hsound & _).
  destruct (live_in_ref w d Hs Hl) as (k & Hk & Hlive).
  destruct (Hsnap k d i Hk Hi) as (F & HF & Hid).
  destruct (synced_live w Hs) as (_ & _ & Hb).
  destruct (Hb k d Hlive) as (i' & Hi' & _ & _ & Hel).
  assert (i' = i) by congruence. subst i'.
  destruct (step_total (FieldClick d) w Hsound Hl ltac:(discriminate))
    as (w1h & w1 & H1 & Hs1 & _ & Hst1 & _).
  destruct (step_total (DragEnd d x y) w Hsound Hl ltac:(discriminate))
    as (w2h & w2 & H2 & Hs2 & _ & Hst2 & _).
  simpl in H1, H2. rewrite Hi in H1, H2. simpl in H1, H2.
  injection H1 as <-. injection H2 as <-.
  exists k, F, w1, w2. rewrite Hst1, Hst2. simpl.
  split_and!; try done.
  - rewrite onDragEnd_update_lookup, HF. simpl.
    apply strict_eq_true in Hid. by rewrite Hid.
  - intros j G Hj HG. apply onDragEnd_update_other; [done|].
    rewrite <- Hid. intros Heq. apply Hj.
    apply (NoDup_lookup (ids (fields (st w))) j k (get G "id")); [done| |].
    + apply ids_lookup. by exists G.
    + apply ids_lookup. by exists F.
Qed.

Lemma behaviour_acts_on_rendered_field_witness :
  ∃ w1 w2,
    step (FieldClick 1) ready = Some w1 ∧ activeFieldId (st w1) = VNum 2 ∧
    step (DragEnd 1 (VFrac "10.5") (VNum 20)) ready = Some w2 ∧
    (λ f, (get f "x", get f "y")) <$> fields (st w2) !! 1%nat
    = Some (VFrac "10.5", VNum 20).
Proof.
  destruct (behaviour_acts_on_rendered_field ready 1
              (mkDraggable 1 (mkField (VNum 2) "Fix a bug on Friday" "Anton"
                                      "#ffffff" 40 100 300) true)
              (VFrac "10.5") (VNum 20) ui_ready eq_refl eq_refl)
    as (k & F & w1 & w2 & Hk & _ & HF & Hid & H1 & H2 & _ & H3 & H4 & _).
  assert (k = 1%nat) as ->.
  { destruct k as [|[|k]]; [discriminate Hk|done|discriminate Hk]. }
  simpl in HF. injection HF as <-.
  exists w1, w2. split; [exact H1|]. split.
  - rewrite H2. apply get_mkField_id.
  - split; [exact H3|]. rewrite H4. vm_compute. reflexivity.
Defined.

Lemma document_length (t : Tree) :
  tree_ok t → (∀ el, el ∈ document t → node el ∈ fnode <$> children t) →
  length (document t) = length (children t).
Proof.
  intros (Hc & Hd & Hel & _) Hstale.
  rewrite <- (length_fmap node), <- (length_fmap fnode).
  apply Permutation_length, NoDup_Permutation; [done|done|].
  intros x. split.
  - intros Hx. apply list_elem_of_fmap in Hx as (el & -> & Hin). by apply Hstale.
  - intros Hx. apply list_elem_of_fmap in Hx as (f & -> & Hin).
    apply list_elem_of_lookup in Hin as [j Hj].
    by apply (list_elem_of_fmap_2' node _ (mkElement (fnode f) j)); [apply Hel|].
Qed.

(** X19: as long as every add reads a clock value that is the id of no
    field in the store, the drag synchronizer keeps one behaviour per
    field through the events of the interface: in every state the ids are
    pairwise distinct, the document holds one element per field once the
    libraries are there (none before), and the live behaviours are
    exactly the ones the ref holds, one per field and each bound to the
    element of the field at its position, so nothing leaks; and every
    further turn of the event loop, other than the readiness flag turning
    true while GSAP is not defined, runs without throwing, leaves the
    behaviours alone when neither the number of fields, nor the
    background image, nor the readiness flag has changed, and otherwise
    kills every earlier behaviour and creates exactly one fresh behaviour
    per field. *)
Theorem distinct_ids_one_behaviour_per_field (w : World) :
  ui_reachable w →
  NoDup (ids (fields (st w))) ∧
  length (document (tree w)) =
    (if librariesLoaded w then length (fields (st w)) else 0%nat) ∧
  draggableInstancesRef w = Some <$> live_instances w ∧
  length (live_instances w) =
    (if librariesLoaded w then length (fields (st w)) else 0%nat) ∧
  (∀ k d, live_instances w !! k = Some d →
     ∃ i, heap w !! d = Some i ∧ alive i = true ∧
          mkElement (target i) k ∈ document (tree w)) ∧
  ∀ e, from_ui e = true → fresh_add e w = true → enabled e w = true →
       e ≠ ScriptsLoaded false →
    ∃ w', step e w = Some w' ∧
      (deps_of w' = deps_of w →
         heap w' = heap w ∧ live_instances w' = live_instances w) ∧
      (deps_of w' ≠ deps_of w → librariesLoaded w' = true →
         (∀ d, d ∈ live_instances w → live w' d = false) ∧
         live_instances w' = seq (length (heap w)) (length (fields (st w')))).
Proof.
  intros Hr. destruct (ui_invariant w Hr) as (Hs & _ & _ & Hnum & Hnd).
  destruct (synced_live w Hs) as (Href & Hlen & Hbound).
  split; [done|]. split.
  { destruct Hs as ((_ & _ & _ & _ & Hok & Hkeys & _) & Hstale & _).
    rewrite (document_length _ Hok Hstale), <- (length_fmap fkey), Hkeys.
    destruct (librariesLoaded w); [|done].
    rewrite length_fmap. unfold ids. by rewrite length_map. }
  split; [done|]. split; [done|]. split.
  { intros k d Hk. destruct (Hbound k d Hk) as (i & H1 & H2 & _ & H4).
    by exists i. }
  intros e Hui Hfresh Hen Hne.
  destruct (step_synced e w Hs Hen Hne Hnd Hnum)
    as (w' & Hstep & Hs' & Hsame & Hrebuild).
  { intros w0 H0. by apply (ui_handle_ids e w w0 Hui H0). }
  exists w'. split; [done|].
  destruct (synced_live w' Hs') as (Href' & Hlen' & _).
  split.
  - intros Hd. destruct (Hsame Hd) as (Hh & Hrf & _). split; [done|].
    rewrite Href, Href' in Hrf. by apply (inj (fmap Some)) in Hrf.
  - intros Hd Hl. destruct (Hrebuild Hd Hl) as [Hh Hrf]. split.
    + intros d Hin. unfold live_instances in Hin.
      apply list_elem_of_In, filter_In in Hin as [Hin _].
      apply list_elem_of_In, elem_of_seq in Hin.
      unfold live. rewrite Hh, lookup_app_l by (rewrite length_fmap; lia).
      rewrite list_lookup_fmap. by destruct (heap w !! d).
    + rewrite Href' in Hrf. by apply (inj (fmap Some)) in Hrf.
Qed.

Lemma distinct_ids_one_behaviour_per_field_witness :
  ui_reachable ready ∧
  draggableInstancesRef ready = Some <$> live_instances ready ∧
  length (live_instances ready) = 2%nat ∧
  length (document (tree ready)) = 2%nat ∧
  ∃ w', step (AddField 1700000000000) ready = Some w'.
Proof.
  split; [exact ui_ready|].
  destruct (distinct_ids_one_behaviour_per_field ready ui_ready)
    as (_ & H0 & H1 & H2 & _ & H4).
  split; [exact H1|]. split; [exact H2|]. split; [exact H0|].
  destruct (H4 (AddField 1700000000000) eq_refl eq_refl eq_refl ltac:(discriminate))
    as (w' & Hw' & _).
  exists w'. exact Hw'.
Defined.

Lemma nonstructural_deps (e : event) (w w1 : World) :
  structural e = false → handle e w = Some w1 → deps_of w1 = deps_of w.
Proof.
  intros Hn H. destruct e; try discriminate Hn; simpl in H;
    try (apply bind_Some in H as (? & H0 & H));
    injection H as <-; try reflexivity.
  - unfold deps_of, imageUrl. simpl. by rewrite length_map.
  - unfold handleImageUpload. by destruct (files ≫= head).
  - unfold deps_of, imageUrl, onDragEnd_update. simpl. by rewrite length_map.
  - unfold handleCanvasClick. by destruct onBackground.
  - unfold handleDownloadMeme. by destruct html2canvas.
  - unfold export_timeout, memeRef_current. simpl. by destruct (librariesLoaded w).
Qed.

(** X11: edits, clicks, drag releases, uploads in flight, exports and the
    arrival of the gallery never tear the drag behaviours down: in every
    reachable state, a turn of the event loop for an event other than the
    readiness of the libraries, a template selection, an add, a delete or
    the end of a file read runs without throwing and leaves every
    Draggable, live or killed, and the ref as they were. *)
Theorem edits_keep_behaviours (w : World) (e : event) :
  reachable w → structural e = false → enabled e w = true →
  ∃ w', step e w = Some w' ∧
        heap w' = heap w ∧
        draggableInstancesRef w' = draggableInstancesRef w ∧
        live_instances w' = live_instances w.
Proof.
  intros Hr Hn Hen. pose proof (reachable_sound w Hr) as Hs.
  assert (Hne : e ≠ ScriptsLoaded false) by (intros ->; discriminate Hn).
  destruct (step_sound e w Hs Hen Hne)
    as (w1 & w' & H1 & Hstep & _ & Hst & Hl & _ & _ & _ & _ & _ & Hsame).
  assert (Hd : deps_of w' = deps_of w).
  { rewrite <- (nonstructural_deps e w w1 Hn H1). unfold deps_of.
    by rewrite Hst, Hl. }
  destruct (Hsame Hd) as [Hh Href]. exists w'. split_and!; try done.
  unfold live_instances, live. by rewrite Hh.
Qed.

Lemma edits_keep_behaviours_witness :
  ∃ w', step (FieldChange (VNum 1) "text" (VStr "One does not simply edit")) ready
        = Some w' ∧
        heap w' = heap ready ∧ live_instances w' = live_instances ready.
Proof.
  destruct (edits_keep_behaviours ready
              (FieldChange (VNum 1) "text" (VStr "One does not simply edit"))
              ready_reachable eq_refl eq_refl) as (w' & H1 & H2 & _ & H4).
  exists w'. split; [exact H1|]. split; [exact H2|exact H4].
Defined.

(** *** Export accounting *)

Lemma count_snoc {A} (f : A → bool) (l : list A) (x : A) :
  count f (l ++ [x]) = (count f l + if f x then 1 else 0)%nat.
Proof.
  unfold count. rewrite List.filter_app, length_app. simpl.
  by destruct (f x).
Qed.

Lemma count_cons {A} (f : A → bool) (x : A) (l : list A) :
  count f (x :: l) = ((if f x then 1 else 0) + count f l)%nat.
Proof. unfold count. simpl. by destruct (f x). Qed.

(** What one turn of the event loop does to the export bookkeeping. *)
Lemma step_export (e : event) (w w' : World) (n : nat) :
  step e w = Some w' →
  (timers w ≠ [] → librariesLoaded w = true) →
  (length (timers w) + count is_capture (out w) = n)%nat →
  (count is_download (out w) + count is_capture_error (out w) + captures w
   = count is_capture (out w))%nat →
  Forall (λ t, t = 150) (timers w) →
  (timers w' ≠ [] → librariesLoaded w' = true) ∧
  (length (timers w') + count is_capture (out w')
   = n + if is_export_click e then 1 else 0)%nat ∧
  (count is_download (out w') + count is_capture_error (out w') + captures w'
   = count is_capture (out w'))%nat ∧
  Forall (λ t, t = 150) (timers w').
Proof.
  intros Hstep Ht Hn Hc H150.
  destruct (step_inv e w w' Hstep)
    as (Hen & w1 & H1 & _ & _ & Hl & _ & Htm & Hcp & Hout).
  rewrite Hl, Htm, Hcp, Hout. clear Hl Htm Hcp Hout Hstep w'.
  destruct e; simpl in H1;
    try (apply bind_Some in H1 as (? & H0 & H1));
    injection H1 as <-; simpl in *;
    try (split_and!; [done|lia|done|done]).
  - unfold handleImageUpload. destruct (files ≫= head); simpl;
      (split_and!; [done|lia|done|done]).
  - unfold handleCanvasClick. destruct onBackground; simpl;
      (split_and!; [done|lia|done|done]).
  - unfold handleDownloadMeme. destruct html2canvas; simpl.
    + split_and!; [done| |done|].
      * rewrite length_app. simpl. lia.
      * apply Forall_app. split; [done|]. by apply Forall_singleton.
    + rewrite !count_snoc. simpl. split_and!; [done|lia|lia|done].
  - apply bool_decide_eq_true in Hen. specialize (Ht Hen).
    unfold export_timeout, memeRef_current. simpl. rewrite Ht. simpl.
    rewrite !count_snoc. simpl.
    destruct (timers w) as [|t ts]; [done|]. simpl in *.
    apply Forall_cons in H150 as [_ H150].
    split_and!; [done|lia|lia|done].
  - apply bool_decide_eq_true in Hen.
    unfold capture_then. simpl. rewrite !count_snoc. simpl.
    split_and!; [done|lia|lia|done].
  - apply bool_decide_eq_true in Hen.
    unfold capture_catch. simpl. rewrite !count_snoc. simpl.
    split_and!; [done|lia|lia|done].
Qed.

Lemma run_export (es : list event) : ∀ (w w' : World) (n : nat),
  World.run es w = Some w' →
  (timers w ≠ [] → librariesLoaded w = true) →
  (length (timers w) + count is_capture (out w) = n)%nat →
  (count is_download (out w) + count is_capture_error (out w) + captures w
   = count is_capture (out w))%nat →
  Forall (λ t, t = 150) (timers w) →
  (length (timers w') + count is_capture (out w')
   = n + count is_export_click es)%nat ∧
  (count is_download (out w') + count is_capture_error (out w') + captures w'
   = count is_capture (out w'))%nat ∧
  Forall (λ t, t = 150) (timers w').
Proof.
  induction es as [|e es IH]; intros w w' n Hrun Ht Hn Hc H150; simpl in Hrun.
  - injection Hrun as <-. change (count is_export_click []) with 0%nat.
    split_and!; [lia|done|done].
  - apply bind_Some in Hrun as (w1 & Hstep & Hrun).
    destruct (step_export e w w1 n Hstep Ht Hn Hc H150) as (Ht1 & Hn1 & Hc1 & H1).
    destruct (IH w1 w' _ Hrun Ht1 Hn1 Hc1 H1) as (Hn2 & Hc2 & H2).
    rewrite count_cons. split_and!; [lia|done|done].
Qed.

(** X12: over every run of events from the mount, each export click made
    while [window.html2canvas] is defined sets one timer of 150 ms, each
    timer that has fired has made exactly one capture call, and each
    capture that has settled has produced exactly one download or one
    logged failure: so there are never more downloads than captures, nor
    more captures than such clicks. *)
Theorem export_accounting (es : list event) (w : World) :
  mounted ≫= World.run es = Some w →
  (length (timers w) + count is_capture (out w) = count is_export_click es)%nat ∧
  (count is_download (out w) + count is_capture_error (out w) + captures w
   = count is_capture (out w))%nat ∧
  Forall (λ t, t = 150) (timers w) ∧
  (count is_download (out w) ≤ count is_capture (out w)
                             ≤ count is_export_click es)%nat.
Proof.
  intros H. apply bind_Some in H as (w0 & Hm & Hrun). injection Hm as <-.
  destruct (run_export es _ w 0%nat Hrun) as (H1 & H2 & H3); try done.
  split_and!; [lia|done|done|lia|lia].
Qed.

Lemma export_accounting_witness :
  let es := [ScriptsLoaded true; DownloadClick true; DownloadClick false;
             DownloadClick true; TimeoutFire;
             CaptureResolved "data:image/png;base64,iVBOR" 1700000000000] in
  ∃ w, mounted ≫= World.run es = Some w ∧
       length (timers w) = 1%nat ∧ count is_capture (out w) = 1%nat ∧
       count is_download (out w) = 1%nat ∧ captures w = 0%nat.
Proof.
  intros es.
  assert (Hsome : is_Some (mounted ≫= World.run es)).
  { apply (bool_decide_unpack _). vm_compute. reflexivity. }
  destruct Hsome as [w Hw]. exists w. split; [exact Hw|].
  destruct (export_accounting es w Hw) as (H1 & H2 & _ & _).
  assert (Ht : length (timers w) = 1%nat).
  { assert (E : (λ w, length (timers w)) <$> (mounted ≫= World.run es) = Some 1%nat)
      by (vm_compute; reflexivity).
    rewrite Hw in E. by injection E. }
  assert (Hd : count is_download (out w) = 1%nat).
  { assert (E : (λ w, count is_download (out w)) <$> (mounted ≫= World.run es) = Some 1%nat)
      by (vm_compute; reflexivity).
    rewrite Hw in E. by injection E. }
  change (count is_export_click es) with 2%nat in H1.
  split; [exact Ht|]. split; [lia|]. split; [exact Hd|].
  assert (He : count is_capture_error (out w) = 0%nat).
  { assert (E : (λ w, count is_capture_error (out w)) <$> (mounted ≫= World.run es) = Some 0%nat)
      by (vm_compute; reflexivity).
    rewrite Hw in E. by injection E. }
  lia.
Defined.

End Interface.

(** * Further properties of the script loader *)

Section LoaderMore.

Import ScriptLoader Loading.

Lemma loadScript_owned (s : string) (doc : list Script) (ps : list promise) :
  owned doc ps → owned (loadScript s (doc, ps)).1 (loadScript s (doc, ps)).2.
Proof.
  intros Ho. unfold loadScript. destruct (has_script s doc); simpl.
  - intros p x Hp. apply lookup_app_Some in Hp as [Hp|[_ Hp]]; [by apply Ho|].
    apply list_lookup_singleton_Some in Hp as [_ <-]. by left.
  - intros p x Hp. apply lookup_app_Some in Hp as [Hp|[Hge Hp]].
    + destruct (Ho p x Hp) as [->|(e & el & He & Hh)]; [by left|right].
      exists e, el. split; [|done]. apply lookup_app_l_Some. done.
    + apply list_lookup_singleton_Some in Hp as [Hp <-]. right.
      exists (length doc), (mkScript s Loading (Some (length ps))).
      split; [by rewrite lookup_app_r, Nat.sub_diag|].
      simpl. f_equal. lia.
Qed.

Lemma loadScripts_owned (scripts : list string) : ∀ doc ps,
  owned doc ps →
  owned (loadScripts scripts (doc, ps)).1 (loadScripts scripts (doc, ps)).2.
Proof.
  induction scripts as [|s scripts IH]; intros doc ps Ho; [done|].
  change (loadScripts (s :: scripts) (doc, ps))
    with (loadScripts scripts (loadScript s (doc, ps))).
  pose proof (loadScript_owned s doc ps Ho) as H1.
  destruct (loadScript s (doc, ps)) as [doc1 ps1]. by apply IH.
Qed.

Lemma on_fulfil_prompt (l : Loader) :
  all l = Pending → prompt (on_fulfil l).
Proof.
  intros Ha. unfold on_fulfil, prompt. rewrite Ha.
  destruct (forallb is_fulfilled (promises l)) eqn:E; simpl.
  - split_and!; [done|discriminate|discriminate].
  - rewrite Ha. split_and!; [discriminate|done|discriminate].
Qed.

Lemma mount_owned_prompt (scripts : list string) (doc0 : list (string * status)) :
  owned (document (mount scripts doc0)) (promises (mount scripts doc0)) ∧
  prompt (mount scripts doc0).
Proof.
  unfold mount.
  pose proof (loadScripts_owned scripts (present <$> doc0) []) as Ho.
  destruct (loadScripts scripts (present <$> doc0, [])) as [doc ps]. simpl in Ho.
  split.
  - destruct (on_fulfil_frame (mkLoader doc ps Pending false [])) as [-> ->].
    apply Ho. intros p x Hp. done.
  - by apply on_fulfil_prompt.
Qed.

Lemma owned_update (doc : list Script) (ps : list promise) (e : nat) (s : Script)
    (st' : status) (p : nat) (x : promise) :
  owned doc ps → doc !! e = Some s → handler s = Some p →
  owned (<[e := mkScript (src s) st' (handler s)]> doc) (<[p := x]> ps).
Proof.
  intros Ho He Hp q y Hq.
  assert (Hlt : (e < length doc)%nat) by (apply lookup_lt_is_Some; eauto).
  destruct (decide (q = p)) as [->|Hne].
  - right. exists e, (mkScript (src s) st' (handler s)).
    by rewrite list_lookup_insert_eq.
  - rewrite list_lookup_insert_ne in Hq by done.
    destruct (Ho q y Hq) as [->|(e' & el & He' & Hh)]; [by left|right].
    destruct (decide (e' = e)) as [->|Hd].
    + exists e, (mkScript (src s) st' (handler s)).
      rewrite list_lookup_insert_eq by done. split; [done|]. simpl. congruence.
    + exists e', el. by rewrite list_lookup_insert_ne.
Qed.

Lemma owned_status (doc : list Script) (ps : list promise) (e : nat) (s : Script)
    (st' : status) :
  owned doc ps → doc !! e = Some s →
  owned (<[e := mkScript (src s) st' (handler s)]> doc) ps.
Proof.
  intros Ho He q y Hq.
  assert (Hlt : (e < length doc)%nat) by (apply lookup_lt_is_Some; eauto).
  destruct (Ho q y Hq) as [->|(e' & el & He' & Hh)]; [by left|right].
  destruct (decide (e' = e)) as [->|Hd].
  - exists e, (mkScript (src s) st' (handler s)).
    rewrite list_lookup_insert_eq by done. split; [done|]. simpl. congruence.
  - exists e', el. by rewrite list_lookup_insert_ne.
Qed.

(** A load event keeps the bookkeeping. *)
Lemma step_owned_prompt (ev : event) (l : Loader) :
  linked (document l) (promises l) →
  owned (document l) (promises l) → prompt l →
  owned (document (ScriptLoader.step ev l)) (promises (ScriptLoader.step ev l)) ∧
  prompt (ScriptLoader.step ev l).
Proof.
  intros Hl Ho Hp.
  destruct ev as [e|e]; simpl;
    (destruct (document l !! e) as [s|] eqn:He; [|done]);
    (destruct (status_of s) eqn:Hst; [|done..]);
    (destruct (handler s) as [p|] eqn:Hh;
       [|split; [unfold set_status; simpl; by apply owned_status|exact Hp]]).
  - assert (Hpp : promises l !! p = Some Pending).
    { destruct Hl as [H1 _]. rewrite (H1 e s p He Hh).
      unfold promise_of. by rewrite Hst. }
    unfold resolve, set_status. simpl. rewrite Hpp.
    match goal with |- context [on_fulfil ?x] =>
      destruct (on_fulfil_frame x) as [-> ->]; simpl end.
    split; [by apply owned_update|].
    destruct Hp as (P1 & P2 & P3). destruct (all l) eqn:Ha.
    + by apply on_fulfil_prompt.
    + unfold on_fulfil, prompt. simpl.
      split_and!; [intros _; by apply P1|discriminate|discriminate].
    + unfold on_fulfil, prompt. simpl.
      split_and!; [discriminate|discriminate|].
      intros r [= <-]. destruct (P3 reason eq_refl) as (q & r' & Hq).
      exists q, r'. rewrite list_lookup_insert_ne; [done|]. intros ->. congruence.
  - assert (Hpp : promises l !! p = Some Pending).
    { destruct Hl as [H1 _]. rewrite (H1 e s p He Hh).
      unfold promise_of. by rewrite Hst. }
    assert (Hlt : (p < length (promises l))%nat) by (apply lookup_lt_is_Some; eauto).
    unfold reject, set_status. simpl. rewrite Hpp.
    match goal with |- context [on_reject ?r ?x] =>
      destruct (on_reject_frame r x) as [-> ->]; simpl end.
    split; [by apply owned_update|].
    destruct Hp as (P1 & P2 & P3). unfold on_reject, prompt. simpl.
    destruct (all l) eqn:Ha; simpl.
    + split_and!; [discriminate|discriminate|].
      intros r _. exists p, (load_error (src s)). by rewrite list_lookup_insert_eq.
    + split_and!; [intros _; by apply P1|discriminate|discriminate].
    + split_and!; [discriminate|discriminate|].
      intros r _. exists p, (load_error (src s)). by rewrite list_lookup_insert_eq.
Qed.

Lemma run_all_invariants (evs : list event) : ∀ l : Loader,
  linked (document l) (promises l) → joined l →
  owned (document l) (promises l) → prompt l →
  linked (document (ScriptLoader.run evs l)) (promises (ScriptLoader.run evs l)) ∧
  joined (ScriptLoader.run evs l) ∧
  owned (document (ScriptLoader.run evs l)) (promises (ScriptLoader.run evs l)) ∧
  prompt (ScriptLoader.run evs l).
Proof.
  induction evs as [|ev evs IH]; intros l Hl Hj Ho Hp; [done|].
  destruct (step_keeps ev l Hl Hj) as (Hl1 & Hj1 & _).
  destruct (step_owned_prompt ev l Hl Ho Hp) as (Ho1 & Hp1).
  exact (IH _ Hl1 Hj1 Ho1 Hp1).
Qed.

(** X13: after the hook has run and after any sequence of load events, the
    readiness flag is true exactly when every [script] element that the
    hook appended has loaded. *)
Theorem ready_iff_appended_scripts_loaded
    (scripts : list string) (doc0 : list (string * status)) (evs : list event) :
  let l := ScriptLoader.run evs (mount scripts doc0) in
  loaded l = true ↔
  ∀ el, el ∈ document l → is_Some (handler el) → status_of el = Loaded.
Proof.
  intros l. subst l.
  destruct (mount_spec scripts doc0) as (_ & _ & _ & Hl0 & Hj0 & _).
  destruct (mount_owned_prompt scripts doc0) as (Ho0 & Hp0).
  destruct (run_all_invariants evs _ Hl0 Hj0 Ho0 Hp0) as (Hl & Hj & Ho & Hp).
  set (l := ScriptLoader.run evs (mount scripts doc0)) in *.
  split.
  - intros Hloaded el Hel [p Hh].
    assert (Hall : forallb is_fulfilled (promises l) = true).
    { unfold joined in Hj. destruct (all l); destruct Hj as [Hj1 _]; congruence. }
    apply list_elem_of_lookup in Hel as [e He].
    destruct Hl as [H1 _]. pose proof (H1 e el p He Hh) as Hpr.
    rewrite forallb_forall in Hall. specialize (Hall (promise_of el)).
    rewrite <- list_elem_of_In in Hall.
    assert (Hf : is_fulfilled (promise_of el) = true).
    { apply Hall. by apply list_elem_of_lookup_2 in Hpr. }
    unfold promise_of in Hf. by destruct (status_of el).
  - intros Hall.
    assert (Hful : ∀ p x, promises l !! p = Some x → x = Fulfilled).
    { intros p x Hx. destruct (Ho p x Hx) as [->|(e & el & He & Hh)]; [done|].
      destruct Hl as [H1 _]. rewrite (H1 e el p He Hh) in Hx. injection Hx as <-.
      unfold promise_of. rewrite (Hall el); [done| |by eexists].
      by apply list_elem_of_lookup_2 in He. }
    destruct Hp as (P1 & P2 & P3). destruct (all l) eqn:Ha.
    + specialize (P2 eq_refl).
      assert (Ht : forallb is_fulfilled (promises l) = true).
      { apply forallb_forall. intros x Hx.
        apply list_elem_of_In, list_elem_of_lookup in Hx as [p Hx].
        by rewrite (Hful p x Hx). }
      congruence.
    + by apply P1.
    + destruct (P3 reason eq_refl) as (p & r' & Hx).
      by apply Hful in Hx.
Qed.

Lemma loadScripts_all_present (scripts : list string) : ∀ doc ps,
  (∀ s, s ∈ scripts → s ∈ src <$> doc) →
  loadScripts scripts (doc, ps)
  = (doc, ps ++ replicate (length scripts) Fulfilled).
Proof.
  induction scripts as [|s scripts IH]; intros doc ps H.
  - simpl. by rewrite app_nil_r.
  - change (loadScripts (s :: scripts) (doc, ps))
      with (loadScripts scripts (loadScript s (doc, ps))).
    unfold loadScript.
    rewrite (proj2 (has_script_true s doc)) by (apply H, elem_of_cons; by left).
    rewrite IH by (intros s' Hs'; apply H, elem_of_cons; by right).
    simpl. by rewrite <- app_assoc.
Qed.

Lemma shape_src (doc doc' : list Script) :
  shape doc = shape doc' → src <$> doc = src <$> doc'.
Proof.
  intros H. apply (f_equal (fmap fst)) in H. unfold shape in H.
  by rewrite <- !list_fmap_compose in H.
Qed.

Lemma forallb_replicate_fulfilled (n : nat) (ps : list promise) :
  forallb is_fulfilled (ps ++ replicate n Fulfilled) = forallb is_fulfilled ps.
Proof.
  rewrite forallb_app.
  assert (E : forallb is_fulfilled (replicate n Fulfilled) = true).
  { induction n as [|n IH]; [done|]. simpl. exact IH. }
  rewrite E. apply andb_true_r.
Qed.

(** X14: the hook is idempotent on the document: run again over the
    document that a first run has left, after any sequence of load events,
    it appends no [script] element, logs nothing, and reports ready at
    once, whether or not the first run's scripts have loaded. *)
Theorem second_run_appends_nothing_and_is_ready
    (scripts : list string) (doc0 : list (string * status)) (evs : list event) :
  let l := ScriptLoader.run evs (mount scripts doc0) in
  let l2 := mount scripts (snapshot (document l)) in
  document l2 = present <$> snapshot (document l) ∧
  src <$> document l2 = src <$> document l ∧
  status_of <$> document l2 = status_of <$> document l ∧
  promises l2 = replicate (length scripts) Fulfilled ∧
  loaded l2 = true ∧ console l2 = [].
Proof.
  intros l l2. subst l l2.
  destruct (mount_spec scripts doc0) as (_ & _ & _ & Hl0 & Hj0 & Hcov).
  destruct (run_keeps evs _ Hl0 Hj0) as (_ & _ & Hsh).
  set (l := ScriptLoader.run evs (mount scripts doc0)) in *.
  assert (Hsrc : src <$> (present <$> snapshot (document l)) = src <$> document l).
  { unfold snapshot. by rewrite <- !list_fmap_compose. }
  assert (Hst : status_of <$> (present <$> snapshot (document l))
                = status_of <$> document l).
  { unfold snapshot. by rewrite <- !list_fmap_compose. }
  assert (E : loadScripts scripts (present <$> snapshot (document l), [])
              = (present <$> snapshot (document l),
                 [] ++ replicate (length scripts) Fulfilled)).
  { apply loadScripts_all_present. intros s Hs.
    rewrite Hsrc, (shape_src _ _ Hsh). by apply Hcov. }
  pose proof (forallb_replicate_fulfilled (length scripts) []) as Hf.
  simpl in Hf. unfold mount. rewrite E. unfold on_fulfil. simpl.
  rewrite Hf. simpl. by split_and!.
Qed.

(** The first run still waits while a second run says ready. *)
Example second_run_ready_before_first :
  let l := mount SCRIPT_URLS [] in
  loaded l = false ∧ loaded (mount SCRIPT_URLS (snapshot (document l))) = true.
Proof. split; vm_compute; reflexivity. Qed.

Lemma loadScripts_once (scripts : list string) : ∀ doc ps,
  ∃ created ps',
    loadScripts scripts (doc, ps) = (doc ++ created, ps') ∧
    length ps' = (length ps + length scripts)%nat ∧
    NoDup (src <$> created) ∧
    (∀ el, el ∈ created →
       src el ∈ scripts ∧ (src el ∉ src <$> doc) ∧
       status_of el = Loading ∧ is_Some (handler el)) ∧
    (∀ s, s ∈ scripts → s ∈ src <$> (doc ++ created)).
Proof.
  induction scripts as [|s scripts IH]; intros doc ps.
  - exists [], ps. rewrite app_nil_r. split_and!.
    + done.
    + simpl. lia.
    + constructor.
    + intros el Hel. by apply elem_of_nil in Hel.
    + intros s Hs. by apply elem_of_nil in Hs.
  - change (loadScripts (s :: scripts) (doc, ps))
      with (loadScripts scripts (loadScript s (doc, ps))).
    unfold loadScript. destruct (has_script s doc) eqn:E.
    + apply has_script_true in E.
      destruct (IH doc (ps ++ [Fulfilled])) as (c & ps' & -> & Hlen & Hnd & Hc & Hcov).
      exists c, ps'. split_and!; try done.
      * rewrite Hlen, length_app. simpl. lia.
      * intros el Hel. destruct (Hc el Hel) as (H1 & H2 & H3 & H4).
        split_and!; try done. apply elem_of_cons. by right.
      * intros s' Hs'. apply elem_of_cons in Hs' as [->|Hs']; [|by apply Hcov].
        rewrite fmap_app. apply elem_of_app. by left.
    + assert (Hs : s ∉ src <$> doc).
      { intros Hin. apply has_script_true in Hin. congruence. }
      destruct (IH (doc ++ [mkScript s Loading (Some (length ps))]) (ps ++ [Pending]))
        as (c & ps' & -> & Hlen & Hnd & Hc & Hcov).
      exists (mkScript s Loading (Some (length ps)) :: c), ps'.
      rewrite <- app_assoc. simpl. split_and!; try done.
      * rewrite Hlen, length_app. simpl. lia.
      * apply NoDup_cons. split; [|done]. intros Hin.
        apply list_elem_of_fmap in Hin as (el & Hsrc & Hel).
        destruct (Hc el Hel) as (_ & H2 & _). apply H2.
        rewrite fmap_app. apply elem_of_app. right. simpl. rewrite <- Hsrc.
        apply elem_of_cons. by left.
      * intros el Hel. apply elem_of_cons in Hel as [->|Hel].
        -- simpl. split_and!; [apply elem_of_cons; by left|done|done|by eexists].
        -- destruct (Hc el Hel) as (H1 & H2 & H3 & H4).
           split_and!; try done; [apply elem_of_cons; by right|].
           intros Hin. apply H2. rewrite fmap_app. apply elem_of_app. by left.
      * intros s' Hs'. apply elem_of_cons in Hs' as [->|Hs'].
        -- rewrite fmap_app, fmap_cons. apply elem_of_app. right.
           apply elem_of_cons. by left.
        -- specialize (Hcov s' Hs'). by rewrite <- app_assoc in Hcov.
Qed.

(** X15: the hook appends at most one [script] element for each source:
    its run keeps the elements that were in the document, in place and
    untouched, and appends, all in the loading state, elements with
    pairwise different sources, each a member of the given list that had
    no element before; it makes one promise per entry of the list, and
    afterwards every given source has an element. *)
Theorem mount_appends_each_source_once
    (scripts : list string) (doc0 : list (string * status)) :
  ∃ created,
    document (mount scripts doc0) = (present <$> doc0) ++ created ∧
    NoDup (src <$> created) ∧
    (∀ el, el ∈ created →
       src el ∈ scripts ∧ (src el ∉ doc0.*1) ∧
       status_of el = Loading ∧ is_Some (handler el)) ∧
    (∀ s, s ∈ scripts → s ∈ doc0.*1 ∨ s ∈ src <$> created) ∧
    (NoDup doc0.*1 → NoDup (src <$> document (mount scripts doc0))) ∧
    length (promises (mount scripts doc0)) = length scripts.
Proof.
  destruct (loadScripts_once scripts (present <$> doc0) [])
    as (created & ps' & E & Hlen & Hnd & Hc & Hcov).
  assert (Hsrc0 : src <$> (present <$> doc0) = doc0.*1).
  { by rewrite <- list_fmap_compose. }
  exists created. unfold mount. rewrite E.
  destruct (on_fulfil_frame (mkLoader ((present <$> doc0) ++ created) ps'
                                      Pending false [])) as [-> ->].
  simpl. split_and!; try done.
  - intros el Hel. destruct (Hc el Hel) as (H1 & H2 & H3 & H4).
    split_and!; try done. by rewrite <- Hsrc0.
  - intros s Hs. specialize (Hcov s Hs). rewrite fmap_app, Hsrc0 in Hcov.
    by apply elem_of_app in Hcov.
  - intros Hnd0. rewrite fmap_app, Hsrc0. apply NoDup_app. split_and!; try done.
    intros x Hx Hx'. apply list_elem_of_fmap in Hx' as (el & -> & Hel).
    destruct (Hc el Hel) as (_ & H2 & _). apply H2. by rewrite Hsrc0.
Qed.

End LoaderMore.

(** * The fonts stylesheet *)

Section Fonts.

Import View.







(** The stylesheet of the eight fonts of the component. *)
Example fonts_href_of_FONT_OPTIONS :
  fonts_href FONT_OPTIONS =
  "https://fonts.googleapis.com/css2?family=Anton:wght@400;700;900&family=Bangers:wght@400;700;900&family=Oswald:wght@400;700;900&family=Luckiest+Guy:wght@400;700;900&family=Roboto:wght@400;700;900&family=Pacifico:wght@400;700;900&family=Caveat:wght@400;700;900&family=Lobster:wght@400;700;900&display=swap".
Proof. vm_compute. reflexivity. Qed.

End Fonts.
